(** * The JIT block cache (Source/Core/Core/PowerPC/JitCommon/JitCache.cpp)

    A shallow embedding of [JitBlock] and [JitBaseBlockCache]: the block
    registry ([block_map]), the reverse link graph ([links_to]), the range
    index ([block_range_map]), the valid-block bitmap and the fast block
    map, together with the operations that keep them in step.

    Conventions.
    - A [u32] is a [Z] reduced modulo [2^32] wherever the C++ arithmetic
      can wrap.
    - A [JitBlock*] is the address of a node of [block_map]; it is a [Z],
      and [std::set<JitBlock*>] iterates in increasing address order.
    - An operation returns [None] where the C++ has no defined result:
      a dangling [JitBlock*] is dereferenced, an array is indexed out of
      bounds, or a [u32] loop counter wraps around and the loop never ends. *)

From Stdlib Require Import ZArith Lia Zbitwise.
From stdpp Require Import base option list gmap sorting.

#[local] Open Scope Z_scope.

(** ** Machine integers *)

Definition u32 (x : Z) : Z := x mod 2 ^ 32.

(** [~x] on a [u32]. *)
Definition not32 (x : Z) : Z := u32 (Z.lnot x).

(** ** JitBlock *)

Record LinkData := mkLinkData {
  exitPtrs : Z;        (* host address of the jump to patch *)
  exitAddress : Z;
  linkStatus : bool;
  call : bool
}.

Record JitBlock := mkJitBlock {
  checkedEntry : Z;
  normalEntry : Z;
  effectiveAddress : Z;
  msrBits : Z;
  physicalAddress : Z;
  codeSize : Z;
  originalSize : Z;
  runCount : Z;
  linkData : list LinkData;
  fast_block_map_index : Z
}.

Definition set_linkStatus (s : bool) (e : LinkData) : LinkData :=
  mkLinkData (exitPtrs e) (exitAddress e) s (call e).

Definition set_linkData (l : list LinkData) (b : JitBlock) : JitBlock :=
  mkJitBlock (checkedEntry b) (normalEntry b) (effectiveAddress b) (msrBits b)
    (physicalAddress b) (codeSize b) (originalSize b) (runCount b) l
    (fast_block_map_index b).

Definition set_fast_block_map_index (i : Z) (b : JitBlock) : JitBlock :=
  mkJitBlock (checkedEntry b) (normalEntry b) (effectiveAddress b) (msrBits b)
    (physicalAddress b) (codeSize b) (originalSize b) (runCount b) (linkData b) i.

(** [JitBlock::Overlap]: both sums are [u32] sums; [originalSize] is added
    to the address as it stands. *)
Definition Overlap (b : JitBlock) (addr length : Z) : bool :=
  if u32 (physicalAddress b + originalSize b) <=? addr then false
  else if u32 (addr + length) <=? physicalAddress b then false
  else true.

(** The overlap test of the design text: the block covers
    [4 * original_size] bytes from its physical address. *)
Definition spans_intersect (b : JitBlock) (addr length : Z) : Prop :=
  addr < physicalAddress b + 4 * originalSize b ∧
  physicalAddress b < addr + length.

(** ** Containers *)

(** [std::multimap<u32, V>]: entries in key order; among equal keys, in
    order of insertion. *)
Fixpoint mm_emplace {V} (k : Z) (v : V) (m : list (Z * V)) : list (Z * V) :=
  match m with
  | [] => [(k, v)]
  | kv :: m' => if k <? kv.1 then (k, v) :: m else kv :: mm_emplace k v m'
  end.

Definition mm_equal_range {V} (k : Z) (m : list (Z * V)) : list (Z * V) :=
  filter (λ kv, kv.1 = k) m.

(** [erase(key)] removes every entry of that key. *)
Definition mm_erase_key {V} (k : Z) (m : list (Z * V)) : list (Z * V) :=
  filter (λ kv, kv.1 ≠ k) m.

(** A node of [block_map] is its key, its address and the block it holds. *)
Fixpoint mm_deref (p : Z) (m : list (Z * (Z * JitBlock))) : option JitBlock :=
  match m with
  | [] => None
  | kv :: m' => if decide (kv.2.1 = p) then Some kv.2.2 else mm_deref p m'
  end.

Fixpoint mm_store (p : Z) (f : JitBlock → JitBlock)
    (m : list (Z * (Z * JitBlock))) : list (Z * (Z * JitBlock)) :=
  match m with
  | [] => []
  | kv :: m' =>
      if decide (kv.2.1 = p) then (kv.1, (kv.2.1, f kv.2.2)) :: m'
      else kv :: mm_store p f m'
  end.

(** [std::set<JitBlock*>] in iteration order. *)
Definition set_order (s : gset Z) : list Z := merge_sort Z.le (elements s).

(** Iterators of [block_range_map] are the key they point at; [None] is
    [end()]. *)
Definition lower_bound (k : Z) (m : gmap Z (gset Z)) : option Z :=
  head (merge_sort Z.le (filter (λ x, k ≤ x) (elements (dom m)))).

Definition next_key (k : Z) (m : gmap Z (gset Z)) : option Z :=
  head (merge_sort Z.le (filter (λ x, k < x) (elements (dom m)))).

(** A loop over a list whose body can fail. *)
Fixpoint for_each {A S} (f : A → S → option S) (l : list A) (s : S) : option S :=
  match l with
  | [] => Some s
  | a :: l' => s' ← f a s; for_each f l' s'
  end.

(** ** The cache *)

(** What the host jump at a patch site currently targets. *)
Inductive JumpTarget :=
  | ToDispatcher
  | ToEntry (checked_entry : Z).

Record Cache := mkCache {
  block_map : list (Z * (Z * JitBlock));
  links_to : list (Z * Z);
  block_range_map : gmap Z (gset Z);
  valid_block : gset Z;
  fast_block_map : gmap Z Z;
  fifoWriteAddresses : gset Z;          (* m_jit.js *)
  pairedQuantizeAddresses : gset Z;     (* m_jit.js *)
  patch_sites : gmap Z JumpTarget       (* emitted host code *)
}.

Definition set_block_map (f : list (Z * (Z * JitBlock)) → list (Z * (Z * JitBlock)))
    (st : Cache) : Cache :=
  mkCache (f (block_map st)) (links_to st) (block_range_map st) (valid_block st)
    (fast_block_map st) (fifoWriteAddresses st) (pairedQuantizeAddresses st)
    (patch_sites st).

Definition set_links_to (f : list (Z * Z) → list (Z * Z)) (st : Cache) : Cache :=
  mkCache (block_map st) (f (links_to st)) (block_range_map st) (valid_block st)
    (fast_block_map st) (fifoWriteAddresses st) (pairedQuantizeAddresses st)
    (patch_sites st).

Definition set_block_range_map (f : gmap Z (gset Z) → gmap Z (gset Z))
    (st : Cache) : Cache :=
  mkCache (block_map st) (links_to st) (f (block_range_map st)) (valid_block st)
    (fast_block_map st) (fifoWriteAddresses st) (pairedQuantizeAddresses st)
    (patch_sites st).

Definition set_valid_block (f : gset Z → gset Z) (st : Cache) : Cache :=
  mkCache (block_map st) (links_to st) (block_range_map st) (f (valid_block st))
    (fast_block_map st) (fifoWriteAddresses st) (pairedQuantizeAddresses st)
    (patch_sites st).

Definition set_fast_block_map (f : gmap Z Z → gmap Z Z) (st : Cache) : Cache :=
  mkCache (block_map st) (links_to st) (block_range_map st) (valid_block st)
    (f (fast_block_map st)) (fifoWriteAddresses st) (pairedQuantizeAddresses st)
    (patch_sites st).

Definition set_hints (f : gset Z → gset Z) (st : Cache) : Cache :=
  mkCache (block_map st) (links_to st) (block_range_map st) (valid_block st)
    (fast_block_map st) (f (fifoWriteAddresses st))
    (f (pairedQuantizeAddresses st)) (patch_sites st).

Definition set_patch_sites (f : gmap Z JumpTarget → gmap Z JumpTarget)
    (st : Cache) : Cache :=
  mkCache (block_map st) (links_to st) (block_range_map st) (valid_block st)
    (fast_block_map st) (fifoWriteAddresses st) (pairedQuantizeAddresses st)
    (f (patch_sites st)).

(** The cache with nothing in it. *)
Definition empty_cache : Cache := mkCache [] [] ∅ ∅ ∅ ∅ ∅ ∅.

(** [*p] for a [JitBlock* p]. *)
Definition deref (p : Z) (st : Cache) : option JitBlock :=
  mm_deref p (block_map st).

(** A write through a [JitBlock*] or [JitBlock&]. *)
Definition update_block (p : Z) (f : JitBlock → JitBlock) (st : Cache) : Cache :=
  set_block_map (mm_store p f) st.

(** ** Collaborators and constants declared outside this file *)

Module TranslateResult.
Record t := mk {
  valid : bool;
  address : Z
}.
End TranslateResult.

Class Platform := {
  JIT_CACHE_MSR_MASK : Z;
  BLOCK_RANGE_MAP_ELEMENTS : Z;
  (* FAST_BLOCK_MAP_ELEMENTS - 1; the fast map has slots 0 .. FAST_BLOCK_MAP_MASK *)
  FAST_BLOCK_MAP_MASK : Z;
  (* UReg_MSR(msr).IR *)
  MSR_IR : Z → bool;
  (* PowerPC::JitCache_TranslateAddress *)
  JitCache_TranslateAddress : Z → TranslateResult.t
}.

(** The recompiler: [Jit(addr)] compiles the block at [addr] and publishes
    it in the cache. *)
Class Recompiler := {
  Jit : Z → Cache → option Cache
}.

(** Modelled from the spec: [ValidBlockBitSet] is declared in the header,
    which is not part of the sources; it holds one bit per 32-byte chunk of
    physical memory. The bitmap is the set of chunk numbers whose bit is set. *)
Definition ValidBlockBitSet_Set (bit : Z) (vb : gset Z) : gset Z := {[bit]} ∪ vb.
Definition ValidBlockBitSet_Clear (bit : Z) (vb : gset Z) : gset Z := vb ∖ {[bit]}.
Definition ValidBlockBitSet_Test (bit : Z) (vb : gset Z) : bool := bool_decide (bit ∈ vb).

(** Modelled from the spec: [WriteLinkBlock] is pure virtual in the cache
    and implemented by each recompiler back end, outside the sources; it
    patches the host jump at the exit's patch site to the destination's
    [checked_entry], or to the generic dispatcher thunk when there is no
    destination. *)
Definition WriteLinkBlock (source : LinkData) (dest : option JitBlock)
    (st : Cache) : Cache :=
  set_patch_sites
    (<[exitPtrs source :=
         match dest with
         | Some d => ToEntry (checkedEntry d)
         | None => ToDispatcher
         end]>) st.

(** ** Operations of JitBaseBlockCache *)

Definition FastLookupIndexForAddress `{Platform} (addr : Z) : Z :=
  Z.land (Z.shiftr addr 2) FAST_BLOCK_MAP_MASK.

(** [fast_block_map[i]]: [std::array] has no slot outside
    [0 .. FAST_BLOCK_MAP_MASK]; an empty slot holds [nullptr]. *)
Definition fast_slot `{Platform} (i : Z) (st : Cache) : option (option Z) :=
  if decide (0 ≤ i ≤ FAST_BLOCK_MAP_MASK) then Some (fast_block_map st !! i) else None.

(** [if (fast_block_map[i] == p) fast_block_map[i] = nullptr;] *)
Definition drop_fast_slot `{Platform} (i p : Z) (st : Cache) : option Cache :=
  slot ← fast_slot i st;
  if decide (slot = Some p) then Some (set_fast_block_map (delete i) st) else Some st.

(** The address the allocator hands out for the new node is [p]. The block
    is value-initialised ([JitBlock()]), then five fields are assigned. *)
Definition AllocateBlock `{Platform} (MSR : Z) (p : Z) (em_address : Z)
    (st : Cache) : Z * Cache :=
  let physicalAddress := TranslateResult.address (JitCache_TranslateAddress em_address) in
  let b := mkJitBlock 0 0 em_address (Z.land MSR JIT_CACHE_MSR_MASK)
             physicalAddress 0 0 0 [] 0 in
  (p, set_block_map (mm_emplace physicalAddress (p, b)) st).

Definition GetBlockFromStartAddress `{Platform} (addr msr : Z) (st : Cache)
    : option (Z * JitBlock) :=
  let translated := JitCache_TranslateAddress addr in
  if MSR_IR msr && negb (TranslateResult.valid translated) then None
  else
    let translated_addr :=
      if MSR_IR msr then TranslateResult.address translated else addr in
    snd <$> head (filter
      (λ kv, effectiveAddress kv.2.2 = addr ∧
             msrBits kv.2.2 = Z.land msr JIT_CACHE_MSR_MASK)
      (mm_equal_range translated_addr (block_map st))).

(** One turn of the loop of [LinkBlockExits], at exit number [i]. *)
Definition link_exit `{Platform} (p : Z) (i : nat) (st : Cache) : option Cache :=
  block ← deref p st;
  e ← linkData block !! i;
  if linkStatus e then Some st
  else
    match GetBlockFromStartAddress (exitAddress e) (msrBits block) st with
    | Some (_, destinationBlock) =>
        let st' := WriteLinkBlock e (Some destinationBlock) st in
        Some (update_block p
                (λ b, set_linkData (<[i := set_linkStatus true e]> (linkData b)) b) st')
    | None => Some st
    end.

Definition LinkBlockExits `{Platform} (p : Z) (st : Cache) : option Cache :=
  block ← deref p st;
  for_each (link_exit p) (seq 0 (length (linkData block))) st.

Definition LinkBlock `{Platform} (p : Z) (st : Cache) : option Cache :=
  st1 ← LinkBlockExits p st;
  block ← deref p st1;
  for_each
    (λ kv s,
       b2 ← deref kv.2 s;
       if decide (msrBits block = msrBits b2) then LinkBlockExits kv.2 s else Some s)
    (mm_equal_range (effectiveAddress block) (links_to st1)) st1.

(** One turn of the inner loop of [UnlinkBlock], at exit number [i] of the
    source block [q]. *)
Definition unlink_exit (ea : Z) (q : Z) (i : nat) (st : Cache) : option Cache :=
  sourceBlock ← deref q st;
  e ← linkData sourceBlock !! i;
  if decide (exitAddress e = ea) then
    let st' := WriteLinkBlock e None st in
    Some (update_block q
            (λ b, set_linkData (<[i := set_linkStatus false e]> (linkData b)) b) st')
  else Some st.

Definition UnlinkBlock (p : Z) (st : Cache) : option Cache :=
  block ← deref p st;
  for_each
    (λ kv s,
       sourceBlock ← deref kv.2 s;
       if decide (msrBits sourceBlock ≠ msrBits block) then Some s
       else for_each (unlink_exit (effectiveAddress block) kv.2)
              (seq 0 (length (linkData sourceBlock))) s)
    (mm_equal_range (effectiveAddress block) (links_to st)) st.

(** The base class hook does nothing. *)
Definition WriteDestroyBlock (block : JitBlock) (st : Cache) : Cache := st.

(** The erase loop of [DestroyBlock] for one exit: every entry of
    [links_to] under [e.exitAddress] that points at the block goes. *)
Definition erase_link (p : Z) (e : LinkData) (l : list (Z * Z)) : list (Z * Z) :=
  filter (λ kv, ¬ (kv.1 = exitAddress e ∧ kv.2 = p)) l.

Definition DestroyBlock `{Platform} (p : Z) (st : Cache) : option Cache :=
  block ← deref p st;
  st1 ← drop_fast_slot (fast_block_map_index block) p st;
  st2 ← UnlinkBlock p st1;
  block ← deref p st2;
  let st3 := foldl (λ s e, set_links_to (erase_link p e) s) st2 (linkData block) in
  Some (WriteDestroyBlock block st3).

(** [for (u32 addr = first; addr <= last; addr += BLOCK_RANGE_MAP_ELEMENTS)]:
    the addresses the body runs at. [n] bounds the number of turns. *)
Fixpoint bucket_addrs `{Platform} (n : nat) (addr last : Z) : option (list Z) :=
  if last <? addr then Some []
  else
    match n with
    | O => None
    | S n' =>
        (addr ::.) <$> bucket_addrs n' (u32 (addr + BLOCK_RANGE_MAP_ELEMENTS)) last
    end.

Definition block_end (b : JitBlock) : Z :=
  u32 (physicalAddress b + u32 ((originalSize b - 1) * 4)).

Definition range_mask `{Platform} : Z := not32 (u32 (BLOCK_RANGE_MAP_ELEMENTS - 1)).

(** The buckets of a block. The bound is the number of turns the loop
    takes when [addr] does not wrap around; when it does, the loop runs for
    ever and there is no result. *)
Definition block_buckets `{Platform} (b : JitBlock) : option (list Z) :=
  let first := Z.land (physicalAddress b) range_mask in
  let last := Z.land (block_end b) range_mask in
  bucket_addrs (Z.to_nat ((last - first) / BLOCK_RANGE_MAP_ELEMENTS + 1)) first last.

(** [block_range_map[addr]]: a missing bucket is created empty. *)
Definition bucket_at (addr : Z) (m : gmap Z (gset Z)) : gset Z :=
  default ∅ (m !! addr).

Definition FinalizeBlock `{Platform} (p : Z) (block_link : bool) (st : Cache)
    : option Cache :=
  block ← deref p st;
  let index := FastLookupIndexForAddress (effectiveAddress block) in
  let st1 := set_fast_block_map (<[index := p]>) st in
  let st2 := update_block p (set_fast_block_map_index index) st1 in
  let block_start := physicalAddress block in
  let st3 :=
    foldl (λ s addr, set_valid_block (ValidBlockBitSet_Set addr) s) st2
      (seqZ (block_start / 32) (block_end block / 32 + 1 - block_start / 32)) in
  addrs ← block_buckets block;
  let st4 :=
    foldl (λ s addr,
             set_block_range_map (λ m, <[addr := {[p]} ∪ bucket_at addr m]> m) s)
      st3 addrs in
  if block_link then
    let st5 :=
      foldl (λ s e, set_links_to (mm_emplace (exitAddress e) p) s) st4
        (linkData block) in
    LinkBlock p st5
  else Some st4.

Definition MoveBlockIntoFastCache `{Platform} `{Recompiler} (addr msr : Z)
    (st : Cache) : option Cache :=
  match GetBlockFromStartAddress addr msr st with
  | None => Jit addr st
  | Some (p, block) =>
      st1 ← drop_fast_slot (fast_block_map_index block) p st;
      let index := FastLookupIndexForAddress addr in
      let st2 := set_fast_block_map (<[index := p]>) st1 in
      let st3 := update_block p (set_fast_block_map_index index) st2 in
      LinkBlock p st3
  end.

(** The test of the loop of [Dispatch]: the block in the slot of [PC] when
    it is the block of [PC] and [MSR]. *)
Definition fast_lookup `{Platform} (PC MSR : Z) (st : Cache)
    : option (option JitBlock) :=
  match fast_block_map st !! FastLookupIndexForAddress PC with
  | None => Some None
  | Some p =>
      block ← deref p st;
      if decide (effectiveAddress block ≠ PC ∨
                 msrBits block ≠ Z.land MSR JIT_CACHE_MSR_MASK)
      then Some None else Some (Some block)
  end.

(** [Dispatch] with at most [n] turns of its loop. The result is
    [normalEntry], the number of calls of [MoveBlockIntoFastCache], and the
    cache. *)
Fixpoint Dispatch `{Platform} `{Recompiler} (n : nat) (PC MSR : Z) (calls : nat)
    (st : Cache) : option (Z * nat * Cache) :=
  found ← fast_lookup PC MSR st;
  match found with
  | Some block => Some (normalEntry block, calls, st)
  | None =>
      match n with
      | O => None
      | S n' =>
          st' ← MoveBlockIntoFastCache PC (Z.land MSR JIT_CACHE_MSR_MASK) st;
          Dispatch n' PC MSR (S calls) st'
      end
  end.

(** The body of the set loop of [InvalidateICache] at one block of the
    bucket [cur]. *)
Definition invalidate_block `{Platform} (cur pAddr length : Z) (p : Z)
    (st : Cache) : option Cache :=
  block ← deref p st;
  if Overlap block pAddr length then
    addrs ← block_buckets block;
    let st1 :=
      foldl (λ s addr,
               if decide (addr ≠ cur)
               then set_block_range_map
                      (λ m, <[addr := bucket_at addr m ∖ {[p]}]> m) s
               else s)
        st addrs in
    st2 ← DestroyBlock p st1;
    block ← deref p st2;
    let st3 := set_block_map (mm_erase_key (physicalAddress block)) st2 in
    Some (set_block_range_map (λ m, <[cur := bucket_at cur m ∖ {[p]}]> m) st3)
  else Some st.

(** The loop over the buckets from [start] to [end_], at most [n] turns
    ([None] when [n] turns are not enough). *)
Fixpoint invalidate_walk `{Platform} (n : nat) (start end_ : option Z)
    (pAddr length : Z) (st : Cache) : option Cache :=
  if decide (start = end_) then Some st
  else
    match n with
    | O => None
    | S n' =>
        cur ← start;
        bucket ← block_range_map st !! cur;
        st1 ← for_each (invalidate_block cur pAddr length) (set_order bucket) st;
        if decide (bucket_at cur (block_range_map st1) = ∅) then
          let st2 := set_block_range_map (delete cur) st1 in
          invalidate_walk n' (next_key cur (block_range_map st2)) end_ pAddr length st2
        else
          invalidate_walk n' (next_key cur (block_range_map st1)) end_ pAddr length st1
    end.

(** [for (u32 i = address; i < address + length; i += 4)]: the values of
    [i] the body runs at, with at most [n] turns. *)
Fixpoint hint_addrs (n : nat) (i bound : Z) : option (list Z) :=
  if bound <=? i then Some []
  else
    match n with
    | O => None
    | S n' => (i ::.) <$> hint_addrs n' (u32 (i + 4)) bound
    end.

Definition erase_hints (address length : Z) (st : Cache) : option Cache :=
  let bound := u32 (address + length) in
  addrs ← hint_addrs (Z.to_nat ((bound - address + 3) / 4)) address bound;
  Some (foldl (λ s i, set_hints (λ h, h ∖ {[i]}) s) st addrs).

(** The part of [InvalidateICache] under [if (destroy_block)]. *)
Definition destroy_blocks `{Platform} (n : nat) (address pAddr length : Z)
    (forced : bool) (st : Cache) : option Cache :=
  let m := block_range_map st in
  st1 ← invalidate_walk n (lower_bound (Z.land pAddr range_mask) m)
           (lower_bound (u32 (pAddr + length)) m) pAddr length st;
  if forced then Some st1 else erase_hints address length st1.

Definition InvalidateICache `{Platform} (n : nat) (address length : Z)
    (forced : bool) (st : Cache) : option Cache :=
  let translated := JitCache_TranslateAddress address in
  if negb (TranslateResult.valid translated) then Some st
  else
    let pAddr := TranslateResult.address translated in
    if decide (length = 32) then
      if ValidBlockBitSet_Test (pAddr / 32) (valid_block st) then
        destroy_blocks n address pAddr length forced
          (set_valid_block (ValidBlockBitSet_Clear (pAddr / 32)) st)
      else Some st
    else destroy_blocks n address pAddr length forced st.

Definition Clear `{Platform} (st : Cache) : option Cache :=
  let st1 := set_hints (λ _, ∅) st in
  st2 ← for_each (λ kv s, DestroyBlock kv.2.1 s) (block_map st1) st1;
  let st3 := set_block_map (λ _, []) st2 in
  let st4 := set_links_to (λ _, []) st3 in
  let st5 := set_block_range_map (λ _, ∅) st4 in
  let st6 := set_valid_block (λ _, ∅) st5 in
  Some (set_fast_block_map (λ _, ∅) st6).

(** ** A concrete platform

    The constants of the end-to-end scenarios of the design text
    ([MSR_MASK = 0x30], [BUCKET = 0x100], a fast map of 4 slots), the [IR]
    bit of the MSR, and a translator that maps the mirrors of physical
    memory onto it and fails from [0xE0000000] upwards. *)
Module Scenario.

Definition translate (a : Z) : TranslateResult.t :=
  if a <? 0xE0000000 then TranslateResult.mk true (Z.land a 0x3FFFFFFF)
  else TranslateResult.mk false 0.

Definition platform : Platform := {|
  JIT_CACHE_MSR_MASK := 0x30;
  BLOCK_RANGE_MAP_ELEMENTS := 0x100;
  FAST_BLOCK_MAP_MASK := 3;
  MSR_IR := λ msr, Z.testbit msr 5;
  JitCache_TranslateAddress := translate
|}.

#[local] Existing Instance platform.

Definition empty : Cache := empty_cache.

(** The recompiler fills in the block it was handed by [AllocateBlock]. *)
Definition populate (p : Z) (size checked normal : Z) (exits : list LinkData)
    (st : Cache) : Cache :=
  update_block p
    (λ b, mkJitBlock checked normal (effectiveAddress b) (msrBits b)
            (physicalAddress b) 16 size 0 exits (fast_block_map_index b)) st.

(** Allocate at node address [p] and fill in. *)
Definition allocated (MSR p em size : Z) (exits : list LinkData) (st : Cache)
    : Cache :=
  let st1 := (AllocateBlock MSR p em st).2 in
  populate p size (0x7000 + 0x100 * p) (0x7010 + 0x100 * p) exits st1.

(** Allocate, fill in, finalize. *)
Definition compile (MSR p em size : Z) (exits : list LinkData) (link : bool)
    (st : Cache) : option Cache :=
  FinalizeBlock p link (allocated MSR p em size exits st).

(** A recompiler that compiles one instruction per block, at the first
    node address above those in use. *)
Definition next_node (st : Cache) : Z :=
  1 + foldr Z.max 0 ((λ kv, kv.2.1) <$> block_map st).

Definition recompiler (MSR : Z) : Recompiler :=
  {| Jit := λ addr st, compile MSR (next_node st) addr 1 [] true st |}.

(** Scenario 1: one block of four instructions at [0x80001000]. *)
Definition one_block : option Cache :=
  compile 0x30 1 0x80001000 4 [] false empty.

(** Two blocks at the physical address [0x1000]: [1] of one instruction,
    entered at [0x80001000], and [2] of sixteen, entered at [0xC0001000]. *)
Definition two_at_0x1000 : option Cache :=
  st ← compile 0x30 1 0x80001000 1 [] true empty;
  compile 0x30 2 0xC0001000 16 [] true st.

(** Scenario 5, before [B] is there: block [A] at [0x1000] with one exit
    to [0x2000], its jump at host address [0x7104]. *)
Definition exit_to_0x2000 : LinkData := mkLinkData 0x7104 0x2000 false false.

Definition only_A (link : bool) : option Cache :=
  compile 0x30 1 0x1000 1 [exit_to_0x2000] link empty.

(** Scenario 5: then block [B] at [0x2000]. *)
Definition A_then_B : option Cache :=
  st ← only_A true;
  compile 0x30 2 0x2000 1 [] true st.

Definition linked_pair : Cache := default empty A_then_B.

(** Scenario 5 when [B] is compiled and not yet finalized. *)
Definition B_allocated : Cache :=
  allocated 0x30 2 0x2000 1 [] (default empty (only_A true)).

Definition one_block_cache : Cache := default empty one_block.

Definition shared_key : Cache := default empty two_at_0x1000.


End Scenario.

(** ** Predicates on cache states *)

(** A block with every exit marked as not linked. Linking and unlinking
    change nothing else in a block. *)
Definition unlinked (b : JitBlock) : JitBlock :=
  set_linkData (set_linkStatus false <$> linkData b) b.

(** The cache without its linking state: link flags and patched jumps. *)
Definition skeleton (st : Cache) : Cache :=
  set_patch_sites (λ _, ∅)
    (set_block_map (map (λ kv, (kv.1, (kv.2.1, unlinked kv.2.2)))) st).

Arguments unlinked : simpl never.
Arguments skeleton : simpl never.

(** Every pointer of the link graph points at a node of the registry. *)
Definition links_live (st : Cache) : Prop :=
  ∀ k q, (k, q) ∈ links_to st → is_Some (deref q st).

(** Every pointer of the fast map points at a node of the registry. *)
Definition fast_live (st : Cache) : Prop :=
  ∀ i q, fast_block_map st !! i = Some q → is_Some (deref q st).

(** Every block records a slot number that the fast map has. *)
Definition slots_in_range `{Platform} (st : Cache) : Prop :=
  ∀ p b, deref p st = Some b → 0 ≤ fast_block_map_index b ≤ FAST_BLOCK_MAP_MASK.

(** Distinct nodes of the registry have distinct addresses. *)
Definition nodes_distinct (st : Cache) : Prop :=
  NoDup ((λ kv, kv.2.1) <$> block_map st).

(** Invariant 3 of the design text: the link graph has a pair for every
    exit of every registered block. *)
Definition link_graph_complete (st : Cache) : Prop :=
  ∀ kv e, kv ∈ block_map st → e ∈ linkData kv.2.2 →
    (exitAddress e, kv.2.1) ∈ links_to st.


(** The bucket loop of a block ends: its last bucket is not the last
    bucket of the address space. *)
Definition buckets_end `{Platform} (b : JitBlock) : Prop :=
  0 < BLOCK_RANGE_MAP_ELEMENTS ∧
  Z.land (block_end b) range_mask + BLOCK_RANGE_MAP_ELEMENTS < 2 ^ 32.

(** A block without its linking state and its fast-map slot number: what
    the recompiler put in it. *)
Definition shape (b : JitBlock) : JitBlock :=
  set_fast_block_map_index 0 (unlinked b).

Definition registry_shape (st : Cache) : list (Z * (Z * JitBlock)) :=
  (λ kv, (kv.1, (kv.2.1, shape kv.2.2))) <$> block_map st.

Arguments shape : simpl never.

(** The block [b] at node [p] is the one block that the registry holds for
    its effective address and MSR bits: it is registered under the
    translation of its effective address (under the address itself when
    its MSR bits have [IR] clear), its MSR bits are masked, and no other
    node has a block of the same effective address and MSR bits. *)
Definition sole_block_for `{Platform} (p : Z) (b : JitBlock) (st : Cache) : Prop :=
  let t := effectiveAddress b in
  let translated := JitCache_TranslateAddress t in
  (MSR_IR (msrBits b) = true → TranslateResult.valid translated = true) ∧
  ((if MSR_IR (msrBits b) then TranslateResult.address translated else t),
   (p, b)) ∈ block_map st ∧
  Z.land (msrBits b) JIT_CACHE_MSR_MASK = msrBits b ∧
  ∀ kv, kv ∈ block_map st →
    effectiveAddress kv.2.2 = t → msrBits kv.2.2 = msrBits b → kv.2.1 = p.

(** No other exit of any registered block shares the patch site of exit
    number [i] of the block at [p]. *)
Definition own_patch_site (p : Z) (i : nat) (e : LinkData) (st : Cache) : Prop :=
  ∀ q bq j e',
    deref q st = Some bq → linkData bq !! j = Some e' →
    exitPtrs e' = exitPtrs e → q = p ∧ j = i.

(** Exit number [i] of the block at [p] is [e], not linked yet. *)
Definition exit_pending (p : Z) (i : nat) (e : LinkData) (st : Cache) : Prop :=
  ∃ b, deref p st = Some b ∧ linkData b !! i = Some e.

(** Exit number [i] of the block at [p] is [e], now linked, and the jump
    at its patch site goes to [entry]. *)
Definition exit_linked (p : Z) (i : nat) (e : LinkData) (entry : Z)
    (st : Cache) : Prop :=
  ∃ b, deref p st = Some b ∧
       linkData b !! i = Some (set_linkStatus true e) ∧
       patch_sites st !! exitPtrs e = Some (ToEntry entry).

(** What unlinking the block at effective address [ea] may have done
    between [st] and [s]: an exit keeps its link flag, or it targets [ea]
    and is now not linked; the jump at a patch site is as it was, or it
    goes to the dispatcher. *)
Definition reverted (ea : Z) (st s : Cache) : Prop :=
  (∀ q bq j e,
     deref q st = Some bq → linkData bq !! j = Some e →
     ∃ bq', deref q s = Some bq' ∧
       (linkData bq' !! j = Some e ∨
        (exitAddress e = ea ∧
         linkData bq' !! j = Some (set_linkStatus false e)))) ∧
  (∀ site,
     patch_sites s !! site = patch_sites st !! site ∨
     patch_sites s !! site = Some ToDispatcher).


(** Exit number [j] of the block at [q], if it targets [ea], is not
    linked and its jump goes to the dispatcher. *)
Definition exit_off (ea q : Z) (j : nat) (s : Cache) : Prop :=
  ∀ bq e,
    deref q s = Some bq → linkData bq !! j = Some e → exitAddress e = ea →
    linkStatus e = false ∧ patch_sites s !! exitPtrs e = Some ToDispatcher.

(** The exits that [UnlinkBlock(b)] reverts in the cache [st]: exit [e] of
    the block [bq] at [q], when the link graph holds [q] under [b]'s
    effective address, [bq] has [b]'s MSR bits and [e] targets that
    address. *)
Definition unlink_target (b : JitBlock) (st : Cache) (q : Z) (bq : JitBlock)
    (e : LinkData) : Prop :=
  (effectiveAddress b, q) ∈ links_to st ∧
  msrBits bq = msrBits b ∧
  exitAddress e = effectiveAddress b.

(** What unlinking [b] may have done between [st] and [s], at most: an
    exit keeps its link flag, or it is one that [UnlinkBlock(b)] reverts
    and is now not linked; the jump at a patch site is as it was, or the
    site is that of such an exit and the jump goes to the dispatcher. *)
Definition reverted_to (b : JitBlock) (st s : Cache) : Prop :=
  (∀ q bq j e,
     deref q st = Some bq → linkData bq !! j = Some e →
     ∃ bq', deref q s = Some bq' ∧
       (linkData bq' !! j = Some e ∨
        (unlink_target b st q bq e ∧
         linkData bq' !! j = Some (set_linkStatus false e)))) ∧
  (∀ site,
     patch_sites s !! site = patch_sites st !! site ∨
     (patch_sites s !! site = Some ToDispatcher ∧
      ∃ q bq j e,
        deref q st = Some bq ∧ linkData bq !! j = Some e ∧
        unlink_target b st q bq e ∧ exitPtrs e = site)).

(** The caches that [AllocateBlock] and [FinalizeBlock] build from the
    empty cache, the recompiler filling in each block in between; it does
    not touch [fast_block_map_index]. *)
Inductive built `{Platform} : Cache → Prop :=
  | built_empty : built empty_cache
  | built_allocate MSR p em st :
      built st → deref p st = None → built (AllocateBlock MSR p em st).2
  | built_populate p f st :
      built st →
      (∀ b, fast_block_map_index (f b) = fast_block_map_index b) →
      built (update_block p f st)
  | built_finalize p link st st' :
      built st → FinalizeBlock p link st = Some st' → built st'.

(** What [Jit(PC)] is expected to leave behind: a block of [PC] and the
    masked [MSR] in the slot of [PC]. *)
Definition Jit_publishes `{Platform} `{Recompiler} (PC MSR : Z) (st : Cache) : Prop :=
  ∃ st' p b,
    Jit PC st = Some st' ∧
    fast_block_map st' !! FastLookupIndexForAddress PC = Some p ∧
    deref p st' = Some b ∧
    effectiveAddress b = PC ∧
    msrBits b = Z.land MSR JIT_CACHE_MSR_MASK.

(** Invariant 4 of the design text, as the code keeps it: a slot of the
    fast map that points at a registered block is the slot the block
    records, and the slot of its effective address. *)
Definition fast_map_consistent `{Platform} (st : Cache) : Prop :=
  ∀ i q b,
    fast_block_map st !! i = Some q → deref q st = Some b →
    fast_block_map_index b = i ∧
    FastLookupIndexForAddress (effectiveAddress b) = i.


(** The registry as pairs of a key and a node address. *)
Definition key_nodes (st : Cache) : list (Z * Z) :=
  (λ kv, (kv.1, kv.2.1)) <$> block_map st.

(** A block of at least one instruction whose last instruction is inside
    the address space. *)
Definition block_fits (b : JitBlock) : Prop :=
  0 ≤ physicalAddress b ∧ 0 < originalSize b ∧
  physicalAddress b + 4 * (originalSize b - 1) < 2 ^ 32.

(** The caches on which [InvalidateICache] is followed here: no two blocks
    share a physical address, every block is registered under its
    physical address and fits, the slot numbers are slots of a consistent
    fast map without dangling pointers, the link graph holds a block
    under the targets of its exits only, and the range index holds every
    block in exactly its buckets. *)
Record well_indexed `{Platform} (st : Cache) : Prop := {
  indexed_keys : NoDup ((λ kv, kv.1) <$> block_map st);
  indexed_key : ∀ k p, (k, p) ∈ key_nodes st →
    ∃ b, deref p st = Some b ∧ physicalAddress b = k;
  indexed_fits : ∀ p b, deref p st = Some b → block_fits b ∧ buckets_end b;
  indexed_slots : slots_in_range st;
  indexed_fast : fast_map_consistent st;
  indexed_live : fast_live st;
  indexed_links : ∀ k q, (k, q) ∈ links_to st →
    ∃ b, deref q st = Some b ∧ k ∈ exitAddress <$> linkData b;
  indexed_buckets : ∀ k q, q ∈ bucket_at k (block_range_map st) ↔
    ∃ b l, deref q st = Some b ∧ block_buckets b = Some l ∧ k ∈ l
}.

(** The cache [st'] is [st] without the blocks at the nodes [D]: they are
    gone from the registry and from every bucket, nothing points at them,
    and the other blocks are what they were up to their link flags and
    keep their pairs in the link graph. The valid bitmap and the hint
    sets are the same. *)
Record pruned (D : gset Z) (st st' : Cache) : Prop := {
  pruned_deref : ∀ q,
    unlinked <$> deref q st' =
    if decide (q ∈ D) then None else unlinked <$> deref q st;
  pruned_keys :
    ((λ kv, kv.1) <$> block_map st') `sublist_of` ((λ kv, kv.1) <$> block_map st);
  pruned_nodes : ∀ k q, (k, q) ∈ key_nodes st' → (k, q) ∈ key_nodes st ∧ q ∉ D;
  pruned_links : ∀ k q, (k, q) ∈ links_to st' → (k, q) ∈ links_to st ∧ q ∉ D;
  pruned_fast : ∀ i q,
    fast_block_map st' !! i = Some q → fast_block_map st !! i = Some q ∧ q ∉ D;
  pruned_buckets : ∀ k,
    bucket_at k (block_range_map st') = bucket_at k (block_range_map st) ∖ D;
  pruned_valid : valid_block st' = valid_block st;
  pruned_fifo : fifoWriteAddresses st' = fifoWriteAddresses st;
  pruned_paired : pairedQuantizeAddresses st' = pairedQuantizeAddresses st;
  pruned_kept : ∀ k q, (k, q) ∈ links_to st → q ∉ D → (k, q) ∈ links_to st'
}.

(** The walk of [InvalidateICache] has dealt with the buckets from [lo]
    up to [c]: none of them holds a block that overlaps the range. *)
Definition swept (lo c pAddr length : Z) (st : Cache) : Prop :=
  ∀ q b k,
    deref q st = Some b → Overlap b pAddr length = true →
    q ∈ bucket_at k (block_range_map st) → lo ≤ k → c ≤ k.

(** * Properties *)

(** ** Loops *)

Lemma for_each_inv {A S} (I : S → Prop) (f : A → S → option S) l s s' :
  (∀ a x x', a ∈ l → I x → f a x = Some x' → I x') →
  I s → for_each f l s = Some s' → I s'.
Proof.
  revert s. induction l as [|a l IH]; intros s Hstep Hs Hrun; simpl in Hrun.
  - by simplify_eq.
  - destruct (f a s) as [x|] eqn:Hf; simplify_eq/=.
    apply (IH x); [| |done].
    + intros a' y y' Ha'. apply Hstep. by right.
    + apply (Hstep a s x); [left|done|done].
Qed.

Lemma for_each_total {A S} (I : S → Prop) (f : A → S → option S) l s :
  (∀ a x, a ∈ l → I x → ∃ x', f a x = Some x' ∧ I x') →
  I s → ∃ s', for_each f l s = Some s' ∧ I s'.
Proof.
  revert s. induction l as [|a l IH]; intros s Hstep Hs; simpl.
  - eauto.
  - destruct (Hstep a s) as (x & -> & Hx); [left|done|]. simpl.
    apply IH; [|done]. intros a' y Ha'. apply Hstep. by right.
Qed.

Lemma for_each_app {A S} (f : A → S → option S) l1 l2 s :
  for_each f (l1 ++ l2) s = s' ← for_each f l1 s; for_each f l2 s'.
Proof.
  revert s. induction l1 as [|a l1 IH]; intros s; simpl; [done|].
  destruct (f a s); simpl; [apply IH|done].
Qed.

(** ** Nodes of the registry *)

Lemma mm_deref_store p q f m :
  mm_deref q (mm_store p f m) =
  if decide (q = p) then f <$> mm_deref p m else mm_deref q m.
Proof.
  induction m as [|[k [a b]] m IH]; simpl.
  - by case_decide.
  - repeat (case_decide; simplify_eq/=); done.
Qed.

Lemma mm_deref_elem p b m :
  mm_deref p m = Some b → ∃ k, (k, (p, b)) ∈ m.
Proof.
  induction m as [|[k [q c]] m IH]; simpl; [done|].
  case_decide; intros Hb; simplify_eq/=.
  - exists k. left.
  - destruct (IH Hb) as [k' Hk']. exists k'. by right.
Qed.

Lemma mm_deref_is_Some kv m : kv ∈ m → is_Some (mm_deref kv.2.1 m).
Proof.
  induction m as [|kv' m IH]; [by intros ?%elem_of_nil|].
  intros [->|Hin]%elem_of_cons; simpl.
  - rewrite decide_True by done. eauto.
  - case_decide; eauto.
Qed.

Lemma mm_deref_NoDup kv m :
  NoDup ((λ kv, kv.2.1) <$> m) → kv ∈ m → mm_deref kv.2.1 m = Some kv.2.2.
Proof.
  induction m as [|kv' m IH]; [by intros _ ?%elem_of_nil|].
  rewrite fmap_cons, NoDup_cons. intros [Hnot Hnd] [->|Hin]%elem_of_cons; simpl.
  - by rewrite decide_True.
  - rewrite decide_False; [by apply IH|].
    intros Heq. apply Hnot. rewrite Heq. apply list_elem_of_fmap. eauto.
Qed.

Lemma mm_store_nodes p f m :
  (λ kv, (kv.1, kv.2.1)) <$> mm_store p f m = (λ kv, (kv.1, kv.2.1)) <$> m.
Proof.
  induction m as [|kv m IH]; simpl; [done|].
  case_decide; simpl; [done|]. f_equal. exact IH.
Qed.

Lemma deref_update_block p q f st :
  deref q (update_block p f st) =
  if decide (q = p) then f <$> deref p st else deref q st.
Proof. apply mm_deref_store. Qed.

(** ** The skeleton of a cache *)

Lemma unlinked_set_linkStatus b i e s :
  linkData b !! i = Some e →
  unlinked (set_linkData (<[i := set_linkStatus s e]> (linkData b)) b) = unlinked b.
Proof.
  intros Hi. unfold unlinked, set_linkData; simpl. f_equal.
  rewrite list_fmap_insert. apply list_insert_id.
  rewrite list_lookup_fmap, Hi. done.
Qed.

Lemma unlinked_set_fast_block_map_index b i :
  unlinked (set_fast_block_map_index i b) = set_fast_block_map_index i (unlinked b).
Proof. done. Qed.

Lemma mm_deref_skeleton p m :
  mm_deref p (map (λ kv, (kv.1, (kv.2.1, unlinked kv.2.2))) m) =
  unlinked <$> mm_deref p m.
Proof.
  induction m as [|kv m IH]; simpl; [done|].
  case_decide; [done|apply IH].
Qed.

Lemma deref_skeleton p st : deref p (skeleton st) = unlinked <$> deref p st.
Proof. apply mm_deref_skeleton. Qed.

Lemma skeleton_deref st st' p :
  skeleton st = skeleton st' → unlinked <$> deref p st = unlinked <$> deref p st'.
Proof. intros Hsk. by rewrite <- !deref_skeleton, Hsk. Qed.

Lemma skeleton_update_block p f st :
  (∀ b, deref p st = Some b → unlinked (f b) = unlinked b) →
  skeleton (update_block p f st) = skeleton st.
Proof.
  intros Hf. destruct st as [m l r v fm h1 h2 ps].
  unfold skeleton, update_block, set_patch_sites, set_block_map, deref in *.
  simpl in *. f_equal.
  induction m as [|kv m IH]; simpl; [done|].
  case_decide as Hp; simpl.
  - f_equal. rewrite Hf; [done|]. simpl. by rewrite decide_True.
  - f_equal. apply IH. intros b Hb. apply Hf. simpl. by rewrite decide_False.
Qed.

Lemma skeleton_WriteLinkBlock e d st :
  skeleton (WriteLinkBlock e d st) = skeleton st.
Proof. done. Qed.

(** ** Linking and unlinking keep the skeleton *)

Lemma skeleton_fields st st' :
  skeleton st = skeleton st' →
  links_to st = links_to st' ∧
  block_range_map st = block_range_map st' ∧
  valid_block st = valid_block st' ∧
  fast_block_map st = fast_block_map st' ∧
  fifoWriteAddresses st = fifoWriteAddresses st' ∧
  pairedQuantizeAddresses st = pairedQuantizeAddresses st'.
Proof.
  intros Hsk.
  repeat split;
    [ change (links_to (skeleton st) = links_to (skeleton st'))
    | change (block_range_map (skeleton st) = block_range_map (skeleton st'))
    | change (valid_block (skeleton st) = valid_block (skeleton st'))
    | change (fast_block_map (skeleton st) = fast_block_map (skeleton st'))
    | change (fifoWriteAddresses (skeleton st) = fifoWriteAddresses (skeleton st'))
    | change (pairedQuantizeAddresses (skeleton st) = pairedQuantizeAddresses (skeleton st')) ];
    by rewrite Hsk.
Qed.

Lemma skeleton_nodes st st' :
  skeleton st = skeleton st' →
  (λ kv, (kv.1, kv.2.1)) <$> block_map st = (λ kv, (kv.1, kv.2.1)) <$> block_map st'.
Proof.
  intros Hsk.
  assert (∀ s, (λ kv, (kv.1, kv.2.1)) <$> block_map s =
               (λ kv, (kv.1, kv.2.1)) <$> block_map (skeleton s)) as Hs.
  { intros s. simpl. rewrite <- list_fmap_compose. done. }
  by rewrite (Hs st), (Hs st'), Hsk.
Qed.

Lemma skeleton_live st st' q :
  skeleton st = skeleton st' → is_Some (deref q st) → is_Some (deref q st').
Proof.
  intros Hsk [b Hb]. pose proof (skeleton_deref _ _ q Hsk) as Hq.
  rewrite Hb in Hq. destruct (deref q st'); [eauto|done].
Qed.

Lemma skeleton_deref_Some st st' q b :
  skeleton st = skeleton st' → deref q st = Some b →
  ∃ b', deref q st' = Some b' ∧ unlinked b' = unlinked b.
Proof.
  intros Hsk Hb. pose proof (skeleton_deref _ _ q Hsk) as Hq.
  rewrite Hb in Hq. destruct (deref q st') as [b'|]; [|done].
  change (Some (unlinked b) = Some (unlinked b')) in Hq.
  exists b'. split; [done|]. congruence.
Qed.

Lemma unlinked_fields b b' :
  unlinked b = unlinked b' →
  checkedEntry b = checkedEntry b' ∧ normalEntry b = normalEntry b' ∧
  effectiveAddress b = effectiveAddress b' ∧ msrBits b = msrBits b' ∧
  physicalAddress b = physicalAddress b' ∧ originalSize b = originalSize b' ∧
  fast_block_map_index b = fast_block_map_index b' ∧
  length (linkData b) = length (linkData b') ∧
  exitAddress <$> linkData b = exitAddress <$> linkData b' ∧
  exitPtrs <$> linkData b = exitPtrs <$> linkData b'.
Proof.
  destruct b, b'. unfold unlinked, set_linkData; simpl. intros Heq.
  injection Heq as -> -> -> -> -> -> -> -> Hl ->.
  repeat split; try done.
  - apply (f_equal length) in Hl. by rewrite !length_fmap in Hl.
  - apply (f_equal (fmap exitAddress)) in Hl.
    by rewrite <- !list_fmap_compose in Hl.
  - apply (f_equal (fmap exitPtrs)) in Hl.
    by rewrite <- !list_fmap_compose in Hl.
Qed.

(** Case analysis on the first step of a computation that succeeded. *)
Tactic Notation "bind_inv" hyp(H) "as" ident(x) ident(Hx) :=
  match type of H with
  | mbind _ ?m = Some _ =>
      destruct m as [x|] eqn:Hx;
      [cbn [mbind option_bind] in H | discriminate H]
  end.

Section Linking.
Context `{Platform}.

Lemma link_exit_skeleton p i st st' :
  link_exit p i st = Some st' → skeleton st' = skeleton st.
Proof.
  unfold link_exit. intros Hrun.
  bind_inv Hrun as block Hp. bind_inv Hrun as e Hi.
  destruct (linkStatus e); [by injection Hrun as <-|].
  destruct (GetBlockFromStartAddress _ _ _) as [[q d]|];
    injection Hrun as <-; [|done].
  rewrite skeleton_update_block; [done|].
  intros b Hb. change (deref p st = Some b) in Hb.
  assert (b = block) as -> by congruence.
  by apply unlinked_set_linkStatus.
Qed.

Lemma link_exit_total p i st b :
  deref p st = Some b → (i < length (linkData b))%nat →
  is_Some (link_exit p i st).
Proof.
  intros Hp Hi. unfold link_exit. rewrite Hp; simpl.
  destruct (lookup_lt_is_Some_2 _ _ Hi) as [e ->]; simpl.
  destruct (linkStatus e); [eauto|].
  destruct (GetBlockFromStartAddress _ _ _) as [[q d]|]; eauto.
Qed.

Lemma LinkBlockExits_skeleton p st st' :
  LinkBlockExits p st = Some st' → skeleton st' = skeleton st.
Proof.
  unfold LinkBlockExits. intros Hrun. bind_inv Hrun as block Hp.
  revert Hrun. apply (for_each_inv (λ s, skeleton s = skeleton st)); [|done].
  intros i x x' _ Hx Hstep. by rewrite (link_exit_skeleton _ _ _ _ Hstep).
Qed.

Lemma LinkBlockExits_total p st :
  is_Some (deref p st) → is_Some (LinkBlockExits p st).
Proof.
  intros [block Hp]. unfold LinkBlockExits. rewrite Hp; simpl.
  destruct (for_each_total (λ s, skeleton s = skeleton st) (link_exit p)
              (seq 0 (length (linkData block))) st) as (st' & -> & _); [|done|eauto].
  intros i x Hi Hx.
  destruct (skeleton_deref_Some _ _ p block (eq_sym Hx) Hp) as (b' & Hb' & Hun).
  destruct (link_exit_total p i x b' Hb') as [x' Hx'].
  { apply unlinked_fields in Hun as (_&_&_&_&_&_&_&->&_).
    apply elem_of_seq in Hi. lia. }
  exists x'. split; [done|]. by rewrite (link_exit_skeleton _ _ _ _ Hx').
Qed.

Lemma LinkBlock_skeleton p st st' :
  LinkBlock p st = Some st' → skeleton st' = skeleton st.
Proof.
  unfold LinkBlock. intros Hrun. bind_inv Hrun as st1 H1.
  apply LinkBlockExits_skeleton in H1. bind_inv Hrun as block Hp.
  revert Hrun. apply (for_each_inv (λ s, skeleton s = skeleton st)); [|done].
  intros kv x x' _ Hx Hstep. bind_inv Hstep as b2 Hb2.
  case_decide; [|by injection Hstep as <-].
  by rewrite (LinkBlockExits_skeleton _ _ _ Hstep).
Qed.

Lemma LinkBlock_total p st :
  is_Some (deref p st) → links_live st → is_Some (LinkBlock p st).
Proof.
  intros Hp Hlive. unfold LinkBlock.
  destruct (LinkBlockExits_total p st Hp) as [st1 H1]. rewrite H1; simpl.
  pose proof (LinkBlockExits_skeleton _ _ _ H1) as Hsk1.
  destruct (skeleton_live _ _ p (eq_sym Hsk1) Hp) as [block Hblock].
  rewrite Hblock; simpl.
  match goal with |- is_Some (for_each ?f ?l ?s) =>
    destruct (for_each_total (λ s, skeleton s = skeleton st) f l s)
      as (st' & -> & _); [|done|eauto] end.
  intros kv x Hkv Hx.
  assert (is_Some (deref kv.2 x)) as [b2 Hb2].
  { apply (skeleton_live st); [done|]. apply (Hlive kv.1).
    apply list_elem_of_filter in Hkv as [_ Hkv].
    destruct (skeleton_fields _ _ Hsk1) as (<- & _). by destruct kv. }
  rewrite Hb2; simpl. case_decide; [|eauto].
  destruct (LinkBlockExits_total kv.2 x) as [x' Hx']; [eauto|].
  exists x'. split; [done|]. by rewrite (LinkBlockExits_skeleton _ _ _ Hx').
Qed.
End Linking.

(** ** Unlinking and destroying *)

Lemma unlink_exit_skeleton ea q i st st' :
  unlink_exit ea q i st = Some st' → skeleton st' = skeleton st.
Proof.
  unfold unlink_exit. intros Hrun.
  bind_inv Hrun as sourceBlock Hq. bind_inv Hrun as e Hi.
  case_decide; injection Hrun as <-; [|done].
  rewrite skeleton_update_block; [done|].
  intros b Hb. change (deref q st = Some b) in Hb.
  assert (b = sourceBlock) as -> by congruence.
  by apply unlinked_set_linkStatus.
Qed.

Lemma unlink_exit_total ea q i st b :
  deref q st = Some b → (i < length (linkData b))%nat →
  is_Some (unlink_exit ea q i st).
Proof.
  intros Hq Hi. unfold unlink_exit. rewrite Hq; simpl.
  destruct (lookup_lt_is_Some_2 _ _ Hi) as [e ->]; simpl.
  case_decide; eauto.
Qed.

Lemma unlink_exits_skeleton ea q l st st' :
  for_each (unlink_exit ea q) l st = Some st' → skeleton st' = skeleton st.
Proof.
  apply (for_each_inv (λ s, skeleton s = skeleton st)); [|done].
  intros i x x' _ Hx Hstep. by rewrite (unlink_exit_skeleton _ _ _ _ _ Hstep).
Qed.

Lemma unlink_exits_total ea q st b :
  deref q st = Some b →
  is_Some (for_each (unlink_exit ea q) (seq 0 (length (linkData b))) st).
Proof.
  intros Hq.
  destruct (for_each_total (λ s, skeleton s = skeleton st) (unlink_exit ea q)
              (seq 0 (length (linkData b))) st) as (st' & -> & _); [|done|eauto].
  intros i x Hi Hx.
  destruct (skeleton_deref_Some _ _ q b (eq_sym Hx) Hq) as (b' & Hb' & Hun).
  destruct (unlink_exit_total ea q i x b' Hb') as [x' Hx'].
  { apply unlinked_fields in Hun as (_&_&_&_&_&_&_&->&_).
    apply elem_of_seq in Hi. lia. }
  exists x'. split; [done|]. by rewrite (unlink_exit_skeleton _ _ _ _ _ Hx').
Qed.

Lemma UnlinkBlock_skeleton p st st' :
  UnlinkBlock p st = Some st' → skeleton st' = skeleton st.
Proof.
  unfold UnlinkBlock. intros Hrun. bind_inv Hrun as block Hp.
  revert Hrun. apply (for_each_inv (λ s, skeleton s = skeleton st)); [|done].
  intros kv x x' _ Hx Hstep. bind_inv Hstep as sourceBlock Hq.
  case_decide; [by injection Hstep as <-|].
  by rewrite (unlink_exits_skeleton _ _ _ _ _ Hstep).
Qed.

Lemma UnlinkBlock_total p st :
  is_Some (deref p st) → links_live st → is_Some (UnlinkBlock p st).
Proof.
  intros [block Hp] Hlive. unfold UnlinkBlock. rewrite Hp; simpl.
  match goal with |- is_Some (for_each ?f ?l ?s) =>
    destruct (for_each_total (λ s, skeleton s = skeleton st) f l s)
      as (st' & -> & _); [|done|eauto] end.
  intros kv x Hkv Hx.
  assert (is_Some (deref kv.2 x)) as [b2 Hb2].
  { apply (skeleton_live st); [done|]. apply (Hlive kv.1).
    apply list_elem_of_filter in Hkv as [_ Hkv]. by destruct kv. }
  rewrite Hb2; simpl. case_decide; [eauto|].
  destruct (unlink_exits_total (effectiveAddress block) kv.2 x b2 Hb2) as [x' Hx'].
  exists x'. split; [done|]. by rewrite (unlink_exits_skeleton _ _ _ _ _ Hx').
Qed.

Lemma reverted_refl ea st : reverted ea st st.
Proof. split; [|by left]. intros q bq j e Hq Hj. exists bq. eauto. Qed.

Lemma unlink_exit_reverted ea st q0 i0 s s' :
  reverted ea st s → unlink_exit ea q0 i0 s = Some s' → reverted ea st s'.
Proof.
  intros [Hflags Hsites] Hrun. unfold unlink_exit in Hrun.
  bind_inv Hrun as sourceBlock Hq0. bind_inv Hrun as e0 Hi0.
  case_decide as Hea; injection Hrun as <-; [|by split].
  split.
  - intros q bq j e Hq Hj.
    destruct (Hflags q bq j e Hq Hj) as (bq' & Hq' & Hcase).
    rewrite deref_update_block.
    change (deref q0 (WriteLinkBlock e0 None s)) with (deref q0 s).
    change (deref q (WriteLinkBlock e0 None s)) with (deref q s).
    destruct (decide (q = q0)) as [->|Hne]; [|by eauto].
    rewrite Hq0. eexists. split; [done|]. simpl.
    assert (bq' = sourceBlock) as -> by congruence.
    destruct (decide (i0 = j)) as [->|Hij].
    + rewrite list_lookup_insert_eq by (by apply (lookup_lt_Some _ _ e0)).
      right. destruct Hcase as [Hsame|[Hex Hrev]].
      * assert (e0 = e) as -> by congruence. done.
      * assert (e0 = set_linkStatus false e) as -> by congruence. done.
    + by rewrite list_lookup_insert_ne.
  - intros site. simpl.
    destruct (decide (exitPtrs e0 = site)) as [->|Hne].
    + right. by rewrite lookup_insert_eq.
    + rewrite lookup_insert_ne by done. apply Hsites.
Qed.

Lemma UnlinkBlock_reverted p st st' b :
  deref p st = Some b → UnlinkBlock p st = Some st' →
  reverted (effectiveAddress b) st st'.
Proof.
  intros Hp Hrun. unfold UnlinkBlock in Hrun. rewrite Hp in Hrun.
  cbn [mbind option_bind] in Hrun. revert Hrun.
  apply (for_each_inv (reverted (effectiveAddress b) st)); [|apply reverted_refl].
  intros kv x x' _ Hx Hstep. bind_inv Hstep as sourceBlock Hq.
  case_decide; [by injection Hstep as <-|].
  revert Hstep. apply (for_each_inv (reverted (effectiveAddress b) st)); [|done].
  intros j y y' _. apply unlink_exit_reverted.
Qed.

(** ** What UnlinkBlock reverts *)

Lemma unlink_exit_keeps_off ea q j q0 i0 s s' :
  exit_off ea q j s → unlink_exit ea q0 i0 s = Some s' → exit_off ea q j s'.
Proof.
  intros Hoff Hrun. unfold unlink_exit in Hrun.
  bind_inv Hrun as sourceBlock Hq0. bind_inv Hrun as e0 Hi0.
  destruct (decide (exitAddress e0 = ea)) as [Hea|Hea];
    injection Hrun as <-; [|done].
  intros bq e Hq Hj Hex. rewrite deref_update_block in Hq.
  change (deref q0 (WriteLinkBlock e0 None s)) with (deref q0 s) in Hq.
  change (deref q (WriteLinkBlock e0 None s)) with (deref q s) in Hq.
  simpl.
  assert (∀ e1, linkStatus e1 = false ∧
                patch_sites s !! exitPtrs e1 = Some ToDispatcher →
                linkStatus e1 = false ∧
                <[exitPtrs e0 := ToDispatcher]> (patch_sites s) !! exitPtrs e1 =
                  Some ToDispatcher) as Hsite.
  { intros e1 [? ?]. split; [done|].
    destruct (decide (exitPtrs e0 = exitPtrs e1)) as [->|?].
    - by rewrite lookup_insert_eq.
    - by rewrite lookup_insert_ne. }
  destruct (decide (q = q0)) as [->|Hne]; [|by apply Hsite, (Hoff bq)].
  rewrite Hq0 in Hq. injection Hq as <-. simpl in Hj.
  destruct (decide (i0 = j)) as [->|Hij].
  - rewrite list_lookup_insert_eq in Hj by (by apply (lookup_lt_Some _ _ e0)).
    injection Hj as <-. simpl. split; [done|]. by rewrite lookup_insert_eq.
  - rewrite list_lookup_insert_ne in Hj by done.
    by apply Hsite, (Hoff sourceBlock).
Qed.

Lemma unlink_exits_keep_off ea q j q0 l s s' :
  exit_off ea q j s → for_each (unlink_exit ea q0) l s = Some s' →
  exit_off ea q j s'.
Proof.
  intros Hoff. apply (for_each_inv (exit_off ea q j)); [|done].
  intros i x x' _. apply unlink_exit_keeps_off.
Qed.

Lemma unlink_exit_turns_off ea q j s s' :
  unlink_exit ea q j s = Some s' → exit_off ea q j s'.
Proof.
  intros Hrun. unfold unlink_exit in Hrun.
  bind_inv Hrun as sourceBlock Hq0. bind_inv Hrun as e0 Hi0.
  destruct (decide (exitAddress e0 = ea)) as [Hea|Hea]; injection Hrun as <-.
  - intros bq e Hq Hj Hex. rewrite deref_update_block, decide_True in Hq by done.
    change (deref q (WriteLinkBlock e0 None s)) with (deref q s) in Hq.
    rewrite Hq0 in Hq. injection Hq as <-. simpl in Hj.
    rewrite list_lookup_insert_eq in Hj by (by apply (lookup_lt_Some _ _ e0)).
    injection Hj as <-. simpl. split; [done|]. by rewrite lookup_insert_eq.
  - intros bq e Hq Hj Hex. congruence.
Qed.

Lemma unlink_exits_turn_off ea q m : ∀ k s s' j,
  for_each (unlink_exit ea q) (seq k m) s = Some s' →
  (k ≤ j < k + m)%nat → exit_off ea q j s'.
Proof.
  induction m as [|m IH]; intros k s s' j Hrun Hj; [lia|].
  simpl in Hrun. bind_inv Hrun as s1 H1.
  destruct (decide (j = k)) as [->|Hjk].
  - apply (unlink_exits_keep_off ea q k q (seq (S k) m) s1); [|done].
    by apply (unlink_exit_turns_off ea q k s).
  - apply (IH (S k) s1); [done|lia].
Qed.

(** When [UnlinkBlock(b)] has run, a block that the link graph holds
    under [b]'s effective address and that has [b]'s MSR bits has every
    exit to that address not linked, its jump at the dispatcher. *)
Lemma UnlinkBlock_turns_off p st st' b q :
  deref p st = Some b → UnlinkBlock p st = Some st' →
  (effectiveAddress b, q) ∈ links_to st →
  ∀ bq j e,
    deref q st' = Some bq → msrBits bq = msrBits b →
    linkData bq !! j = Some e → exitAddress e = effectiveAddress b →
    linkStatus e = false ∧ patch_sites st' !! exitPtrs e = Some ToDispatcher.
Proof.
  intros Hp Hrun Hin.
  pose proof (UnlinkBlock_skeleton _ _ _ Hrun) as Hsk.
  unfold UnlinkBlock in Hrun. rewrite Hp in Hrun. cbn [mbind option_bind] in Hrun.
  set (ea := effectiveAddress b) in *.
  assert ((ea, q) ∈ mm_equal_range ea (links_to st)) as HinL
    by (by apply list_elem_of_filter).
  destruct (list_elem_of_split _ _ HinL) as (L1 & L2 & HL).
  rewrite HL, for_each_app in Hrun. bind_inv Hrun as s2 H2.
  simpl in Hrun. bind_inv Hrun as s3 H3. bind_inv H3 as sourceBlock Hq2.
  intros bq j e Hq Hmsr Hj Hex.
  assert (skeleton s3 = skeleton s2) as Hsk3.
  { destruct (decide (msrBits sourceBlock ≠ msrBits b)); [by injection H3 as <-|].
    by apply (unlink_exits_skeleton ea q (seq 0 (length (linkData sourceBlock))) s2). }
  assert (skeleton st' = skeleton s3) as Hsk'.
  { revert Hrun. apply (for_each_inv (λ s, skeleton s = skeleton s3)); [|done].
    intros kv x x' _ Hx Hstep. bind_inv Hstep as sb Hsb.
    destruct (decide (msrBits sb ≠ msrBits b)); [by injection Hstep as <-|].
    by rewrite (unlink_exits_skeleton _ _ _ _ _ Hstep). }
  assert (unlinked bq = unlinked sourceBlock) as Hun.
  { pose proof (skeleton_deref _ _ q Hsk') as Hd1.
    pose proof (skeleton_deref _ _ q Hsk3) as Hd2.
    rewrite Hq in Hd1. rewrite Hd2, Hq2 in Hd1.
    change (Some (unlinked bq) = Some (unlinked sourceBlock)) in Hd1.
    congruence. }
  apply unlinked_fields in Hun as (_&_&_&Hm&_&_&_&Hlen&_).
  rewrite decide_False in H3 by (intros Hne; apply Hne; congruence).
  assert (exit_off ea q j s3) as Hoff3.
  { apply (unlink_exits_turn_off ea q _ 0%nat s2 s3 j H3).
    apply lookup_lt_Some in Hj. lia. }
  assert (exit_off ea q j st') as Hoff.
  { revert Hrun. apply (for_each_inv (exit_off ea q j)); [|done].
    intros kv x x' _ Hx Hstep. bind_inv Hstep as sb Hsb.
    destruct (decide (msrBits sb ≠ msrBits b)); [by injection Hstep as <-|].
    by apply (unlink_exits_keep_off ea q j kv.2 (seq 0 (length (linkData sb))) x). }
  by apply (Hoff bq).
Qed.

Lemma reverted_to_refl b st : reverted_to b st st.
Proof. split; [|by left]. intros q bq j e Hq Hj. exists bq. eauto. Qed.

Lemma unlink_exit_reverted_to b st q0 i0 s s' :
  skeleton s = skeleton st →
  (effectiveAddress b, q0) ∈ links_to st →
  (∀ bq, deref q0 st = Some bq → msrBits bq = msrBits b) →
  reverted_to b st s →
  unlink_exit (effectiveAddress b) q0 i0 s = Some s' →
  reverted_to b st s'.
Proof.
  intros Hsk Hin Hmsr [Hflags Hsites] Hrun. unfold unlink_exit in Hrun.
  bind_inv Hrun as sourceBlock Hq0. bind_inv Hrun as e0 Hi0.
  destruct (decide (exitAddress e0 = effectiveAddress b)) as [Hea|Hea];
    injection Hrun as <-; [|by split].
  (* the exit as it was in [st] *)
  destruct (skeleton_deref_Some _ _ q0 sourceBlock Hsk Hq0) as (b0 & Hb0 & Hun).
  assert (∃ e, linkData b0 !! i0 = Some e) as [e Hi].
  { apply lookup_lt_is_Some.
    apply unlinked_fields in Hun as (_&_&_&_&_&_&_&Hlen&_).
    rewrite Hlen. by apply (lookup_lt_Some _ _ e0). }
  destruct (Hflags q0 b0 i0 e Hb0 Hi) as (bq' & Hq' & Hcase).
  assert (bq' = sourceBlock) as -> by congruence.
  assert (set_linkStatus false e0 = set_linkStatus false e ∧
          exitPtrs e0 = exitPtrs e ∧ exitAddress e = effectiveAddress b)
    as (Hset & Hptr & Hex).
  { destruct Hcase as [Hsame|[_ Hrev]].
    - assert (e0 = e) as -> by congruence. done.
    - assert (e0 = set_linkStatus false e) as -> by congruence. done. }
  assert (unlink_target b st q0 b0 e) as Htarget.
  { split; [done|]. split; [by apply Hmsr|done]. }
  split.
  - intros q bq j e1 Hq Hj.
    destruct (Hflags q bq j e1 Hq Hj) as (bq1 & Hq1 & Hcase1).
    rewrite deref_update_block.
    change (deref q0 (WriteLinkBlock e0 None s)) with (deref q0 s).
    change (deref q (WriteLinkBlock e0 None s)) with (deref q s).
    destruct (decide (q = q0)) as [->|Hne]; [|by eauto].
    rewrite Hq0. eexists. split; [done|]. simpl.
    assert (bq1 = sourceBlock) as -> by congruence.
    assert (bq = b0) as -> by congruence.
    destruct (decide (i0 = j)) as [->|Hij].
    + rewrite list_lookup_insert_eq by (by apply (lookup_lt_Some _ _ e0)).
      assert (e1 = e) as -> by congruence.
      right. split; [done|]. by rewrite Hset.
    + by rewrite list_lookup_insert_ne.
  - intros site. simpl.
    destruct (decide (exitPtrs e0 = site)) as [<-|Hne].
    + right. rewrite lookup_insert_eq. split; [done|].
      exists q0, b0, i0, e. by rewrite Hptr.
    + rewrite lookup_insert_ne by done. apply Hsites.
Qed.

Lemma UnlinkBlock_reverted_to p st st' b :
  deref p st = Some b → UnlinkBlock p st = Some st' → reverted_to b st st'.
Proof.
  intros Hp Hrun. unfold UnlinkBlock in Hrun. rewrite Hp in Hrun.
  cbn [mbind option_bind] in Hrun.
  assert (skeleton st' = skeleton st ∧ reverted_to b st st') as [_ ?]; [|done].
  revert Hrun.
  apply (for_each_inv (λ s, skeleton s = skeleton st ∧ reverted_to b st s));
    [|split; [done|apply reverted_to_refl]].
  intros kv x x' Hkv [Hskx Hx] Hstep. bind_inv Hstep as sourceBlock Hq.
  destruct (decide (msrBits sourceBlock ≠ msrBits b)) as [|Hsame];
    [by injection Hstep as <-|].
  apply list_elem_of_filter in Hkv as [Hk Hkv].
  assert ((effectiveAddress b, kv.2) ∈ links_to st) as Hin
    by (rewrite <-Hk; by destruct kv).
  assert (∀ bq, deref kv.2 st = Some bq → msrBits bq = msrBits b) as Hmsr.
  { intros bq Hbq.
    destruct (skeleton_deref_Some _ _ kv.2 sourceBlock Hskx Hq) as (b0 & Hb0 & Hun).
    apply unlinked_fields in Hun as (_&_&_&Hm&_).
    assert (b0 = bq) as -> by congruence.
    destruct (decide (msrBits sourceBlock = msrBits b)) as [Heq|Hne];
      [congruence|by destruct Hsame]. }
  revert Hstep.
  apply (for_each_inv (λ s, skeleton s = skeleton st ∧ reverted_to b st s));
    [|done].
  intros j y y' _ [Hsky Hy] Hstep. split.
  - by rewrite (unlink_exit_skeleton _ _ _ _ _ Hstep).
  - by apply (unlink_exit_reverted_to b st kv.2 j y).
Qed.

(** [UnlinkBlock(b)], exactly: the exits it reverts end up not linked
    with their jump at the dispatcher, every other exit is as it was, and
    a jump that changes is that of a reverted exit. *)
Lemma UnlinkBlock_exact p st st' b :
  deref p st = Some b → UnlinkBlock p st = Some st' →
  (∀ q bq j e,
     deref q st = Some bq → linkData bq !! j = Some e →
     ∃ bq', deref q st' = Some bq' ∧
       (unlink_target b st q bq e →
          linkData bq' !! j = Some (set_linkStatus false e) ∧
          patch_sites st' !! exitPtrs e = Some ToDispatcher) ∧
       (¬ unlink_target b st q bq e → linkData bq' !! j = Some e)) ∧
  (∀ site,
     patch_sites st' !! site = patch_sites st !! site ∨
     (patch_sites st' !! site = Some ToDispatcher ∧
      ∃ q bq j e,
        deref q st = Some bq ∧ linkData bq !! j = Some e ∧
        unlink_target b st q bq e ∧ exitPtrs e = site)).
Proof.
  intros Hp Hrun.
  destruct (UnlinkBlock_reverted_to p st st' b Hp Hrun) as [Hflags Hsites].
  pose proof (UnlinkBlock_skeleton _ _ _ Hrun) as Hsk.
  split; [|done].
  intros q bq j e Hq Hj.
  destruct (Hflags q bq j e Hq Hj) as (bq' & Hq' & Hcase).
  exists bq'. split; [done|]. split.
  - intros (Hin & Hmsr & Hex).
    destruct (skeleton_deref_Some _ _ q bq' Hsk Hq') as (b0 & Hb0 & Hun).
    assert (b0 = bq) as -> by congruence.
    apply unlinked_fields in Hun as (_&_&_&Hm&_).
    assert (∀ e', linkData bq' !! j = Some e' → exitAddress e' = effectiveAddress b →
              linkStatus e' = false ∧
              patch_sites st' !! exitPtrs e' = Some ToDispatcher) as Hoff.
    { intros e' Hj' Hex'.
      apply (UnlinkBlock_turns_off p st st' b q Hp Hrun Hin bq' j e'); try done.
      congruence. }
    destruct Hcase as [Hsame|[_ Hrev]].
    + destruct (Hoff e Hsame Hex) as [Hstatus Hsite]. split; [|done].
      rewrite Hsame. f_equal. destruct e. simpl in Hstatus. by subst.
    + split; [done|]. by destruct (Hoff _ Hrev Hex) as [_ ?].
  - intros Hnot. by destruct Hcase as [?|[? _]].
Qed.

Lemma foldl_set_links_to {A} (g : A → list (Z * Z) → list (Z * Z)) l st :
  foldl (λ s e, set_links_to (g e) s) st l =
  set_links_to (λ l0, foldl (λ l1 e, g e l1) l0 l) st.
Proof.
  revert st. induction l as [|e l IH]; intros st; simpl.
  - by destruct st.
  - by rewrite IH.
Qed.

Lemma foldl_erase_link p es l :
  foldl (λ l1 e, erase_link p e l1) l es =
  filter (λ kv, ¬ (kv.2 = p ∧ kv.1 ∈ exitAddress <$> es)) l.
Proof.
  revert l. induction es as [|e es IH]; intros l; simpl.
  - induction l as [|kv l IHl]; [done|].
    rewrite filter_cons_True; [by f_equal|]. intros [_ []%elem_of_nil].
  - rewrite IH. unfold erase_link. rewrite list_filter_filter.
    apply list_filter_iff. intros kv. rewrite elem_of_cons. split.
    + intros [Hrest Hfirst] [Hp [Hk|Hk]]; [by apply Hfirst|by apply Hrest].
    + intros Hnot. split.
      * intros [Hp Hk]. apply Hnot. split; [done|by right].
      * intros [Hk Hp]. apply Hnot. split; [done|by left].
Qed.

Lemma mm_deref_is_Some_iff p m :
  is_Some (mm_deref p m) ↔ p ∈ (λ kv, kv.2.1) <$> m.
Proof.
  induction m as [|kv m IH]; simpl.
  - split; [by intros [? ?]|by intros ?%elem_of_nil].
  - rewrite elem_of_cons. case_decide as Hp.
    + split; [intros _; by left|eauto].
    + rewrite IH. split; [by right|]. by intros [?|?].
Qed.

Lemma nodes_live st st' p :
  (λ kv, (kv.1, kv.2.1)) <$> block_map st = (λ kv, (kv.1, kv.2.1)) <$> block_map st' →
  is_Some (deref p st) → is_Some (deref p st').
Proof.
  intros Hn. unfold deref. rewrite !mm_deref_is_Some_iff.
  apply (f_equal (fmap snd)) in Hn. rewrite <- !list_fmap_compose in Hn.
  change ((λ kv, kv.2.1) <$> block_map st = (λ kv, kv.2.1) <$> block_map st') in Hn.
  by rewrite Hn.
Qed.

Section Destroying.
Context `{Platform}.

Lemma drop_fast_slot_spec i p st :
  0 ≤ i ≤ FAST_BLOCK_MAP_MASK →
  drop_fast_slot i p st =
  Some (if decide (fast_block_map st !! i = Some p)
        then set_fast_block_map (delete i) st else st).
Proof.
  intros Hi. unfold drop_fast_slot, fast_slot. rewrite decide_True by done.
  simpl. by case_decide.
Qed.

(** [DestroyBlock] drops the fast-map slot, unlinks, and erases the
    block's pairs from the link graph; it succeeds when the pointers it
    follows are live. *)
Lemma DestroyBlock_spec p st b :
  deref p st = Some b →
  0 ≤ fast_block_map_index b ≤ FAST_BLOCK_MAP_MASK →
  links_live st →
  ∃ st2,
    DestroyBlock p st =
      Some (set_links_to
              (filter (λ kv, ¬ (kv.2 = p ∧ kv.1 ∈ exitAddress <$> linkData b))) st2) ∧
    skeleton st2 =
      skeleton (if decide (fast_block_map st !! fast_block_map_index b = Some p)
                then set_fast_block_map (delete (fast_block_map_index b)) st
                else st) ∧
    reverted (effectiveAddress b) st st2.
Proof.
  intros Hp Hi Hlive. unfold DestroyBlock. rewrite Hp; simpl.
  rewrite drop_fast_slot_spec by done; simpl.
  set (st1 := if decide (_ = Some p) then _ else st).
  assert (deref p st1 = Some b) as Hp1 by (subst st1; by case_decide).
  assert (links_live st1) as Hlive1 by (subst st1; by case_decide).
  destruct (UnlinkBlock_total p st1) as [st2 H2]; [eauto|done|].
  rewrite H2; simpl.
  assert (reverted (effectiveAddress b) st st2) as Hrev.
  { pose proof (UnlinkBlock_reverted p st1 st2 b Hp1 H2) as Hrev.
    subst st1. by case_decide. }
  apply UnlinkBlock_skeleton in H2.
  destruct (skeleton_deref_Some _ _ p b (eq_sym H2) Hp1) as (b2 & Hb2 & Hun).
  rewrite Hb2; simpl. exists st2. split; [|done].
  unfold WriteDestroyBlock. rewrite foldl_set_links_to.
  unfold set_links_to. rewrite foldl_erase_link.
  by apply unlinked_fields in Hun as (_&_&_&_&_&_&_&_&->&_).
Qed.
End Destroying.

Section Destroying_unlinks.
Context `{Platform}.

(** The unlinking that [DestroyBlock(b)] does, exactly. *)
Lemma DestroyBlock_unlinks p st b :
  deref p st = Some b →
  0 ≤ fast_block_map_index b ≤ FAST_BLOCK_MAP_MASK →
  links_live st →
  ∃ st',
    DestroyBlock p st = Some st' ∧
    (∀ q bq j e,
       deref q st = Some bq → linkData bq !! j = Some e →
       ∃ bq', deref q st' = Some bq' ∧
         (unlink_target b st q bq e →
            linkData bq' !! j = Some (set_linkStatus false e) ∧
            patch_sites st' !! exitPtrs e = Some ToDispatcher) ∧
         (¬ unlink_target b st q bq e → linkData bq' !! j = Some e)) ∧
    (∀ site,
       patch_sites st' !! site = patch_sites st !! site ∨
       (patch_sites st' !! site = Some ToDispatcher ∧
        ∃ q bq j e,
          deref q st = Some bq ∧ linkData bq !! j = Some e ∧
          unlink_target b st q bq e ∧ exitPtrs e = site)).
Proof.
  intros Hp Hi Hlive. unfold DestroyBlock. rewrite Hp; simpl.
  rewrite drop_fast_slot_spec by done; simpl.
  assert (∀ st1,
            (∀ q, deref q st1 = deref q st) → links_to st1 = links_to st →
            patch_sites st1 = patch_sites st →
            ∃ st',
              (UnlinkBlock p st1 ≫= λ st2,
                 deref p st2 ≫= λ block,
                   Some (WriteDestroyBlock block
                           (foldl (λ s e, set_links_to (erase_link p e) s) st2
                              (linkData block)))) = Some st' ∧
              (∀ q bq j e,
                 deref q st = Some bq → linkData bq !! j = Some e →
                 ∃ bq', deref q st' = Some bq' ∧
                   (unlink_target b st q bq e →
                      linkData bq' !! j = Some (set_linkStatus false e) ∧
                      patch_sites st' !! exitPtrs e = Some ToDispatcher) ∧
                   (¬ unlink_target b st q bq e → linkData bq' !! j = Some e)) ∧
              (∀ site,
                 patch_sites st' !! site = patch_sites st !! site ∨
                 (patch_sites st' !! site = Some ToDispatcher ∧
                  ∃ q bq j e,
                    deref q st = Some bq ∧ linkData bq !! j = Some e ∧
                    unlink_target b st q bq e ∧ exitPtrs e = site))) as Hrest.
  2: { destruct (decide (fast_block_map st !! fast_block_map_index b = Some p));
         by apply Hrest. }
  intros st1 Hd1 Hl1 Hs1.
  assert (links_live st1) as Hlive1.
  { intros k q. rewrite Hl1, Hd1. apply Hlive. }
  destruct (UnlinkBlock_total p st1) as [st2 H2]; [rewrite Hd1; eauto|done|].
  rewrite H2; simpl.
  destruct (UnlinkBlock_exact p st1 st2 b) as [Hflags Hsites];
    [by rewrite Hd1|done|].
  apply UnlinkBlock_skeleton in H2.
  destruct (skeleton_deref_Some _ _ p b (eq_sym H2)) as (b2 & Hb2 & _);
    [by rewrite Hd1|].
  rewrite Hb2; simpl. eexists. split; [done|].
  unfold WriteDestroyBlock. rewrite foldl_set_links_to.
  assert (∀ q bq e, unlink_target b st1 q bq e ↔ unlink_target b st q bq e) as Ht
    by (intros q bq e; unfold unlink_target; by rewrite Hl1).
  split.
  - intros q bq j e Hq Hj. rewrite <-Hd1 in Hq.
    destruct (Hflags q bq j e Hq Hj) as (bq' & Hq' & Hyes & Hno).
    exists bq'. split; [done|]. rewrite <-Ht. by split.
  - intros site. destruct (Hsites site) as [Hsame|[Hdisp (q & bq & j & e & Hq & Hj & Htg & Hptr)]].
    + left. simpl. by rewrite Hsame, Hs1.
    + right. split; [done|]. exists q, bq, j, e. rewrite <-Hd1, <-Ht. done.
Qed.

End Destroying_unlinks.

(** ** Checking the predicates on a given state *)

Lemma links_live_check st :
  forallb (λ kv, bool_decide (is_Some (deref kv.2 st))) (links_to st) = true →
  links_live st.
Proof.
  rewrite forallb_forall. intros Hall k q Hin.
  apply list_elem_of_In, Hall in Hin. by apply bool_decide_eq_true in Hin.
Qed.

Lemma slots_in_range_check `{Platform} st :
  forallb (λ kv, (0 <=? fast_block_map_index kv.2.2) &&
                 (fast_block_map_index kv.2.2 <=? FAST_BLOCK_MAP_MASK))
    (block_map st) = true →
  slots_in_range st.
Proof.
  rewrite forallb_forall. intros Hall p b Hp.
  destruct (mm_deref_elem _ _ _ Hp) as [k Hk].
  apply list_elem_of_In, Hall in Hk. simpl in Hk. lia.
Qed.

Section Destroying_frame.
Context `{Platform}.

(** C10. [DestroyBlock(b)] leaves the registry, the range index and the
    valid bitmap as they are: the registry keeps the same nodes, and
    every block is what it was up to the link flags of its exits; [b] is
    still registered. The hint sets are untouched as well. Its effects
    are to empty [b]'s fast-map slot when the slot points at [b], to
    erase from the link graph the pairs of [b] under the targets of its
    exits, and to unlink as [UnlinkBlock] does: every exit to [b]'s
    effective address, in a block that the link graph holds under that
    address and that has [b]'s MSR bits, ends up not linked with its
    jump at the dispatcher; every other exit of every block is as it
    was; and a jump that changes is that of such an exit and goes to the
    dispatcher. It completes whenever [b] is a registered block whose
    slot number is one of the fast map and the link graph has no
    dangling pointer. *)
Theorem DestroyBlock_frame p st b :
  deref p st = Some b →
  0 ≤ fast_block_map_index b ≤ FAST_BLOCK_MAP_MASK →
  links_live st →
  ∃ st',
    DestroyBlock p st = Some st' ∧
    (λ kv, (kv.1, kv.2.1)) <$> block_map st' =
      (λ kv, (kv.1, kv.2.1)) <$> block_map st ∧
    (∀ q, unlinked <$> deref q st' = unlinked <$> deref q st) ∧
    is_Some (deref p st') ∧
    block_range_map st' = block_range_map st ∧
    valid_block st' = valid_block st ∧
    fifoWriteAddresses st' = fifoWriteAddresses st ∧
    pairedQuantizeAddresses st' = pairedQuantizeAddresses st ∧
    fast_block_map st' =
      (if decide (fast_block_map st !! fast_block_map_index b = Some p)
       then delete (fast_block_map_index b) (fast_block_map st)
       else fast_block_map st) ∧
    links_to st' =
      filter (λ kv, ¬ (kv.2 = p ∧ kv.1 ∈ exitAddress <$> linkData b)) (links_to st) ∧
    (∀ q bq j e,
       deref q st = Some bq → linkData bq !! j = Some e →
       ∃ bq', deref q st' = Some bq' ∧
         (unlink_target b st q bq e →
            linkData bq' !! j = Some (set_linkStatus false e) ∧
            patch_sites st' !! exitPtrs e = Some ToDispatcher) ∧
         (¬ unlink_target b st q bq e → linkData bq' !! j = Some e)) ∧
    (∀ site,
       patch_sites st' !! site = patch_sites st !! site ∨
       (patch_sites st' !! site = Some ToDispatcher ∧
        ∃ q bq j e,
          deref q st = Some bq ∧ linkData bq !! j = Some e ∧
          unlink_target b st q bq e ∧ exitPtrs e = site)).
Proof.
  intros Hp Hi Hlive.
  destruct (DestroyBlock_unlinks p st b Hp Hi Hlive) as (st' & Hrun & Hflags & Hsites).
  destruct (DestroyBlock_spec p st b Hp Hi Hlive) as (st2 & Heq & Hsk & _).
  rewrite Heq in Hrun. injection Hrun as <-. rewrite Heq.
  set (st1 := if decide (_ = Some p) then _ else st) in Hsk.
  assert (block_map st1 = block_map st) as Hm1 by (subst st1; by case_decide).
  assert (∀ q, deref q st1 = deref q st) as Hd1
    by (intros q; unfold deref; by rewrite Hm1).
  destruct (skeleton_fields _ _ Hsk) as (Hl & Hr & Hv & Hf & Hh1 & Hh2).
  eexists. split; [done|].
  split; [|split; [|split; [|split; [|split; [|split; [|split; [|split; [|split;
    [|split]]]]]]]]].
  10: exact Hflags.
  10: exact Hsites.
  - rewrite <- Hm1. exact (skeleton_nodes _ _ Hsk).
  - intros q. rewrite <- Hd1. exact (skeleton_deref _ _ q Hsk).
  - change (is_Some (deref p st2)).
    apply (skeleton_live st1); [done|]. rewrite Hd1. eauto.
  - simpl. rewrite Hr. subst st1. by case_decide.
  - simpl. rewrite Hv. subst st1. by case_decide.
  - simpl. rewrite Hh1. subst st1. by case_decide.
  - simpl. rewrite Hh2. subst st1. by case_decide.
  - simpl. rewrite Hf. subst st1. by case_decide.
  - simpl. rewrite Hl. subst st1. by case_decide.
Qed.

(** [DestroyBlock] completes on a registered block and keeps the two
    conditions it needs. *)
Lemma DestroyBlock_keeps_ready p st :
  is_Some (deref p st) → links_live st → slots_in_range st →
  ∃ st',
    DestroyBlock p st = Some st' ∧
    links_live st' ∧ slots_in_range st' ∧
    (λ kv, (kv.1, kv.2.1)) <$> block_map st' = (λ kv, (kv.1, kv.2.1)) <$> block_map st ∧
    fifoWriteAddresses st' = fifoWriteAddresses st ∧
    pairedQuantizeAddresses st' = pairedQuantizeAddresses st.
Proof.
  intros [b Hp] Hlive Hslots.
  destruct (DestroyBlock_spec p st b Hp (Hslots _ _ Hp) Hlive)
    as (st2 & -> & Hsk & _).
  set (st1 := if decide (_ = Some p) then _ else st) in Hsk.
  assert (block_map st1 = block_map st) as Hm1 by (subst st1; by case_decide).
  assert (∀ q, deref q st1 = deref q st) as Hd1
    by (intros q; unfold deref; by rewrite Hm1).
  destruct (skeleton_fields _ _ Hsk) as (Hl & _ & _ & _ & Hh1 & Hh2).
  eexists. split; [done|]. split; [|split; [|split; [|split]]].
  - intros k q Hin. simpl in Hin.
    apply list_elem_of_filter in Hin as [_ Hin]. rewrite Hl in Hin.
    change (is_Some (deref q st2)).
    apply (skeleton_live st1); [done|]. rewrite Hd1.
    apply (Hlive k). subst st1. by case_decide.
  - intros q b' Hq. change (deref q st2 = Some b') in Hq.
    destruct (skeleton_deref_Some _ _ q b' Hsk Hq) as (b1 & Hb1 & Hun).
    apply unlinked_fields in Hun as (_&_&_&_&_&_&Hidx&_).
    rewrite <- Hidx. apply (Hslots q). by rewrite <- Hd1.
  - rewrite <- Hm1. exact (skeleton_nodes _ _ Hsk).
  - simpl. rewrite Hh1. subst st1. by case_decide.
  - simpl. rewrite Hh2. subst st1. by case_decide.
Qed.

(** [Clear] returns the empty cache, up to the jumps of the host code that
    unlinking patched on the way. *)
Lemma Clear_spec st :
  links_live st → slots_in_range st →
  ∃ sites, Clear st = Some (set_patch_sites (λ _, sites) empty_cache).
Proof.
  intros Hlive Hslots. unfold Clear.
  set (st1 := set_hints (λ _, ∅) st).
  match goal with |- context [for_each ?f ?l ?s] =>
    destruct (for_each_total
      (λ s, links_live s ∧ slots_in_range s ∧
            (λ kv, (kv.1, kv.2.1)) <$> block_map s =
              (λ kv, (kv.1, kv.2.1)) <$> block_map st1 ∧
            fifoWriteAddresses s = ∅ ∧ pairedQuantizeAddresses s = ∅) f l s)
      as (st2 & -> & _ & _ & _ & Hh1 & Hh2) end.
  - intros kv x Hkv (Hl & Hs & Hn & Hh1 & Hh2).
    assert (is_Some (deref kv.2.1 x)) as Hp.
    { apply (nodes_live st1); [done|]. by apply mm_deref_is_Some. }
    destruct (DestroyBlock_keeps_ready kv.2.1 x Hp Hl Hs)
      as (x' & Hx' & ? & ? & Hn' & Hh1' & Hh2').
    exists x'. split; [done|]. rewrite Hn', Hh1', Hh2'. done.
  - done.
  - simpl. exists (patch_sites st2).
    unfold set_fast_block_map, set_valid_block, set_block_range_map,
      set_links_to, set_block_map, set_patch_sites, empty_cache; simpl.
    by rewrite Hh1, Hh2.
Qed.

(** C9. [Clear] leaves the cache empty: no block in the registry, no pair
    in the link graph, no bucket in the range index, no bit set in the
    valid bitmap, no slot filled in the fast map, and both hint sets
    empty; so the link graph is complete and no pointer dangles. It
    completes from every state whose link graph has no dangling pointer
    and whose blocks record slot numbers of the fast map. *)
Theorem Clear_leaves_cache_empty st :
  links_live st → slots_in_range st →
  ∃ st',
    Clear st = Some st' ∧
    block_map st' = [] ∧
    links_to st' = [] ∧
    block_range_map st' = ∅ ∧
    valid_block st' = ∅ ∧
    fast_block_map st' = ∅ ∧
    fifoWriteAddresses st' = ∅ ∧
    pairedQuantizeAddresses st' = ∅ ∧
    link_graph_complete st' ∧ links_live st' ∧ fast_live st'.
Proof.
  intros Hlive Hslots.
  destruct (Clear_spec st Hlive Hslots) as (sites & ->).
  eexists. split; [done|]. simpl.
  split; [done|]. split; [done|]. split; [done|]. split; [done|].
  split; [done|]. split; [done|]. split; [done|].
  split; [|split].
  - intros kv e []%elem_of_nil.
  - intros k q []%elem_of_nil.
  - intros j q Hslot. simpl in Hslot. by rewrite lookup_empty in Hslot.
Qed.
End Destroying_frame.

(** The state of scenario 5, and the conditions it meets. *)
Lemma linked_pair_ready :
  links_live Scenario.linked_pair ∧
  slots_in_range (H := Scenario.platform) Scenario.linked_pair.
Proof.
  split.
  - apply links_live_check. vm_compute. reflexivity.
  - apply slots_in_range_check. vm_compute. reflexivity.
Defined.

Lemma DestroyBlock_frame_witness :
  ∃ st' bA,
    DestroyBlock (H := Scenario.platform) 2 Scenario.linked_pair = Some st' ∧
    deref 1 st' = Some bA ∧
    linkData bA !! 0%nat = Some (mkLinkData 0x7104 0x2000 false false) ∧
    patch_sites st' !! 0x7104 = Some ToDispatcher.
Proof.
  destruct (DestroyBlock_frame (H := Scenario.platform) 2 Scenario.linked_pair
              (mkJitBlock 0x7200 0x7210 0x2000 0x30 0x2000 16 1 0 [] 0))
    as (st' & Hrun & _ & _ & _ & _ & _ & _ & _ & _ & _ & Hflags & _).
  - vm_compute. reflexivity.
  - vm_compute. split; discriminate.
  - apply linked_pair_ready.
  - destruct (Hflags 1
                (mkJitBlock 0x7100 0x7110 0x1000 0x30 0x1000 16 1 0
                   [mkLinkData 0x7104 0x2000 true false] 0)
                0%nat (mkLinkData 0x7104 0x2000 true false))
      as (bA & HbA & Hyes & _); [vm_compute; reflexivity..|].
    destruct Hyes as [Hexit Hsite].
    { split; [vm_compute; left|split; reflexivity]. }
    exists st', bA. split; [exact Hrun|]. split; [exact HbA|].
    split; [exact Hexit|exact Hsite].
Defined.

Lemma Clear_leaves_cache_empty_witness :
  is_Some (Clear (H := Scenario.platform) Scenario.linked_pair).
Proof.
  destruct (Clear_leaves_cache_empty (H := Scenario.platform) Scenario.linked_pair)
    as (st' & Hrun & _).
  - apply linked_pair_ready.
  - apply linked_pair_ready.
  - rewrite Hrun. eauto.
Defined.

(** ** Overlap *)

Lemma Overlap_true b addr length :
  Overlap b addr length = true ↔
  addr < u32 (physicalAddress b + originalSize b) ∧
  physicalAddress b < u32 (addr + length).
Proof.
  unfold Overlap.
  destruct (Z.leb_spec (u32 (physicalAddress b + originalSize b)) addr);
    destruct (Z.leb_spec (u32 (addr + length)) (physicalAddress b));
    split; try done; lia.
Qed.

(** C1. The block at physical [0x1000] with four instructions covers
    [0x1000 .. 0x1010), which meets the range [0x1008 .. 0x100C); yet
    [Overlap] answers no, because it adds [originalSize], an instruction
    count, to the address as if it were a byte count. *)
Theorem Overlap_misses_intersecting_span :
  let b := mkJitBlock 0x7100 0x7110 0x80001000 0x30 0x1000 16 4 0 [] 0 in
  spans_intersect b 0x1008 4 ∧ Overlap b 0x1008 4 = false.
Proof. split; [unfold spans_intersect; simpl; lia|reflexivity]. Qed.

(** ** InvalidateICache *)

(** C2. Blocks [1] and [2] share the registry key [0x1000]. The range
    [0x1008 .. 0x100C) meets block [2] only; block [1] meets it neither by
    [Overlap] nor by its byte span. [InvalidateICache] destroys block [2]
    and then erases the key from the registry, which takes block [1] with
    it: the registry is empty afterwards, while the range index still
    holds the pointer to block [1]. *)
Theorem InvalidateICache_erases_blocks_sharing_key :
  ∃ b st',
    Scenario.two_at_0x1000 = Some Scenario.shared_key ∧
    deref 1 Scenario.shared_key = Some b ∧
    Overlap b 0x1008 4 = false ∧
    ¬ spans_intersect b 0x1008 4 ∧
    InvalidateICache (H := Scenario.platform) 2 0x80001008 4 true
      Scenario.shared_key = Some st' ∧
    deref 1 st' = None ∧
    block_map st' = [] ∧
    block_range_map st' !! 0x1000 = Some {[1]}.
Proof.
  eexists _, _. split; [vm_compute; reflexivity|].
  split; [vm_compute; reflexivity|].
  split; [reflexivity|].
  split; [unfold spans_intersect; simpl; lia|].
  split; [vm_compute; reflexivity|].
  split; [reflexivity|]. split; reflexivity.
Qed.

Section Invalidate.
Context `{Platform}.

(** C6. A 32-byte invalidation of a translated address whose chunk has
    its valid bit clear returns the cache as it was, hint sets included,
    whatever [forced] is. When the bit is set, the call is the walk over
    the range, with the hint update that follows it, started from the
    cache with that one bit cleared. *)
Theorem InvalidateICache_32_short_circuit n addr forced st :
  TranslateResult.valid (JitCache_TranslateAddress addr) = true →
  let pAddr := TranslateResult.address (JitCache_TranslateAddress addr) in
  (ValidBlockBitSet_Test (pAddr / 32) (valid_block st) = false →
     InvalidateICache n addr 32 forced st = Some st) ∧
  (ValidBlockBitSet_Test (pAddr / 32) (valid_block st) = true →
     InvalidateICache n addr 32 forced st =
     destroy_blocks n addr pAddr 32 forced
       (set_valid_block (λ vb, vb ∖ {[pAddr / 32]}) st)).
Proof.
  intros Hv pAddr. unfold InvalidateICache. rewrite Hv; simpl.
  fold pAddr. split; intros ->; done.
Qed.
End Invalidate.

Lemma InvalidateICache_32_short_circuit_witness :
  InvalidateICache (H := Scenario.platform) 0 0x80002000 32 false
    Scenario.one_block_cache = Some Scenario.one_block_cache.
Proof.
  destruct (InvalidateICache_32_short_circuit (H := Scenario.platform)
              0 0x80002000 false Scenario.one_block_cache) as [Hclear _].
  - reflexivity.
  - apply Hclear. vm_compute. reflexivity.
Defined.

(** ** AllocateBlock *)

Lemma fast_live_check st :
  forallb (λ iq, bool_decide (is_Some (deref iq.2 st)))
    (map_to_list (fast_block_map st)) = true →
  fast_live st.
Proof.
  rewrite forallb_forall. intros Hall i q Hiq.
  apply elem_of_map_to_list, list_elem_of_In, Hall in Hiq.
  by apply bool_decide_eq_true in Hiq.
Qed.

Lemma mm_emplace_length {V} k (v : V) m :
  length (mm_emplace k v m) = S (length m).
Proof.
  induction m as [|kv m IH]; simpl; [done|].
  destruct (k <? kv.1); simpl; [done|]. by rewrite IH.
Qed.

Lemma mm_emplace_elem {V} k (v : V) m x :
  x ∈ mm_emplace k v m ↔ x = (k, v) ∨ x ∈ m.
Proof.
  induction m as [|kv m IH]; simpl.
  - rewrite list_elem_of_singleton. rewrite elem_of_nil. tauto.
  - destruct (k <? kv.1).
    + by rewrite elem_of_cons.
    + rewrite !elem_of_cons, IH. tauto.
Qed.

Lemma mm_deref_emplace_fresh p k b m :
  mm_deref p m = None → mm_deref p (mm_emplace k (p, b) m) = Some b.
Proof.
  induction m as [|kv m IH]; simpl.
  - by rewrite decide_True.
  - case_decide; [done|]. intros Hm.
    destruct (k <? kv.1); simpl.
    + by rewrite decide_True.
    + rewrite decide_False by done. by apply IH.
Qed.

Lemma mm_deref_emplace_other p q k b m :
  q ≠ p → mm_deref q (mm_emplace k (p, b) m) = mm_deref q m.
Proof.
  intros Hq. induction m as [|kv m IH]; simpl.
  - by rewrite decide_False.
  - destruct (k <? kv.1); simpl.
    + by rewrite decide_False.
    + by rewrite IH.
Qed.

(** The counterexample to C4: the translation of [0xE0000000] fails, and
    [AllocateBlock] registers a block all the same. *)
Lemma AllocateBlock_ignores_translation_failure :
  TranslateResult.valid (JitCache_TranslateAddress (Platform := Scenario.platform) 0xE0000000) = false ∧
  block_map (AllocateBlock (H := Scenario.platform) 0x30 1 0xE0000000 Scenario.empty).2
    ≠ block_map Scenario.empty.
Proof. split; [reflexivity|discriminate]. Qed.

Section Allocate.
Context `{Platform}.

(** C4, amended. [AllocateBlock] does not look at the validity of the
    translation. For every address, one whose translation fails
    included, it returns the new node and the registry gains exactly
    that node, under the address field of the translation result; no
    other part of the cache changes. *)
Theorem AllocateBlock_registers_one_block MSR p em st :
  let r := AllocateBlock MSR p em st in
  let key := TranslateResult.address (JitCache_TranslateAddress em) in
  r.1 = p ∧
  block_map r.2 =
    mm_emplace key
      (p, mkJitBlock 0 0 em (Z.land MSR JIT_CACHE_MSR_MASK) key 0 0 0 [] 0)
      (block_map st) ∧
  length (block_map r.2) = S (length (block_map st)) ∧
  links_to r.2 = links_to st ∧
  block_range_map r.2 = block_range_map st ∧
  valid_block r.2 = valid_block st ∧
  fast_block_map r.2 = fast_block_map st ∧
  fifoWriteAddresses r.2 = fifoWriteAddresses st ∧
  pairedQuantizeAddresses r.2 = pairedQuantizeAddresses st ∧
  patch_sites r.2 = patch_sites st.
Proof.
  simpl. repeat split; try done. apply mm_emplace_length.
Qed.

(** C5, amended. [AllocateBlock] puts a new block in the registry, under
    its physical address, and returns it: the block has the effective
    address asked for, the translated physical address, the masked MSR,
    no exits, and slot number [0]. That number is the number of a slot
    and no sentinel: [AllocateBlock] leaves the fast map as it is, so a
    slot holds the new block exactly when it held a pointer to its node
    address before, which no slot does when the fast map has no dangling
    pointer. The node address is one no registered block has. *)
Theorem AllocateBlock_new_block MSR p em st :
  deref p st = None →
  let r := AllocateBlock MSR p em st in
  r.1 = p ∧
  ∃ b,
    deref p r.2 = Some b ∧
    (TranslateResult.address (JitCache_TranslateAddress em), (p, b)) ∈ block_map r.2 ∧
    effectiveAddress b = em ∧
    physicalAddress b = TranslateResult.address (JitCache_TranslateAddress em) ∧
    msrBits b = Z.land MSR JIT_CACHE_MSR_MASK ∧
    linkData b = [] ∧
    fast_block_map_index b = 0 ∧
    fast_block_map r.2 = fast_block_map st ∧
    (fast_live st → ∀ i, fast_block_map r.2 !! i ≠ Some p).
Proof.
  intros Hfresh. simpl. split; [done|]. eexists. split.
  { by apply mm_deref_emplace_fresh. }
  split; [apply mm_emplace_elem; by left|].
  repeat split. simpl. intros Hfast i Hslot.
  destruct (Hfast _ _ Hslot) as [b Hb]. congruence.
Qed.
End Allocate.

Lemma AllocateBlock_new_block_witness :
  (AllocateBlock (H := Scenario.platform) 0x30 2 0x80001004 Scenario.one_block_cache).1 = 2.
Proof.
  apply (AllocateBlock_new_block (H := Scenario.platform) 0x30 2 0x80001004
           Scenario.one_block_cache).
  vm_compute. reflexivity.
Defined.

(** The counterexample to C5: after [MoveBlockIntoFastCache] has put
    block [1] in slot [0] and [InvalidateICache] has erased the key that
    blocks [1] and [2] share, slot [0] still holds the address of node
    [1]. A block allocated at that address has slot number [0], and slot
    [0] holds it. *)
Lemma AllocateBlock_at_dangling_slot :
  ∃ st1 st b,
    MoveBlockIntoFastCache (H := Scenario.platform) (H0 := Scenario.recompiler 0x30)
      0x80001000 0x30 Scenario.shared_key = Some st1 ∧
    InvalidateICache (H := Scenario.platform) 2 0x80001008 4 true st1 = Some st ∧
    deref 1 st = None ∧
    fast_block_map st !! 0 = Some 1 ∧
    deref 1 (AllocateBlock (H := Scenario.platform) 0x30 1 0x80001000 st).2 = Some b ∧
    fast_block_map_index b = 0 ∧
    fast_block_map (AllocateBlock (H := Scenario.platform) 0x30 1 0x80001000 st).2
      !! fast_block_map_index b = Some 1.
Proof.
  eexists _, _, _. split; [vm_compute; reflexivity|].
  split; [vm_compute; reflexivity|].
  split; [reflexivity|]. split; [reflexivity|].
  split; [vm_compute; reflexivity|]. split; reflexivity.
Qed.

(** ** FinalizeBlock *)

Lemma foldl_keeps {A} (P : Cache → Prop) (g : Cache → A → Cache) l st :
  (∀ s a, P s → P (g s a)) → P st → P (foldl g st l).
Proof.
  intros Hg. revert st. induction l as [|a l IH]; intros st Hst; simpl; [done|].
  apply IH, Hg, Hst.
Qed.

Lemma foldl_emplace_elem (p : Z) es l x :
  x ∈ foldl (λ l1 e, mm_emplace (exitAddress e) p l1) l es ↔
  x ∈ l ∨ ∃ e, e ∈ es ∧ x = (exitAddress e, p).
Proof.
  revert l. induction es as [|e es IH]; intros l; simpl.
  - split; [by left|]. intros [?|(e & []%elem_of_nil & _)]. done.
  - rewrite IH, mm_emplace_elem. split.
    + intros [[->|?]|(e' & ? & ->)]; [right|by left|right].
      * exists e. split; [left|done].
      * exists e'. split; [by right|done].
    + intros [?|(e' & [->|?]%elem_of_cons & ->)].
      * left. by right.
      * left. by left.
      * right. eauto.
Qed.

Section Finalize.
Context `{Platform}.

Lemma bucket_addrs_total n addr last :
  0 < BLOCK_RANGE_MAP_ELEMENTS → 0 ≤ addr →
  last + BLOCK_RANGE_MAP_ELEMENTS < 2 ^ 32 →
  (addr ≤ last →
   (Z.to_nat ((last - addr) / BLOCK_RANGE_MAP_ELEMENTS + 1) ≤ n)%nat) →
  is_Some (bucket_addrs n addr last).
Proof.
  intros HB. revert addr. induction n as [|n IH]; intros addr Ha Hlast Hn; simpl.
  - destruct (Z.ltb_spec last addr); [eauto|].
    assert (0 ≤ (last - addr) / BLOCK_RANGE_MAP_ELEMENTS)
      by (apply Z.div_pos; lia).
    specialize (Hn ltac:(done)). lia.
  - destruct (Z.ltb_spec last addr); [eauto|].
    assert (u32 (addr + BLOCK_RANGE_MAP_ELEMENTS) = addr + BLOCK_RANGE_MAP_ELEMENTS)
      as -> by (apply Z.mod_small; lia).
    destruct (IH (addr + BLOCK_RANGE_MAP_ELEMENTS)) as [l ->]; [lia|done| |by eauto].
    intros Hle. specialize (Hn ltac:(done)).
    replace (last - (addr + BLOCK_RANGE_MAP_ELEMENTS))
      with (last - addr + (-1) * BLOCK_RANGE_MAP_ELEMENTS) by lia.
    rewrite Z.div_add by lia.
    assert (0 ≤ (last - addr) / BLOCK_RANGE_MAP_ELEMENTS)
      by (apply Z.div_pos; lia).
    lia.
Qed.

Lemma block_buckets_total b : buckets_end b → is_Some (block_buckets b).
Proof.
  intros [HB Hend]. unfold block_buckets. apply bucket_addrs_total; try done.
  apply Z.land_nonneg. right. unfold range_mask, not32, u32.
  apply Z.mod_pos_bound. lia.
Qed.

(** The cache after the steps of [FinalizeBlock] that come before linking:
    the block is in its slot and records it, its chunks are marked valid,
    and it is in its buckets. *)
Lemma FinalizeBlock_unfold p link st b :
  deref p st = Some b → is_Some (block_buckets b) →
  ∃ st4,
    FinalizeBlock p link st =
      (if link then
         LinkBlock p
           (set_links_to
              (λ l, foldl (λ l1 e, mm_emplace (exitAddress e) p l1) l (linkData b)) st4)
       else Some st4) ∧
    block_map st4 =
      mm_store p (set_fast_block_map_index (FastLookupIndexForAddress (effectiveAddress b)))
        (block_map st) ∧
    links_to st4 = links_to st ∧
    fast_block_map st4 =
      <[FastLookupIndexForAddress (effectiveAddress b) := p]> (fast_block_map st) ∧
    patch_sites st4 = patch_sites st.
Proof.
  intros Hp [addrs Haddrs]. unfold FinalizeBlock. rewrite Hp; simpl.
  rewrite Haddrs; simpl.
  eexists. split; [by rewrite foldl_set_links_to|].
  apply (foldl_keeps (λ s, block_map s = _ ∧ links_to s = _ ∧
                           fast_block_map s = _ ∧ patch_sites s = _));
    [by intros s a|].
  apply (foldl_keeps (λ s, block_map s = _ ∧ links_to s = _ ∧
                           fast_block_map s = _ ∧ patch_sites s = _));
    [by intros s a|].
  done.
Qed.

End Finalize.



(** ** Lookup and dispatch *)

Lemma update_block_live p f q st :
  is_Some (deref q st) → is_Some (deref q (update_block p f st)).
Proof.
  rewrite deref_update_block. intros [b Hb]. case_decide; [|eauto].
  subst q. rewrite Hb. simpl. eauto.
Qed.

Section Dispatching.
Context `{Platform} `{Recompiler}.

Lemma GetBlockFromStartAddress_Some addr msr st q b :
  GetBlockFromStartAddress addr msr st = Some (q, b) →
  effectiveAddress b = addr ∧
  msrBits b = Z.land msr JIT_CACHE_MSR_MASK ∧
  ∃ k, (k, (q, b)) ∈ block_map st.
Proof.
  unfold GetBlockFromStartAddress.
  destruct (MSR_IR msr && negb _); [done|].
  destruct (head _) as [[k [q' b']]|] eqn:Hhead; [|done].
  intros [= -> ->]. apply head_Some in Hhead as [l' Hl'].
  assert ((k, (q, b)) ∈ filter
            (λ kv : Z * (Z * JitBlock),
               effectiveAddress kv.2.2 = addr ∧
               msrBits kv.2.2 = Z.land msr JIT_CACHE_MSR_MASK)
            (mm_equal_range
               (if MSR_IR msr
                then TranslateResult.address (JitCache_TranslateAddress addr)
                else addr) (block_map st))) as Hin
    by (rewrite Hl'; left).
  apply list_elem_of_filter in Hin as [[Hea Hmsr] Hin].
  apply list_elem_of_filter in Hin as [_ Hin]. eauto.
Qed.

Lemma fast_lookup_hit PC MSR st p b :
  fast_block_map st !! FastLookupIndexForAddress PC = Some p →
  deref p st = Some b →
  effectiveAddress b = PC → msrBits b = Z.land MSR JIT_CACHE_MSR_MASK →
  fast_lookup PC MSR st = Some (Some b).
Proof.
  intros Hslot Hp Hea Hmsr. unfold fast_lookup. rewrite Hslot, Hp; simpl.
  rewrite decide_False; [done|]. intros [?|?]; done.
Qed.

Lemma fast_lookup_total PC MSR st :
  fast_live st →
  ∃ found,
    fast_lookup PC MSR st = Some found ∧
    ∀ b, found = Some b →
      ∃ p, fast_block_map st !! FastLookupIndexForAddress PC = Some p ∧
           deref p st = Some b ∧
           effectiveAddress b = PC ∧ msrBits b = Z.land MSR JIT_CACHE_MSR_MASK.
Proof.
  intros Hfast. unfold fast_lookup.
  destruct (fast_block_map st !! _) as [p|] eqn:Hslot;
    [|exists None; split; [done|]; intros b [=]].
  destruct (Hfast _ _ Hslot) as [b Hb]. rewrite Hb; simpl.
  case_decide as Hne; [exists None; split; [done|]; intros b' [=]|].
  eexists. split; [done|]. intros b' [= <-]. exists p.
  repeat split; try done.
  - destruct (decide (effectiveAddress b = PC)); [done|]. destruct Hne; by left.
  - destruct (decide (msrBits b = Z.land MSR JIT_CACHE_MSR_MASK)); [done|].
    destruct Hne; by right.
Qed.

Lemma Dispatch_hit n PC MSR calls st b :
  fast_lookup PC MSR st = Some (Some b) →
  Dispatch n PC MSR calls st = Some (normalEntry b, calls, st).
Proof. intros Hhit. destruct n; simpl; by rewrite Hhit. Qed.

(** [MoveBlockIntoFastCache] on a block that the registry has: the block
    ends up in the slot of its address. *)
Lemma MoveBlockIntoFastCache_found addr msr st q b :
  links_live st → slots_in_range st → nodes_distinct st →
  GetBlockFromStartAddress addr msr st = Some (q, b) →
  ∃ st' b',
    MoveBlockIntoFastCache addr msr st = Some st' ∧
    fast_block_map st' !! FastLookupIndexForAddress addr = Some q ∧
    deref q st' = Some b' ∧
    effectiveAddress b' = addr ∧
    msrBits b' = Z.land msr JIT_CACHE_MSR_MASK ∧
    normalEntry b' = normalEntry b.
Proof.
  intros Hlive Hslots Hnd Hget. unfold MoveBlockIntoFastCache. rewrite Hget.
  destruct (GetBlockFromStartAddress_Some _ _ _ _ _ Hget) as (Hea & Hmsr & k & Hk).
  assert (deref q st = Some b) as Hq by apply (mm_deref_NoDup _ _ Hnd Hk).
  rewrite drop_fast_slot_spec by (by apply (Hslots q)). simpl.
  set (st1 := if decide (_ = Some q) then _ else st).
  assert (deref q st1 = Some b) as Hq1 by (subst st1; by case_decide).
  assert (links_live st1) as Hlive1 by (subst st1; by case_decide).
  set (st3 := update_block q _ _).
  assert (deref q st3 =
          Some (set_fast_block_map_index (FastLookupIndexForAddress addr) b)) as Hq3.
  { subst st3. rewrite deref_update_block, decide_True by done.
    change (deref q (set_fast_block_map _ st1)) with (deref q st1).
    by rewrite Hq1. }
  assert (links_live st3) as Hlive3.
  { intros k' q' Hin. subst st3. apply update_block_live.
    by apply (Hlive1 k'). }
  destruct (LinkBlock_total q st3) as [st' Hrun]; [eauto|done|].
  rewrite Hrun. apply LinkBlock_skeleton in Hrun.
  destruct (skeleton_deref_Some _ _ q _ (eq_sym Hrun) Hq3) as (b' & Hb' & Hun).
  destruct (skeleton_fields _ _ Hrun) as (_ & _ & _ & Hf & _).
  exists st', b'. split; [done|]. split.
  { rewrite Hf. subst st3. simpl. apply lookup_insert_eq. }
  split; [done|].
  apply unlinked_fields in Hun as (_ & Hne & Hea' & Hmsr' & _).
  rewrite Hea', Hmsr', Hne. done.
Qed.

(** C7. When [Jit] publishes a block of [PC] and the masked [MSR] in the
    slot of [PC] whenever the registry has none, [Dispatch] ends after at
    most one call of [MoveBlockIntoFastCache] and returns the
    [normalEntry] of the block in the slot of [PC], whose effective
    address is [PC] and whose MSR bits are the masked [MSR]. The cache is
    one whose fast map and link graph have no dangling pointer, whose
    blocks record slot numbers of the fast map, and whose nodes have
    distinct addresses. *)
Theorem Dispatch_at_most_one_miss n PC MSR st :
  fast_live st → links_live st → slots_in_range st → nodes_distinct st →
  (GetBlockFromStartAddress PC (Z.land MSR JIT_CACHE_MSR_MASK) st = None →
   Jit_publishes PC MSR st) →
  ∃ calls st' p b,
    Dispatch (S n) PC MSR 0 st = Some (normalEntry b, calls, st') ∧
    (calls ≤ 1)%nat ∧
    fast_block_map st' !! FastLookupIndexForAddress PC = Some p ∧
    deref p st' = Some b ∧
    effectiveAddress b = PC ∧
    msrBits b = Z.land MSR JIT_CACHE_MSR_MASK.
Proof.
  intros Hfast Hlive Hslots Hnd Hjit.
  destruct (fast_lookup_total PC MSR st Hfast) as (found & Hlook & Hfound).
  destruct found as [b|].
  - destruct (Hfound b eq_refl) as (p & Hslot & Hp & Hea & Hmsr).
    exists 0%nat, st, p, b. split; [by apply Dispatch_hit|]. split; [lia|done].
  - cbn [Dispatch]. rewrite Hlook. cbn [mbind option_bind].
    destruct (GetBlockFromStartAddress PC (Z.land MSR JIT_CACHE_MSR_MASK) st)
      as [[q b]|] eqn:Hget.
    + destruct (MoveBlockIntoFastCache_found _ _ _ _ _ Hlive Hslots Hnd Hget)
        as (st' & b' & -> & Hslot & Hq & Hea & Hmsr & _).
      cbn [mbind option_bind].
      rewrite <- Z.land_assoc, Z.land_diag in Hmsr.
      exists 1%nat, st', q, b'.
      split; [by apply Dispatch_hit, (fast_lookup_hit _ _ _ q)|]. done.
    + destruct (Hjit eq_refl) as (st' & p & b & Hrun & Hslot & Hp & Hea & Hmsr).
      unfold MoveBlockIntoFastCache. rewrite Hget, Hrun. cbn [mbind option_bind].
      exists 1%nat, st', p, b.
      split; [by apply Dispatch_hit, (fast_lookup_hit _ _ _ p)|]. done.
Qed.
End Dispatching.

Lemma nodes_distinct_check st :
  bool_decide (NoDup ((λ kv, kv.2.1) <$> block_map st)) = true → nodes_distinct st.
Proof. apply bool_decide_eq_true. Qed.

Lemma Dispatch_at_most_one_miss_witness :
  is_Some (Dispatch (H := Scenario.platform) (H0 := Scenario.recompiler 0x30)
             1 0x80001004 0x30 0 Scenario.one_block_cache).
Proof.
  destruct (Dispatch_at_most_one_miss (H := Scenario.platform)
              (H0 := Scenario.recompiler 0x30) 0 0x80001004 0x30
              Scenario.one_block_cache)
    as (calls & st' & p & b & Hrun & _).
  - apply fast_live_check. vm_compute. reflexivity.
  - apply links_live_check. vm_compute. reflexivity.
  - apply slots_in_range_check. vm_compute. reflexivity.
  - apply nodes_distinct_check. vm_compute. reflexivity.
  - intros _. eexists _, 2, _. split; [vm_compute; reflexivity|].
    split; [vm_compute; reflexivity|]. split; [vm_compute; reflexivity|].
    split; reflexivity.
  - rewrite Hrun. eauto.
Defined.

(** ** The shape of the registry *)

Lemma unlinked_shape b b' : unlinked b = unlinked b' → shape b = shape b'.
Proof. unfold shape. by intros ->. Qed.

Lemma shape_set_fast_block_map_index i b :
  shape (set_fast_block_map_index i b) = shape b.
Proof. done. Qed.

Lemma shape_fields b b' :
  shape b = shape b' →
  checkedEntry b = checkedEntry b' ∧
  effectiveAddress b = effectiveAddress b' ∧ msrBits b = msrBits b' ∧
  length (linkData b) = length (linkData b') ∧
  exitAddress <$> linkData b = exitAddress <$> linkData b' ∧
  exitPtrs <$> linkData b = exitPtrs <$> linkData b'.
Proof.
  destruct b, b'.
  unfold shape, unlinked, set_linkData, set_fast_block_map_index; simpl.
  intros Heq. injection Heq as -> -> -> -> -> -> -> -> Hl.
  repeat split; try done.
  - apply (f_equal length) in Hl. by rewrite !length_fmap in Hl.
  - apply (f_equal (fmap exitAddress)) in Hl.
    by rewrite <- !list_fmap_compose in Hl.
  - apply (f_equal (fmap exitPtrs)) in Hl.
    by rewrite <- !list_fmap_compose in Hl.
Qed.

Lemma mm_deref_fmap (f : JitBlock → JitBlock) p m :
  mm_deref p ((λ kv, (kv.1, (kv.2.1, f kv.2.2))) <$> m) = f <$> mm_deref p m.
Proof.
  induction m as [|kv m IH]; simpl; [done|].
  case_decide; [done|apply IH].
Qed.

Lemma registry_shape_deref st st' q :
  registry_shape st = registry_shape st' →
  shape <$> deref q st = shape <$> deref q st'.
Proof.
  intros Hsh. unfold deref. rewrite <- !mm_deref_fmap.
  change (mm_deref q (registry_shape st) = mm_deref q (registry_shape st')).
  by rewrite Hsh.
Qed.

Lemma registry_shape_deref_Some st st' q b :
  registry_shape st = registry_shape st' → deref q st = Some b →
  ∃ b', deref q st' = Some b' ∧ shape b' = shape b.
Proof.
  intros Hsh Hb. pose proof (registry_shape_deref _ _ q Hsh) as Hq.
  rewrite Hb in Hq. destruct (deref q st') as [b'|]; [|done].
  change (Some (shape b) = Some (shape b')) in Hq.
  exists b'. split; [done|]. congruence.
Qed.

Lemma skeleton_registry_shape st st' :
  skeleton st = skeleton st' → registry_shape st = registry_shape st'.
Proof.
  intros Hsk.
  assert (∀ s, registry_shape s =
               (λ kv, (kv.1, (kv.2.1, set_fast_block_map_index 0 kv.2.2)))
                 <$> block_map (skeleton s)) as Hs.
  { intros s. unfold registry_shape, skeleton; simpl.
    rewrite <- list_fmap_compose. done. }
  by rewrite (Hs st), (Hs st'), Hsk.
Qed.

Lemma registry_shape_store p f m :
  (∀ b, shape (f b) = shape b) →
  (λ kv, (kv.1, (kv.2.1, shape kv.2.2))) <$> mm_store p f m =
  (λ kv, (kv.1, (kv.2.1, shape kv.2.2))) <$> m.
Proof.
  intros Hf. induction m as [|kv m IH]; simpl; [done|].
  case_decide; simpl.
  - by rewrite Hf.
  - f_equal. exact IH.
Qed.

Lemma lookup_shape key a m (l l' : list (Z * (Z * JitBlock))) :
  (λ kv, (kv.1, (kv.2.1, shape kv.2.2))) <$> l =
  (λ kv, (kv.1, (kv.2.1, shape kv.2.2))) <$> l' →
  (λ kv, (kv.2.1, shape kv.2.2)) <$>
    head (filter (λ kv, effectiveAddress kv.2.2 = a ∧ msrBits kv.2.2 = m)
            (mm_equal_range key l)) =
  (λ kv, (kv.2.1, shape kv.2.2)) <$>
    head (filter (λ kv, effectiveAddress kv.2.2 = a ∧ msrBits kv.2.2 = m)
            (mm_equal_range key l')).
Proof.
  revert l'. induction l as [|[k [p b]] l IH]; intros [|[k' [p' b']] l'] Heq;
    try done.
  rewrite !fmap_cons in Heq. simpl in Heq.
  assert (k = k') as -> by congruence.
  assert (p = p') as -> by congruence.
  assert (shape b = shape b') as Hsh by congruence.
  assert ((λ kv : Z * (Z * JitBlock), (kv.1, (kv.2.1, shape kv.2.2))) <$> l =
          (λ kv : Z * (Z * JitBlock), (kv.1, (kv.2.1, shape kv.2.2))) <$> l')
    as Hl by congruence.
  clear Heq.
  destruct (shape_fields _ _ Hsh) as (_ & Hea & Hmsr & _).
  unfold mm_equal_range. rewrite !filter_cons. simpl.
  case_decide; [|by apply IH].
  rewrite !filter_cons. simpl. rewrite Hea, Hmsr.
  case_decide; [simpl; by rewrite Hsh|by apply IH].
Qed.

Section Lookup.
Context `{Platform}.

Lemma GetBlockFromStartAddress_shape addr msr st st' :
  registry_shape st = registry_shape st' →
  (λ r, (r.1, shape r.2)) <$> GetBlockFromStartAddress addr msr st =
  (λ r, (r.1, shape r.2)) <$> GetBlockFromStartAddress addr msr st'.
Proof.
  intros Hsh. unfold GetBlockFromStartAddress.
  destruct (MSR_IR msr && negb _); [done|].
  rewrite <- !option_fmap_compose.
  by apply lookup_shape.
Qed.

Lemma GetBlockFromStartAddress_sole p b st :
  sole_block_for p b st → nodes_distinct st →
  GetBlockFromStartAddress (effectiveAddress b) (msrBits b) st = Some (p, b).
Proof.
  intros (Hvalid & Hin & Hmask & Hsole) Hnd. unfold GetBlockFromStartAddress.
  destruct (MSR_IR (msrBits b)) eqn:HIR; simpl.
  - rewrite Hvalid by done. simpl.
    set (key := TranslateResult.address _) in *.
    set (L := filter _ (mm_equal_range key (block_map st))).
    assert ((key, (p, b)) ∈ L) as HL.
    { apply list_elem_of_filter. split; [done|].
      apply list_elem_of_filter. done. }
    destruct L as [|x L'] eqn:HLeq; [by apply elem_of_nil in HL|]. simpl.
    assert (x ∈ L) as Hx by (rewrite HLeq; left). subst L.
    apply list_elem_of_filter in Hx as [[Hea Hmsr] Hx].
    apply list_elem_of_filter in Hx as [Hk Hx].
    rewrite Hmask in Hmsr.
    pose proof (Hsole x Hx Hea Hmsr) as Hp.
    pose proof (mm_deref_NoDup _ _ Hnd Hx) as Hd1.
    pose proof (mm_deref_NoDup _ _ Hnd Hin) as Hd2.
    simpl in Hd2. rewrite Hp, Hd2 in Hd1.
    destruct x as [k [q c]]; simpl in *. congruence.
  - set (key := effectiveAddress b) in *.
    set (L := filter _ (mm_equal_range key (block_map st))).
    assert ((key, (p, b)) ∈ L) as HL.
    { apply list_elem_of_filter. split; [done|].
      apply list_elem_of_filter. done. }
    destruct L as [|x L'] eqn:HLeq; [by apply elem_of_nil in HL|]. simpl.
    assert (x ∈ L) as Hx by (rewrite HLeq; left). subst L.
    apply list_elem_of_filter in Hx as [[Hea Hmsr] Hx].
    apply list_elem_of_filter in Hx as [Hk Hx].
    rewrite Hmask in Hmsr.
    pose proof (Hsole x Hx Hea Hmsr) as Hp.
    pose proof (mm_deref_NoDup _ _ Hnd Hx) as Hd1.
    pose proof (mm_deref_NoDup _ _ Hnd Hin) as Hd2.
    simpl in Hd2. rewrite Hp, Hd2 in Hd1.
    destruct x as [k [q c]]; simpl in *. congruence.
Qed.
End Lookup.

(** ** Linking an inbound exit *)

Lemma seq_split_at (i n : nat) :
  (i < n)%nat → seq 0 n = seq 0 i ++ i :: seq (S i) (n - S i).
Proof.
  intros Hi. replace n with (i + S (n - S i))%nat at 1 by lia.
  by rewrite seq_app.
Qed.

Section Inbound.
Context `{Platform}.
Variables (st : Cache) (pA : Z) (A : JitBlock) (i : nat) (e : LinkData).
Variables (pB : Z) (B : JitBlock).
Hypothesis HA : deref pA st = Some A.
Hypothesis Hi : linkData A !! i = Some e.
Hypothesis Hstatus : linkStatus e = false.
Hypothesis Htarget : exitAddress e = effectiveAddress B.
Hypothesis Hmsr : msrBits A = msrBits B.
Hypothesis Hsole : sole_block_for pB B st.
Hypothesis Hdistinct : nodes_distinct st.
Hypothesis Hsite : own_patch_site pA i e st.

Lemma inbound_site s q bq j e' :
  registry_shape s = registry_shape st →
  deref q s = Some bq → linkData bq !! j = Some e' →
  exitPtrs e' = exitPtrs e → q = pA ∧ j = i.
Proof.
  intros Hsh Hq Hj Hptr.
  destruct (registry_shape_deref_Some _ _ q bq Hsh Hq) as (b0 & Hb0 & Hshape).
  apply shape_fields in Hshape as (_ & _ & _ & _ & _ & Hptrs).
  assert ((exitPtrs <$> linkData b0) !! j = Some (exitPtrs e')) as Hj0.
  { rewrite Hptrs, list_lookup_fmap, Hj. done. }
  rewrite list_lookup_fmap in Hj0.
  destruct (linkData b0 !! j) as [e0|] eqn:He0; [|done].
  apply (Hsite q b0 j e0 Hb0 He0). simpl in Hj0. congruence.
Qed.

Lemma inbound_source s A' :
  registry_shape s = registry_shape st → deref pA s = Some A' →
  msrBits A' = msrBits B ∧ (i < length (linkData A'))%nat.
Proof.
  intros Hsh HA'.
  destruct (registry_shape_deref_Some _ _ pA A' Hsh HA') as (b0 & Hb0 & Hshape).
  assert (b0 = A) as -> by congruence.
  apply shape_fields in Hshape as (_ & _ & Hm & Hlen & _).
  split; [congruence|]. rewrite <- Hlen. by apply (lookup_lt_Some _ _ e).
Qed.

Lemma inbound_lookup s :
  registry_shape s = registry_shape st →
  ∃ d, GetBlockFromStartAddress (effectiveAddress B) (msrBits B) s = Some (pB, d) ∧
       checkedEntry d = checkedEntry B.
Proof.
  intros Hsh.
  pose proof (GetBlockFromStartAddress_shape (effectiveAddress B) (msrBits B) _ _ Hsh)
    as Hget.
  rewrite (GetBlockFromStartAddress_sole pB B st Hsole Hdistinct) in Hget.
  destruct (GetBlockFromStartAddress _ _ s) as [[q d]|]; [|done].
  change (Some (q, shape d) = Some (pB, shape B)) in Hget.
  assert (q = pB) as -> by congruence.
  assert (shape d = shape B) as Hshape by congruence.
  exists d. split; [done|]. by apply shape_fields in Hshape as (-> & _).
Qed.

(** One turn of the loop of [LinkBlockExits], anywhere in the cache: a
    linked exit stays linked, and a pending one is linked by the turn at
    its own block and number and stays pending otherwise. *)
Lemma link_exit_inbound q j s s' :
  registry_shape s = registry_shape st →
  link_exit q j s = Some s' →
  (exit_linked pA i e (checkedEntry B) s → exit_linked pA i e (checkedEntry B) s') ∧
  (exit_pending pA i e s →
     (q = pA ∧ j = i → exit_linked pA i e (checkedEntry B) s') ∧
     (¬ (q = pA ∧ j = i) → exit_pending pA i e s')).
Proof.
  intros Hsh Hrun. unfold link_exit in Hrun.
  bind_inv Hrun as bq Hq. bind_inv Hrun as e' He'.
  destruct (linkStatus e') eqn:Hst'.
  { injection Hrun as <-. split; [done|]. intros (A' & HA' & Hi'). split.
    - intros [-> ->]. congruence.
    - intros _. by exists A'. }
  destruct (GetBlockFromStartAddress _ _ s) as [[dq d]|] eqn:Hget;
    injection Hrun as <-.
  2:{ split; [done|]. intros (A' & HA' & Hi'). split.
      - intros [-> ->].
        assert (bq = A') as -> by congruence.
        assert (e' = e) as -> by congruence.
        destruct (inbound_source s A' Hsh HA') as [Hm _].
        destruct (inbound_lookup s Hsh) as (d & Hd & _).
        congruence.
      - intros _. by exists A'. }
  split.
  - intros (A' & HA' & Hi' & Hs').
    assert (¬ (q = pA ∧ j = i)) as Hne.
    { intros [-> ->]. assert (bq = A') as -> by congruence.
      rewrite Hi' in He'. injection He' as <-. done. }
    assert (exitPtrs e' ≠ exitPtrs e) as Hptr.
    { intros Heq. apply Hne. by apply (inbound_site s q bq j e'). }
    unfold exit_linked. rewrite deref_update_block.
    change (deref q (WriteLinkBlock e' (Some d) s)) with (deref q s).
    change (deref pA (WriteLinkBlock e' (Some d) s)) with (deref pA s).
    destruct (decide (pA = q)) as [<-|Hpq].
    + rewrite HA'. eexists. split; [done|]. simpl. split.
      * rewrite list_lookup_insert_ne; [done|]. intros ->. by apply Hne.
      * by rewrite lookup_insert_ne.
    + exists A'. split; [done|]. split; [done|]. simpl.
      by rewrite lookup_insert_ne.
  - intros (A' & HA' & Hi'). split.
    + intros [-> ->].
      assert (bq = A') as -> by congruence.
      assert (e' = e) as -> by congruence.
      destruct (inbound_source s A' Hsh HA') as [Hm Hlen].
      destruct (inbound_lookup s Hsh) as (d0 & Hd0 & Hentry).
      rewrite Htarget, Hm, Hd0 in Hget. injection Hget as <- <-.
      unfold exit_linked. rewrite deref_update_block, decide_True by done.
      change (deref pA (WriteLinkBlock e (Some d0) s)) with (deref pA s).
      rewrite HA'. eexists. split; [done|]. simpl. split.
      * by apply list_lookup_insert_eq.
      * rewrite lookup_insert_eq. by rewrite Hentry.
    + intros Hne. unfold exit_pending. rewrite deref_update_block.
      change (deref q (WriteLinkBlock e' (Some d) s)) with (deref q s).
      change (deref pA (WriteLinkBlock e' (Some d) s)) with (deref pA s).
      destruct (decide (pA = q)) as [<-|Hpq].
      * rewrite HA'. eexists. split; [done|]. simpl.
        rewrite list_lookup_insert_ne; [done|]. intros ->. by apply Hne.
      * by exists A'.
Qed.

Lemma link_exit_shape q j s s' :
  registry_shape s = registry_shape st → link_exit q j s = Some s' →
  registry_shape s' = registry_shape st.
Proof.
  intros Hsh Hrun. rewrite <- Hsh.
  by apply skeleton_registry_shape, (link_exit_skeleton q j).
Qed.

Lemma link_exits_inbound q l s s' :
  registry_shape s = registry_shape st →
  for_each (link_exit q) l s = Some s' →
  registry_shape s' = registry_shape st ∧
  (exit_linked pA i e (checkedEntry B) s → exit_linked pA i e (checkedEntry B) s') ∧
  (exit_pending pA i e s ∨ exit_linked pA i e (checkedEntry B) s →
   exit_pending pA i e s' ∨ exit_linked pA i e (checkedEntry B) s').
Proof.
  intros Hsh Hrun. split; [|split].
  - revert Hrun.
    apply (for_each_inv (λ x, registry_shape x = registry_shape st)); [|done].
    intros j x x' _. apply link_exit_shape.
  - intros Hl.
    assert (registry_shape s' = registry_shape st ∧
            exit_linked pA i e (checkedEntry B) s') as [_ ?]; [|done].
    revert Hrun.
    apply (for_each_inv (λ x, registry_shape x = registry_shape st ∧
                              exit_linked pA i e (checkedEntry B) x)); [|done].
    intros j x x' _ [Hx Hlx] Hstep. split; [by apply (link_exit_shape q j x)|].
    destruct (link_exit_inbound q j x x' Hx Hstep) as [Hkeep _]. by apply Hkeep.
  - intros HJ.
    assert (registry_shape s' = registry_shape st ∧
            (exit_pending pA i e s' ∨ exit_linked pA i e (checkedEntry B) s'))
      as [_ ?]; [|done].
    revert Hrun.
    apply (for_each_inv
             (λ x, registry_shape x = registry_shape st ∧
                   (exit_pending pA i e x ∨ exit_linked pA i e (checkedEntry B) x)));
      [|done].
    intros j x x' _ [Hx HJx] Hstep. split; [by apply (link_exit_shape q j x)|].
    destruct (link_exit_inbound q j x x' Hx Hstep) as [Hlinked Hpending].
    destruct HJx as [Hp|Hl]; [|by right; apply Hlinked].
    destruct (Hpending Hp) as [Hyes Hno].
    destruct (decide (q = pA ∧ j = i)); [right; by apply Hyes|left; by apply Hno].
Qed.

(** [LinkBlockExits] on any block keeps a linked exit linked; on the block
    of the pending exit, it links it. *)
Lemma LinkBlockExits_inbound q s s' :
  registry_shape s = registry_shape st →
  LinkBlockExits q s = Some s' →
  registry_shape s' = registry_shape st ∧
  (exit_linked pA i e (checkedEntry B) s → exit_linked pA i e (checkedEntry B) s') ∧
  (exit_pending pA i e s ∨ exit_linked pA i e (checkedEntry B) s →
   (exit_pending pA i e s' ∨ exit_linked pA i e (checkedEntry B) s') ∧
   (q = pA → exit_linked pA i e (checkedEntry B) s')).
Proof.
  intros Hsh Hrun. unfold LinkBlockExits in Hrun. bind_inv Hrun as bq Hq.
  destruct (link_exits_inbound q _ s s' Hsh Hrun) as (Hsh' & Hl & HJ).
  split; [done|]. split; [done|]. intros HJs. split; [by apply HJ|].
  intros ->.
  destruct (inbound_source s bq Hsh Hq) as [_ Hlen].
  rewrite (seq_split_at i _ Hlen), for_each_app in Hrun.
  bind_inv Hrun as s1 H1. simpl in Hrun. bind_inv Hrun as s2 H2.
  destruct (link_exits_inbound pA _ s s1 Hsh H1) as (Hsh1 & _ & HJ1).
  destruct (link_exit_inbound pA i s1 s2 Hsh1 H2) as [Hlinked Hpending].
  pose proof (link_exit_shape pA i s1 s2 Hsh1 H2) as Hsh2.
  destruct (link_exits_inbound pA _ s2 s' Hsh2 Hrun) as (_ & Hl2 & _).
  apply Hl2. destruct (HJ1 HJs) as [Hp|Hlk]; [|by apply Hlinked].
  by apply (Hpending Hp).
Qed.

Lemma link_sources_inbound (block : JitBlock) (L : list (Z * Z)) s s' :
  registry_shape s = registry_shape st →
  for_each
    (λ kv x,
       b2 ← deref kv.2 x;
       if decide (msrBits block = msrBits b2) then LinkBlockExits kv.2 x else Some x)
    L s = Some s' →
  registry_shape s' = registry_shape st ∧
  (exit_linked pA i e (checkedEntry B) s → exit_linked pA i e (checkedEntry B) s') ∧
  (exit_pending pA i e s ∨ exit_linked pA i e (checkedEntry B) s →
   exit_pending pA i e s' ∨ exit_linked pA i e (checkedEntry B) s').
Proof.
  intros Hsh Hrun. split; [|split].
  - revert Hrun.
    apply (for_each_inv (λ x, registry_shape x = registry_shape st)); [|done].
    intros kv x x' _ Hx Hstep. bind_inv Hstep as b2 Hb2.
    case_decide; [|by injection Hstep as <-].
    by destruct (LinkBlockExits_inbound kv.2 x x' Hx Hstep) as (? & _).
  - intros Hl.
    assert (registry_shape s' = registry_shape st ∧
            exit_linked pA i e (checkedEntry B) s') as [_ ?]; [|done].
    revert Hrun.
    apply (for_each_inv (λ x, registry_shape x = registry_shape st ∧
                              exit_linked pA i e (checkedEntry B) x)); [|done].
    intros kv x x' _ [Hx Hlx] Hstep. bind_inv Hstep as b2 Hb2.
    case_decide; [|by injection Hstep as <-].
    destruct (LinkBlockExits_inbound kv.2 x x' Hx Hstep) as (? & Hkeep & _).
    split; [done|]. by apply Hkeep.
  - intros HJ.
    assert (registry_shape s' = registry_shape st ∧
            (exit_pending pA i e s' ∨ exit_linked pA i e (checkedEntry B) s'))
      as [_ ?]; [|done].
    revert Hrun.
    apply (for_each_inv
             (λ x, registry_shape x = registry_shape st ∧
                   (exit_pending pA i e x ∨ exit_linked pA i e (checkedEntry B) x)));
      [|done].
    intros kv x x' _ [Hx HJx] Hstep. bind_inv Hstep as b2 Hb2.
    case_decide; [|by injection Hstep as <-].
    destruct (LinkBlockExits_inbound kv.2 x x' Hx Hstep) as (? & _ & HJ').
    split; [done|]. by apply HJ'.
Qed.

(** C8. Block [A] has exit number [i], [e], not linked, to the effective
    address of block [B]; the MSR bits of the two are the same, and [A] is
    in the link graph under that address. [B] is the one block the
    registry holds for its effective address and MSR bits. Then
    [FinalizeBlock] of [B] with [block_link] set completes, and after it
    [e] is linked and the jump at its patch site goes to the
    [checkedEntry] of [B]. The registry has distinct node addresses, the
    link graph has no dangling pointer, the patch site of [e] belongs to
    no other exit, and the bucket loop of [B] ends. *)
Theorem FinalizeBlock_links_inbound_exit :
  buckets_end B → links_live st → (effectiveAddress B, pA) ∈ links_to st →
  ∃ st',
    FinalizeBlock pB true st = Some st' ∧
    exit_linked pA i e (checkedEntry B) st'.
Proof.
  intros Hend Hlive Hgraph.
  assert (deref pB st = Some B) as HB.
  { destruct Hsole as (_ & Hin & _). apply (mm_deref_NoDup _ _ Hdistinct Hin). }
  destruct (FinalizeBlock_unfold pB true st B HB (block_buckets_total B Hend))
    as (st4 & -> & Hm4 & Hl4 & _).
  set (st5 := set_links_to _ st4).
  set (index := FastLookupIndexForAddress (effectiveAddress B)) in *.
  assert (∀ q, deref q st5 =
               if decide (q = pB)
               then set_fast_block_map_index index <$> deref pB st
               else deref q st) as Hd5.
  { intros q. unfold deref. change (block_map st5) with (block_map st4).
    rewrite Hm4. apply mm_deref_store. }
  assert (∀ x, x ∈ links_to st5 ↔
               x ∈ links_to st ∨ ∃ e0, e0 ∈ linkData B ∧ x = (exitAddress e0, pB)) as Hl5.
  { intros x. change (links_to st5) with
      (foldl (λ l1 e0, mm_emplace (exitAddress e0) pB l1) (links_to st4) (linkData B)).
    rewrite Hl4. apply foldl_emplace_elem. }
  assert (is_Some (deref pB st5)) as Hp5.
  { rewrite Hd5, decide_True, HB by done. eauto. }
  assert (links_live st5) as Hlive5.
  { intros k q [Hin|(e0 & _ & Heq)]%Hl5.
    - rewrite Hd5. case_decide; [rewrite HB; simpl; eauto|]. by apply (Hlive k).
    - by injection Heq as -> ->. }
  assert (registry_shape st5 = registry_shape st) as Hsh5.
  { unfold registry_shape. change (block_map st5) with (block_map st4).
    rewrite Hm4. apply registry_shape_store. intros b. done. }
  assert (exit_pending pA i e st5) as Hpend5.
  { unfold exit_pending. rewrite Hd5. case_decide as Hp.
    - subst pA. rewrite HB. simpl. eexists. split; [done|].
      assert (A = B) as <- by congruence. done.
    - by exists A. }
  destruct (LinkBlock_total pB st5 Hp5 Hlive5) as [st' Hrun].
  exists st'. split; [done|].
  unfold LinkBlock in Hrun. bind_inv Hrun as s1 H1. bind_inv Hrun as block Hblock.
  destruct (LinkBlockExits_inbound pB st5 s1 Hsh5 H1) as (Hsh1 & _ & HJ1).
  destruct (HJ1 (or_introl Hpend5)) as [HJs1 _].
  destruct (registry_shape_deref_Some _ _ pB block Hsh1 Hblock) as (b0 & Hb0 & Hshape).
  assert (b0 = B) as -> by congruence.
  apply shape_fields in Hshape as (_ & Hea & Hmb & _).
  assert (links_to s1 = links_to st5) as Hl1.
  { apply LinkBlockExits_skeleton in H1. by apply skeleton_fields in H1 as (? & _). }
  assert ((effectiveAddress B, pA) ∈
          mm_equal_range (effectiveAddress block) (links_to s1)) as Hin.
  { apply list_elem_of_filter. split; [by simpl|].
    rewrite Hl1. apply Hl5. by left. }
  destruct (list_elem_of_split _ _ Hin) as (L1 & L2 & HL).
  rewrite HL, for_each_app in Hrun. bind_inv Hrun as s2 H2.
  simpl in Hrun. bind_inv Hrun as s3 H3. bind_inv H3 as b2 Hb2.
  destruct (link_sources_inbound block L1 s1 s2 Hsh1 H2) as (Hsh2 & _ & HJ2).
  destruct (inbound_source s2 b2 Hsh2 Hb2) as [Hm2 _].
  rewrite decide_True in H3 by congruence.
  destruct (LinkBlockExits_inbound pA s2 s3 Hsh2 H3) as (Hsh3 & _ & HJ3).
  destruct (HJ3 (HJ2 HJs1)) as [_ Hlinked3].
  destruct (link_sources_inbound block L2 s3 st' Hsh3 Hrun) as (_ & Hkeep & _).
  by apply Hkeep, Hlinked3.
Qed.
End Inbound.

Lemma own_patch_site_check p i e st :
  forallb
    (λ kv, forallb
             (λ je, negb (exitPtrs je.2 =? exitPtrs e) ||
                    ((kv.2.1 =? p) && (je.1 =? i)%nat))
             (imap pair (linkData kv.2.2)))
    (block_map st) = true →
  own_patch_site p i e st.
Proof.
  rewrite forallb_forall. intros Hall q bq j e' Hq Hj Hptr.
  destruct (mm_deref_elem _ _ _ Hq) as [k Hk].
  apply list_elem_of_In, Hall in Hk. simpl in Hk.
  rewrite forallb_forall in Hk.
  assert ((j, e') ∈ imap pair (linkData bq)) as Hin.
  { apply list_elem_of_lookup. exists j. by rewrite list_lookup_imap, Hj. }
  apply list_elem_of_In, Hk in Hin. simpl in Hin.
  rewrite Hptr, Z.eqb_refl in Hin. simpl in Hin.
  apply andb_prop in Hin as [Hqp Hji].
  split; [by apply Z.eqb_eq|by apply Nat.eqb_eq].
Qed.

Lemma FinalizeBlock_links_inbound_exit_witness :
  is_Some (FinalizeBlock (H := Scenario.platform) 2 true Scenario.B_allocated).
Proof.
  destruct (FinalizeBlock_links_inbound_exit (H := Scenario.platform)
              Scenario.B_allocated 1
              (mkJitBlock 0x7100 0x7110 0x1000 0x30 0x1000 16 1 0
                 [Scenario.exit_to_0x2000] 0)
              0%nat Scenario.exit_to_0x2000 2
              (mkJitBlock 0x7200 0x7210 0x2000 0x30 0x2000 16 1 0 [] 0))
    as (st' & Hrun & _).
  - vm_compute. reflexivity.
  - reflexivity.
  - reflexivity.
  - reflexivity.
  - reflexivity.
  - split; [intros _; reflexivity|]. split; [vm_compute; right; left|].
    split; [reflexivity|]. intros kv Hin Hea _.
    apply list_elem_of_In in Hin. vm_compute in Hin.
    destruct Hin as [<-|[<-|[]]]; [discriminate Hea|reflexivity].
  - apply nodes_distinct_check. vm_compute. reflexivity.
  - apply own_patch_site_check. vm_compute. reflexivity.
  - vm_compute. split; reflexivity.
  - apply links_live_check. vm_compute. reflexivity.
  - vm_compute. left.
  - rewrite Hrun. eauto.
Defined.

(** ** Caches built by allocation and finalization *)

Lemma land_bounds a b : 0 ≤ b → 0 ≤ Z.land a b ≤ b.
Proof.
  intros Hb. split.
  - apply Z.land_nonneg. by right.
  - rewrite Z.land_comm. pose proof (Z.sub_land_same_l b a) as Hs.
    assert (0 ≤ Z.land b (Z.lnot a)) by (apply Z.land_nonneg; by left). lia.
Qed.

Section Built.
Context `{Platform}.
Hypothesis Hmask : 0 ≤ FAST_BLOCK_MAP_MASK.

Lemma FinalizeBlock_keeps_ready p link st st' :
  links_live st → slots_in_range st →
  FinalizeBlock p link st = Some st' →
  links_live st' ∧ slots_in_range st'.
Proof.
  intros Hlive Hslots Hrun.
  assert (∃ b, deref p st = Some b ∧ is_Some (block_buckets b)) as (b & Hp & Hsome).
  { unfold FinalizeBlock in Hrun. destruct (deref p st) as [b|]; [|done].
    exists b. split; [done|]. cbn [mbind option_bind] in Hrun.
    destruct (block_buckets b); [eauto|done]. }
  destruct (FinalizeBlock_unfold p link st b Hp Hsome)
    as (st4 & Heq & Hm4 & Hl4 & _).
  rewrite Heq in Hrun. clear Heq.
  set (index := FastLookupIndexForAddress (effectiveAddress b)) in *.
  assert (∀ q, deref q st4 =
               if decide (q = p)
               then set_fast_block_map_index index <$> deref p st
               else deref q st) as Hd4.
  { intros q. unfold deref. rewrite Hm4. apply mm_deref_store. }
  assert (∀ q, is_Some (deref q st) → is_Some (deref q st4)) as Hkeep.
  { intros q Hq. rewrite Hd4. case_decide; [subst q; rewrite Hp; simpl; eauto|done]. }
  assert (slots_in_range st4) as Hslots4.
  { intros q b' Hq. rewrite Hd4 in Hq. case_decide; [|by apply (Hslots q)].
    rewrite Hp in Hq. injection Hq as <-. apply land_bounds, Hmask. }
  destruct link.
  - set (st5 := set_links_to _ st4) in Hrun.
    apply LinkBlock_skeleton in Hrun.
    destruct (skeleton_fields _ _ Hrun) as (Hl & _).
    split.
    + intros k q Hin. rewrite Hl in Hin.
      apply (skeleton_live st5); [done|].
      change (is_Some (deref q st4)).
      change (links_to st5) with
        (foldl (λ l1 e, mm_emplace (exitAddress e) p l1) (links_to st4) (linkData b))
        in Hin.
      rewrite Hl4 in Hin. apply foldl_emplace_elem in Hin as [Hin|(e & _ & Heq)].
      * by apply Hkeep, (Hlive k).
      * injection Heq as -> ->. apply Hkeep. eauto.
    + intros q b' Hq.
      destruct (skeleton_deref_Some _ _ q b' Hrun Hq) as (b5 & Hb5 & Hun).
      apply unlinked_fields in Hun as (_&_&_&_&_&_&Hidx&_).
      rewrite <- Hidx. by apply (Hslots4 q).
  - injection Hrun as <-. split; [|done].
    intros k q Hin. rewrite Hl4 in Hin. by apply Hkeep, (Hlive k).
Qed.

Lemma built_ready st : built st → links_live st ∧ slots_in_range st.
Proof.
  induction 1 as [|MSR p em st _ [Hlive Hslots] Hfresh
                  |p f st _ [Hlive Hslots] Hf
                  |p link st st' _ [Hlive Hslots] Hrun].
  - split; [intros k q []%elem_of_nil|intros q b [=]].
  - split.
    + intros k q Hin. destruct (Hlive k q Hin) as [b Hb].
      unfold deref; simpl. rewrite mm_deref_emplace_other; [by eauto|].
      intros ->. congruence.
    + intros q b. unfold deref; simpl. destruct (decide (q = p)) as [->|Hq].
      * rewrite mm_deref_emplace_fresh by done. intros [= <-]. simpl. lia.
      * rewrite mm_deref_emplace_other by done. apply Hslots.
  - split.
    + intros k q Hin. by apply update_block_live, (Hlive k).
    + intros q b. rewrite deref_update_block. case_decide; [|apply Hslots].
      destruct (deref p st) as [b0|] eqn:Hp; [|done].
      intros [= <-]. rewrite Hf. by apply (Hslots p).
  - by apply (FinalizeBlock_keeps_ready p link st).
Qed.

(** After any sequence of [AllocateBlock] and [FinalizeBlock] calls,
    [Clear] completes and leaves the empty cache, up to the jumps it
    patched in the host code. *)
Corollary Clear_after_allocate_finalize st :
  built st →
  ∃ sites, Clear st = Some (set_patch_sites (λ _, sites) empty_cache).
Proof.
  intros [Hlive Hslots]%built_ready. by apply Clear_spec.
Qed.
End Built.

(** * Further properties of the cache operations *)

(** ** Slot numbers and overlap *)

Section Slots.
Context `{Platform}.

(** X1. Whatever the address, the slot number computed for it is one of
    the fast map, as soon as the mask is not negative. *)
Theorem FastLookupIndexForAddress_in_range addr :
  0 ≤ FAST_BLOCK_MAP_MASK →
  0 ≤ FastLookupIndexForAddress addr ≤ FAST_BLOCK_MAP_MASK.
Proof. intros Hmask. by apply land_bounds. Qed.
End Slots.

Lemma FastLookupIndexForAddress_in_range_witness :
  0 ≤ FastLookupIndexForAddress (H := Scenario.platform) 0x80001004 ≤ 3.
Proof.
  apply (FastLookupIndexForAddress_in_range (H := Scenario.platform) 0x80001004).
  vm_compute. discriminate.
Defined.

(** X2. When neither sum wraps around and both lengths are positive,
    [Overlap] answers yes exactly when some address lies both in
    [physicalAddress .. physicalAddress + originalSize) and in
    [addr .. addr + length). *)
Theorem Overlap_common_address b addr length :
  0 < originalSize b → 0 < length →
  0 ≤ physicalAddress b → physicalAddress b + originalSize b < 2 ^ 32 →
  0 ≤ addr → addr + length < 2 ^ 32 →
  Overlap b addr length = true ↔
  ∃ x, physicalAddress b ≤ x < physicalAddress b + originalSize b ∧
       addr ≤ x < addr + length.
Proof.
  intros Hs Hl Hp Hps Ha Hal. rewrite Overlap_true.
  unfold u32. rewrite !Z.mod_small by lia. split.
  - intros [H1 H2]. exists (Z.max addr (physicalAddress b)). lia.
  - intros (x & ? & ?). lia.
Qed.

Lemma Overlap_common_address_witness :
  Overlap (mkJitBlock 0 0 0x80001000 0x30 0x1000 0 4 0 [] 0) 0x1002 4 = true.
Proof.
  apply (Overlap_common_address
           (mkJitBlock 0 0 0x80001000 0x30 0x1000 0 4 0 [] 0) 0x1002 4);
    try (simpl; lia).
  exists 0x1002. simpl. lia.
Defined.

(** ** Lookup in the registry *)

Lemma mm_emplace_split {V} k (v : V) m :
  ∃ l1 l2, m = l1 ++ l2 ∧ mm_emplace k v m = l1 ++ (k, v) :: l2.
Proof.
  induction m as [|kv m (l1 & l2 & Hm & He)]; simpl.
  - by exists [], [].
  - destruct (k <? kv.1).
    + by exists [], (kv :: m).
    + exists (kv :: l1), l2. simpl. by rewrite <- Hm, He.
Qed.

Section Lookup_spec.
Context `{Platform}.

(** The registry key that a lookup of [addr] under [msr] goes to. *)
Lemma GetBlockFromStartAddress_unfold addr msr st :
  GetBlockFromStartAddress addr msr st =
  if MSR_IR msr && negb (TranslateResult.valid (JitCache_TranslateAddress addr))
  then None
  else snd <$> head (filter
         (λ kv, effectiveAddress kv.2.2 = addr ∧
                msrBits kv.2.2 = Z.land msr JIT_CACHE_MSR_MASK)
         (mm_equal_range
            (if MSR_IR msr
             then TranslateResult.address (JitCache_TranslateAddress addr)
             else addr) (block_map st))).
Proof. done. Qed.

(** X3. [GetBlockFromStartAddress] finds nothing exactly when the
    translation it needs fails or the registry has, under the key it looks
    at, no block of that effective address and masked MSR; and a block it
    returns is a node of the registry under that key, with that effective
    address and masked MSR. *)
Theorem GetBlockFromStartAddress_spec addr msr st :
  let key := if MSR_IR msr
             then TranslateResult.address (JitCache_TranslateAddress addr)
             else addr in
  (GetBlockFromStartAddress addr msr st = None ↔
     (MSR_IR msr = true ∧
      TranslateResult.valid (JitCache_TranslateAddress addr) = false) ∨
     ∀ q b, (key, (q, b)) ∈ block_map st →
       ¬ (effectiveAddress b = addr ∧ msrBits b = Z.land msr JIT_CACHE_MSR_MASK)) ∧
  (∀ q b, GetBlockFromStartAddress addr msr st = Some (q, b) →
     (key, (q, b)) ∈ block_map st ∧
     effectiveAddress b = addr ∧ msrBits b = Z.land msr JIT_CACHE_MSR_MASK).
Proof.
  intros key. rewrite GetBlockFromStartAddress_unfold. fold key.
  set (L := filter _ (mm_equal_range key (block_map st))).
  assert (∀ x, x ∈ L ↔
            (effectiveAddress x.2.2 = addr ∧
             msrBits x.2.2 = Z.land msr JIT_CACHE_MSR_MASK) ∧
            x.1 = key ∧ x ∈ block_map st) as HL.
  { intros x. subst L. unfold mm_equal_range.
    by rewrite !list_elem_of_filter. }
  destruct (MSR_IR msr && negb _) eqn:Hc.
  { apply andb_true_iff in Hc as [HIR Hv%negb_true_iff].
    split; [|by intros q b [=]]. split; [intros _; left; by split|done]. }
  assert (¬ (MSR_IR msr = true ∧
             TranslateResult.valid (JitCache_TranslateAddress addr) = false))
    as Hok.
  { intros [HIR Hv]. by rewrite HIR, Hv in Hc. }
  split; [split|].
  - intros Hnone. right. intros q b Hin Hmatch.
    destruct L as [|x L'] eqn:HLeq; [|done].
    apply (elem_of_nil (key, (q, b))). by apply HL.
  - intros [Hfail|Hno]; [done|].
    destruct L as [|[k [q b]] L'] eqn:HLeq; [done|].
    assert ((k, (q, b)) ∈ (k, (q, b)) :: L') as Hin by left.
    apply HL in Hin as (Hmatch & Hk & Hin). simpl in Hk. subst k.
    destruct (Hno q b Hin Hmatch).
  - intros q b Hget. destruct L as [|[k [q' b']] L'] eqn:HLeq; [done|].
    injection Hget as -> ->.
    assert ((k, (q, b)) ∈ (k, (q, b)) :: L') as Hin by left.
    apply HL in Hin as ([? ?] & Hk & Hin). simpl in Hk. by subst k.
Qed.

Lemma block_map_AllocateBlock MSR p em st :
  block_map (AllocateBlock MSR p em st).2 =
  mm_emplace (TranslateResult.address (JitCache_TranslateAddress em))
    (p, mkJitBlock 0 0 em (Z.land MSR JIT_CACHE_MSR_MASK)
          (TranslateResult.address (JitCache_TranslateAddress em)) 0 0 0 [] 0)
    (block_map st).
Proof. done. Qed.

(** X4. A block just allocated is the one a lookup of its effective
    address finds, when the registry had none for that address and MSR and
    the lookup goes to the key the block was registered under. *)
Theorem AllocateBlock_then_lookup MSR p em st :
  let msr := Z.land MSR JIT_CACHE_MSR_MASK in
  (if MSR_IR msr
   then TranslateResult.valid (JitCache_TranslateAddress em) = true
   else TranslateResult.address (JitCache_TranslateAddress em) = em) →
  GetBlockFromStartAddress em msr st = None →
  ∃ b,
    GetBlockFromStartAddress em msr (AllocateBlock MSR p em st).2 = Some (p, b) ∧
    effectiveAddress b = em ∧ msrBits b = msr ∧ linkData b = [].
Proof.
  intros msr Hkey Hnone.
  exists (mkJitBlock 0 0 em msr
            (TranslateResult.address (JitCache_TranslateAddress em)) 0 0 0 [] 0).
  split; [|done].
  rewrite GetBlockFromStartAddress_unfold in *. fold msr in Hnone |- *.
  assert (MSR_IR msr && negb (TranslateResult.valid (JitCache_TranslateAddress em))
          = false) as Hok.
  { destruct (MSR_IR msr); [|done]. by rewrite Hkey. }
  rewrite Hok in *.
  assert ((if MSR_IR msr
           then TranslateResult.address (JitCache_TranslateAddress em)
           else em) = TranslateResult.address (JitCache_TranslateAddress em))
    as Hk by (destruct (MSR_IR msr); done).
  rewrite Hk in *. rewrite block_map_AllocateBlock. fold msr.
  set (key := TranslateResult.address (JitCache_TranslateAddress em)) in *.
  destruct (mm_emplace_split key (p, mkJitBlock 0 0 em msr key 0 0 0 [] 0)
              (block_map st)) as (l1 & l2 & Hm & ->).
  rewrite Hm in Hnone. unfold mm_equal_range in *.
  rewrite !filter_app in Hnone.
  rewrite !filter_app, !filter_cons. simpl.
  rewrite decide_True by done. rewrite filter_cons. simpl.
  rewrite decide_True
    by (split; [done|]; unfold msr; by rewrite <- Z.land_assoc, Z.land_diag).
  destruct (filter _ (filter _ l1)) as [|x L1]; [done|]. simpl in Hnone. done.
Qed.

(** X5. Allocating a block changes no lookup of another effective address
    or of another masked MSR. *)
Theorem AllocateBlock_other_lookups MSR p em st addr msr :
  addr ≠ em ∨ Z.land msr JIT_CACHE_MSR_MASK ≠ Z.land MSR JIT_CACHE_MSR_MASK →
  GetBlockFromStartAddress addr msr (AllocateBlock MSR p em st).2 =
  GetBlockFromStartAddress addr msr st.
Proof.
  intros Hother. rewrite !GetBlockFromStartAddress_unfold.
  destruct (MSR_IR msr && negb _); [done|]. rewrite block_map_AllocateBlock.
  set (key := TranslateResult.address (JitCache_TranslateAddress em)).
  destruct (mm_emplace_split key
              (p, mkJitBlock 0 0 em (Z.land MSR JIT_CACHE_MSR_MASK) key 0 0 0 [] 0)
              (block_map st)) as (l1 & l2 & Hm & ->).
  rewrite Hm. unfold mm_equal_range. rewrite !filter_app, !filter_cons. simpl.
  case_decide; [|done]. rewrite filter_cons. simpl.
  rewrite decide_False; [done|]. intros [? ?]. destruct Hother; congruence.
Qed.
End Lookup_spec.

Lemma AllocateBlock_then_lookup_witness :
  is_Some (GetBlockFromStartAddress (H := Scenario.platform) 0x80001004 0x30
             (AllocateBlock (H := Scenario.platform) 0x30 2 0x80001004
                Scenario.one_block_cache).2).
Proof.
  destruct (AllocateBlock_then_lookup (H := Scenario.platform) 0x30 2 0x80001004
              Scenario.one_block_cache) as (b & Hget & _).
  - vm_compute. reflexivity.
  - vm_compute. reflexivity.
  - exists (2, b). exact Hget.
Defined.

Lemma AllocateBlock_other_lookups_witness :
  GetBlockFromStartAddress (H := Scenario.platform) 0x80001000 0x30
    (AllocateBlock (H := Scenario.platform) 0x30 2 0x80001004
       Scenario.one_block_cache).2 =
  GetBlockFromStartAddress (H := Scenario.platform) 0x80001000 0x30
    Scenario.one_block_cache.
Proof.
  apply (AllocateBlock_other_lookups (H := Scenario.platform)).
  left. discriminate.
Defined.

(** ** What FinalizeBlock publishes *)

Lemma foldl_valid_block (l : list Z) st :
  let st' := foldl (λ s addr, set_valid_block (ValidBlockBitSet_Set addr) s) st l in
  (∀ c, c ∈ valid_block st' ↔ c ∈ valid_block st ∨ c ∈ l) ∧
  block_map st' = block_map st ∧ links_to st' = links_to st ∧
  block_range_map st' = block_range_map st ∧
  fast_block_map st' = fast_block_map st ∧
  fifoWriteAddresses st' = fifoWriteAddresses st ∧
  pairedQuantizeAddresses st' = pairedQuantizeAddresses st ∧
  patch_sites st' = patch_sites st.
Proof.
  revert st. induction l as [|a l IH]; intros st; simpl.
  - split; [|done]. intros c. rewrite elem_of_nil. tauto.
  - destruct (IH (set_valid_block (ValidBlockBitSet_Set a) st))
      as (Hv & Hm & Hl & Hr & Hf & Hh1 & Hh2 & Hs).
    split; [|done]. intros c. rewrite Hv, elem_of_cons. simpl.
    unfold ValidBlockBitSet_Set. rewrite elem_of_union, elem_of_singleton. tauto.
Qed.

Lemma foldl_block_range_map (p : Z) (l : list Z) st :
  let st' :=
    foldl (λ s addr,
             set_block_range_map (λ m, <[addr := {[p]} ∪ bucket_at addr m]> m) s)
      st l in
  (∀ a, bucket_at a (block_range_map st') =
        if decide (a ∈ l) then {[p]} ∪ bucket_at a (block_range_map st)
        else bucket_at a (block_range_map st)) ∧
  block_map st' = block_map st ∧ links_to st' = links_to st ∧
  valid_block st' = valid_block st ∧
  fast_block_map st' = fast_block_map st ∧
  fifoWriteAddresses st' = fifoWriteAddresses st ∧
  pairedQuantizeAddresses st' = pairedQuantizeAddresses st ∧
  patch_sites st' = patch_sites st.
Proof.
  revert st. induction l as [|x l IH]; intros st; simpl.
  - done.
  - destruct (IH (set_block_range_map
                    (λ m, <[x := {[p]} ∪ bucket_at x m]> m) st))
      as (Hb & Hm & Hl & Hv & Hf & Hh1 & Hh2 & Hs).
    split; [|done]. intros a. rewrite Hb. simpl.
    assert (bucket_at a (<[x := {[p]} ∪ bucket_at x (block_range_map st)]>
                           (block_range_map st)) =
            if decide (a = x) then {[p]} ∪ bucket_at a (block_range_map st)
            else bucket_at a (block_range_map st)) as ->.
    { unfold bucket_at. destruct (decide (a = x)) as [->|Hne].
      - by rewrite lookup_insert_eq.
      - by rewrite lookup_insert_ne. }
    destruct (decide (a = x)) as [->|Hne].
    + rewrite (decide_True (P := x ∈ x :: l)) by left.
      case_decide; [|done]. by rewrite (assoc_L (∪)), (idemp_L (∪)).
    + destruct (decide (a ∈ l)) as [Hin|Hin].
      * rewrite decide_True by (by right). done.
      * rewrite decide_False; [done|]. intros [?|?]%elem_of_cons; done.
Qed.

Section Publishing.
Context `{Platform}.

(** The cache that [FinalizeBlock] returns, component by component. *)
Lemma FinalizeBlock_result p link st b :
  deref p st = Some b → buckets_end b → links_live st →
  let index := FastLookupIndexForAddress (effectiveAddress b) in
  ∃ st' addrs,
    FinalizeBlock p link st = Some st' ∧
    block_buckets b = Some addrs ∧
    fast_block_map st' = <[index := p]> (fast_block_map st) ∧
    (∀ q, unlinked <$> deref q st' =
          unlinked <$> (if decide (q = p)
                        then set_fast_block_map_index index <$> deref p st
                        else deref q st)) ∧
    (λ kv, (kv.1, kv.2.1)) <$> block_map st' =
      (λ kv, (kv.1, kv.2.1)) <$> block_map st ∧
    (∀ c, c ∈ valid_block st' ↔
          c ∈ valid_block st ∨
          physicalAddress b / 32 ≤ c ≤ block_end b / 32) ∧
    (∀ a, bucket_at a (block_range_map st') =
          if decide (a ∈ addrs) then {[p]} ∪ bucket_at a (block_range_map st)
          else bucket_at a (block_range_map st)) ∧
    fifoWriteAddresses st' = fifoWriteAddresses st ∧
    pairedQuantizeAddresses st' = pairedQuantizeAddresses st.
Proof.
  intros Hp Hend Hlive index.
  destruct (block_buckets_total b Hend) as [addrs Haddrs].
  set (st2 := update_block p (set_fast_block_map_index index)
                (set_fast_block_map (<[index := p]>) st)).
  set (st3 := foldl (λ s addr, set_valid_block (ValidBlockBitSet_Set addr) s) st2
                (seqZ (physicalAddress b / 32)
                   (block_end b / 32 + 1 - physicalAddress b / 32))).
  set (st4 := foldl (λ s addr,
                       set_block_range_map
                         (λ m, <[addr := {[p]} ∪ bucket_at addr m]> m) s)
                st3 addrs).
  destruct (foldl_valid_block
              (seqZ (physicalAddress b / 32)
                 (block_end b / 32 + 1 - physicalAddress b / 32)) st2)
    as (Hv3 & Hm3 & Hl3 & Hr3 & Hf3 & Hh13 & Hh23 & _). fold st3 in Hv3, Hm3, Hl3, Hr3, Hf3, Hh13, Hh23.
  destruct (foldl_block_range_map p addrs st3)
    as (Hr4 & Hm4 & Hl4 & Hv4 & Hf4 & Hh14 & Hh24 & _). fold st4 in Hr4, Hm4, Hl4, Hv4, Hf4, Hh14, Hh24.
  assert (∀ q, deref q st4 =
               if decide (q = p)
               then set_fast_block_map_index index <$> deref p st
               else deref q st) as Hd4.
  { intros q. unfold deref. rewrite Hm4, Hm3. apply mm_deref_store. }
  assert ((λ kv, (kv.1, kv.2.1)) <$> block_map st4 =
          (λ kv, (kv.1, kv.2.1)) <$> block_map st) as Hn4.
  { rewrite Hm4, Hm3. apply mm_store_nodes. }
  assert (∀ c, c ∈ valid_block st4 ↔
               c ∈ valid_block st ∨
               physicalAddress b / 32 ≤ c ≤ block_end b / 32) as Hvalid.
  { intros c. rewrite Hv4, Hv3, elem_of_seqZ.
    change (valid_block st2) with (valid_block st). split; intros [?|?]; (by left) || (right; lia). }
  assert (∀ a, bucket_at a (block_range_map st4) =
               if decide (a ∈ addrs) then {[p]} ∪ bucket_at a (block_range_map st)
               else bucket_at a (block_range_map st)) as Hbuckets.
  { intros a. rewrite Hr4, Hr3. done. }
  assert (FinalizeBlock p link st =
          if link then
            LinkBlock p
              (set_links_to
                 (λ l, foldl (λ l1 e, mm_emplace (exitAddress e) p l1) l (linkData b))
                 st4)
          else Some st4) as ->.
  { unfold FinalizeBlock. rewrite Hp; simpl. rewrite Haddrs; simpl.
    by rewrite foldl_set_links_to. }
  destruct link.
  - set (st5 := set_links_to _ st4).
    assert (links_live st5) as Hlive5.
    { intros k q Hin.
      change (links_to st5) with
        (foldl (λ l1 e, mm_emplace (exitAddress e) p l1) (links_to st4) (linkData b))
        in Hin.
      change (is_Some (deref q st4)). rewrite Hd4.
      rewrite Hl4, Hl3 in Hin. change (links_to st2) with (links_to st) in Hin.
      apply foldl_emplace_elem in Hin as [Hin|(e & _ & Heq)].
      - case_decide; [rewrite Hp; simpl; eauto|]. by apply (Hlive k).
      - injection Heq as -> ->. rewrite decide_True, Hp by done. simpl. eauto. }
    destruct (LinkBlock_total p st5) as [st' Hrun]; [|done|].
    { change (is_Some (deref p st4)). rewrite Hd4, decide_True, Hp by done.
      simpl. eauto. }
    apply LinkBlock_skeleton in Hrun as Hsk.
    destruct (skeleton_fields _ _ Hsk) as (_ & Hr & Hv & Hf & Hh1 & Hh2).
    exists st', addrs. split; [done|]. split; [done|].
    split; [by rewrite Hf; simpl; rewrite Hf4, Hf3|].
    split; [intros q; rewrite (skeleton_deref _ _ q Hsk); by rewrite <- Hd4|].
    split; [by rewrite (skeleton_nodes _ _ Hsk)|].
    split; [intros c; rewrite Hv; apply Hvalid|].
    split; [intros a; rewrite Hr; apply Hbuckets|].
    split; [rewrite Hh1; simpl; by rewrite Hh14, Hh13|].
    rewrite Hh2; simpl; by rewrite Hh24, Hh23.
  - exists st4, addrs. split; [done|]. split; [done|].
    split; [by rewrite Hf4, Hf3|].
    split; [intros q; by rewrite Hd4|].
    split; [done|]. split; [done|]. split; [done|].
    split; [by rewrite Hh14, Hh13|by rewrite Hh24, Hh23].
Qed.
End Publishing.

Section Buckets.
Context `{Platform}.

Lemma bucket_addrs_elem n addr last l :
  0 < BLOCK_RANGE_MAP_ELEMENTS → 0 ≤ addr →
  last + BLOCK_RANGE_MAP_ELEMENTS < 2 ^ 32 →
  bucket_addrs n addr last = Some l →
  ∀ a, a ∈ l ↔
       ∃ k, 0 ≤ k ∧ a = addr + k * BLOCK_RANGE_MAP_ELEMENTS ∧ a ≤ last.
Proof.
  intros HB. revert addr l.
  assert (∀ addr0 a,
            last < addr0 →
            ¬ ∃ k, 0 ≤ k ∧ a = addr0 + k * BLOCK_RANGE_MAP_ELEMENTS ∧ a ≤ last)
    as Hnone.
  { intros addr0 a Hlt (k & Hk & -> & Hle).
    assert (0 ≤ k * BLOCK_RANGE_MAP_ELEMENTS) by (apply Z.mul_nonneg_nonneg; lia).
    lia. }
  induction n as [|n IH]; intros addr l Ha Hlast Hrun a; simpl in Hrun.
  - destruct (Z.ltb_spec last addr); [|done]. injection Hrun as <-.
    rewrite elem_of_nil. split; [done|]. by apply Hnone.
  - destruct (Z.ltb_spec last addr).
    { injection Hrun as <-. rewrite elem_of_nil. split; [done|]. by apply Hnone. }
    assert (u32 (addr + BLOCK_RANGE_MAP_ELEMENTS) = addr + BLOCK_RANGE_MAP_ELEMENTS)
      as Hnext by (apply Z.mod_small; lia).
    rewrite Hnext in Hrun.
    destruct (bucket_addrs n (addr + BLOCK_RANGE_MAP_ELEMENTS) last) as [l'|] eqn:Hl';
      [|done].
    injection Hrun as <-. rewrite elem_of_cons.
    assert (0 ≤ addr + BLOCK_RANGE_MAP_ELEMENTS) as Ha' by lia.
    rewrite (IH _ l' Ha' Hlast Hl' a). split.
    + intros [->|(k & Hk & -> & Hle)].
      * exists 0. split; [lia|]. split; [ring|lia].
      * exists (k + 1). split; [lia|]. split; [ring|lia].
    + intros (k & Hk & -> & Hle).
      destruct (decide (k = 0)) as [->|Hne]; [left; ring|].
      right. exists (k - 1). split; [lia|]. split; [ring|lia].
Qed.

(** X6. [FinalizeBlock] on a registered block completes and publishes it:
    the slot of its effective address holds the block and the block
    records that slot, every other slot is as before; every chunk from
    that of its first instruction to that of its last is marked valid and
    no bit is cleared; the block is in the bucket of every bucket address
    from that of its first instruction to that of its last, and buckets
    at other addresses hold what they held; the registry keeps its nodes.
    The bucket loop of the block ends and the link graph has no dangling
    pointer. *)
Theorem FinalizeBlock_publishes p link st b :
  deref p st = Some b → buckets_end b → links_live st →
  let index := FastLookupIndexForAddress (effectiveAddress b) in
  let first := Z.land (physicalAddress b) range_mask in
  let last := Z.land (block_end b) range_mask in
  ∃ st' b',
    FinalizeBlock p link st = Some st' ∧
    deref p st' = Some b' ∧
    fast_block_map st' !! index = Some p ∧
    fast_block_map_index b' = index ∧
    (∀ i, i ≠ index → fast_block_map st' !! i = fast_block_map st !! i) ∧
    (∀ c, physicalAddress b / 32 ≤ c ≤ block_end b / 32 → c ∈ valid_block st') ∧
    valid_block st ⊆ valid_block st' ∧
    (∀ k, 0 ≤ k → first + k * BLOCK_RANGE_MAP_ELEMENTS ≤ last →
       p ∈ bucket_at (first + k * BLOCK_RANGE_MAP_ELEMENTS) (block_range_map st')) ∧
    (∀ a, (∀ k, 0 ≤ k → a = first + k * BLOCK_RANGE_MAP_ELEMENTS → last < a) →
       bucket_at a (block_range_map st') = bucket_at a (block_range_map st)) ∧
    (λ kv, (kv.1, kv.2.1)) <$> block_map st' =
      (λ kv, (kv.1, kv.2.1)) <$> block_map st.
Proof.
  intros Hp Hend Hlive index first last.
  destruct (FinalizeBlock_result p link st b Hp Hend Hlive)
    as (st' & addrs & Hrun & Haddrs & Hf & Hd & Hn & Hv & Hb & _).
  fold index in Hf, Hd.
  assert (∀ a, a ∈ addrs ↔
            ∃ k, 0 ≤ k ∧ a = first + k * BLOCK_RANGE_MAP_ELEMENTS ∧ a ≤ last)
    as Helem.
  { destruct Hend as [HB Hend]. unfold block_buckets in Haddrs.
    refine (bucket_addrs_elem _ _ _ _ HB _ Hend Haddrs).
    apply Z.land_nonneg. right. unfold range_mask, not32, u32.
    apply Z.mod_pos_bound. lia. }
  pose proof (Hd p) as Hdp. rewrite decide_True, Hp in Hdp by done.
  destruct (deref p st') as [b'|] eqn:Hb'; [|done].
  change (Some (unlinked b') =
          Some (unlinked (set_fast_block_map_index index b))) in Hdp.
  assert (unlinked b' = unlinked (set_fast_block_map_index index b)) as Hun
    by congruence.
  apply unlinked_fields in Hun as (_&_&_&_&_&_&Hidx&_).
  exists st', b'. split; [done|]. split; [done|].
  split; [by rewrite Hf, lookup_insert_eq|]. split; [done|].
  split; [intros i Hi; by rewrite Hf, lookup_insert_ne|].
  split; [intros c Hc; apply Hv; by right|].
  split; [intros c Hc; apply Hv; by left|].
  split; [|split; [|done]].
  - intros k Hk Hle. rewrite Hb, decide_True.
    + apply elem_of_union_l. by apply elem_of_singleton.
    + apply Helem. eauto.
  - intros a Hout. rewrite Hb, decide_False; [done|].
    intros (k & Hk & Ha & Hle)%Helem. specialize (Hout k Hk Ha). lia.
Qed.

(** X7. [FinalizeBlock] keeps the fast map consistent: after it, a slot
    that points at a registered block is still the slot the block records
    and the slot of its effective address. *)
Theorem FinalizeBlock_keeps_fast_map_consistent p link st b :
  deref p st = Some b → buckets_end b → links_live st →
  fast_map_consistent st →
  ∃ st', FinalizeBlock p link st = Some st' ∧ fast_map_consistent st'.
Proof.
  intros Hp Hend Hlive Hcons.
  destruct (FinalizeBlock_result p link st b Hp Hend Hlive)
    as (st' & addrs & Hrun & _ & Hf & Hd & _).
  set (index := FastLookupIndexForAddress (effectiveAddress b)) in *.
  exists st'. split; [done|].
  intros i q bq Hslot Hq. rewrite Hf in Hslot.
  pose proof (Hd q) as Hdq. rewrite Hq in Hdq.
  destruct (decide (q = p)) as [->|Hqp].
  - rewrite Hp in Hdq.
    change (Some (unlinked bq) =
            Some (unlinked (set_fast_block_map_index index b))) in Hdq.
    assert (unlinked bq = unlinked (set_fast_block_map_index index b)) as Hun
      by congruence.
    apply unlinked_fields in Hun as (_&_&Hea&_&_&_&Hidx&_).
    simpl in Hea, Hidx. rewrite Hea, Hidx.
    destruct (decide (i = index)) as [->|Hi]; [done|].
    rewrite lookup_insert_ne in Hslot by done.
    destruct (Hcons i p b Hslot Hp) as [_ Hfli]. by destruct Hi.
  - destruct (decide (i = index)) as [->|Hi].
    { rewrite lookup_insert_eq in Hslot. congruence. }
    rewrite lookup_insert_ne in Hslot by done.
    destruct (deref q st) as [bq0|] eqn:Hq0; [|done].
    change (Some (unlinked bq) = Some (unlinked bq0)) in Hdq.
    assert (unlinked bq = unlinked bq0) as Hun by congruence.
    apply unlinked_fields in Hun as (_&_&Hea&_&_&_&Hidx&_).
    rewrite Hea, Hidx. by apply (Hcons i q).
Qed.
End Buckets.

Lemma fast_map_consistent_check `{Platform} st :
  forallb
    (λ iq, match deref iq.2 st with
           | Some b => (fast_block_map_index b =? iq.1) &&
                       (FastLookupIndexForAddress (effectiveAddress b) =? iq.1)
           | None => true
           end)
    (map_to_list (fast_block_map st)) = true →
  fast_map_consistent st.
Proof.
  rewrite forallb_forall. intros Hall i q b Hslot Hq.
  apply elem_of_map_to_list, list_elem_of_In, Hall in Hslot.
  simpl in Hslot. rewrite Hq in Hslot. lia.
Qed.

Lemma FinalizeBlock_publishes_witness :
  is_Some (FinalizeBlock (H := Scenario.platform) 2 true Scenario.B_allocated).
Proof.
  destruct (FinalizeBlock_publishes (H := Scenario.platform) 2 true
              Scenario.B_allocated
              (mkJitBlock 0x7200 0x7210 0x2000 0x30 0x2000 16 1 0 [] 0))
    as (st' & b' & Hrun & _).
  - vm_compute. reflexivity.
  - vm_compute. split; reflexivity.
  - apply links_live_check. vm_compute. reflexivity.
  - rewrite Hrun. eauto.
Defined.

Lemma FinalizeBlock_keeps_fast_map_consistent_witness :
  is_Some (FinalizeBlock (H := Scenario.platform) 2 true Scenario.B_allocated).
Proof.
  destruct (FinalizeBlock_keeps_fast_map_consistent (H := Scenario.platform)
              2 true Scenario.B_allocated
              (mkJitBlock 0x7200 0x7210 0x2000 0x30 0x2000 16 1 0 [] 0))
    as (st' & Hrun & _).
  - vm_compute. reflexivity.
  - vm_compute. split; reflexivity.
  - apply links_live_check. vm_compute. reflexivity.
  - apply fast_map_consistent_check. vm_compute. reflexivity.
  - rewrite Hrun. eauto.
Defined.

(** ** Moving and destroying a block *)

Section Moving.
Context `{Platform} `{Recompiler}.

(** The cache that [MoveBlockIntoFastCache] returns for a block that the
    registry has, component by component. *)
Lemma MoveBlockIntoFastCache_result addr msr st q b :
  links_live st → slots_in_range st → nodes_distinct st →
  fast_map_consistent st →
  GetBlockFromStartAddress addr msr st = Some (q, b) →
  let index := FastLookupIndexForAddress addr in
  ∃ st',
    MoveBlockIntoFastCache addr msr st = Some st' ∧
    fast_block_map st' =
      <[index := q]>
        (if decide (fast_block_map st !! fast_block_map_index b = Some q)
         then delete (fast_block_map_index b) (fast_block_map st)
         else fast_block_map st) ∧
    (∀ i, fast_block_map st' !! i = Some q → i = index) ∧
    fast_map_consistent st' ∧
    deref q st = Some b ∧
    (∀ x, unlinked <$> deref x st' =
          unlinked <$> (if decide (x = q)
                        then Some (set_fast_block_map_index index b)
                        else deref x st)) ∧
    key_nodes st' = key_nodes st ∧
    links_to st' = links_to st ∧
    block_range_map st' = block_range_map st.
Proof.
  intros Hlive Hslots Hnd Hcons Hget index. unfold MoveBlockIntoFastCache.
  rewrite Hget.
  destruct (GetBlockFromStartAddress_Some _ _ _ _ _ Hget) as (Hea & Hmsr & k & Hk).
  assert (deref q st = Some b) as Hq by apply (mm_deref_NoDup _ _ Hnd Hk).
  rewrite drop_fast_slot_spec by (by apply (Hslots q)).
  cbn [mbind option_bind].
  set (st1 := if decide (_ = Some q) then _ else st).
  assert (∀ x, deref x st1 = deref x st) as Hd1
    by (intros x; subst st1; by case_decide).
  assert (links_to st1 = links_to st) as Hl1 by (subst st1; by case_decide).
  assert (fast_block_map st1 =
          if decide (fast_block_map st !! fast_block_map_index b = Some q)
          then delete (fast_block_map_index b) (fast_block_map st)
          else fast_block_map st) as Hf1 by (subst st1; by case_decide).
  fold index.
  set (st3 := update_block q _ _).
  assert (∀ x, deref x st3 =
               if decide (x = q)
               then Some (set_fast_block_map_index index b)
               else deref x st) as Hd3.
  { intros x. subst st3. rewrite deref_update_block.
    change (deref q (set_fast_block_map _ st1)) with (deref q st1).
    change (deref x (set_fast_block_map _ st1)) with (deref x st1).
    rewrite !Hd1, Hq. done. }
  assert (links_live st3) as Hlive3.
  { intros k' q' Hin. change (links_to st3) with (links_to st1) in Hin.
    rewrite Hl1 in Hin. rewrite Hd3.
    destruct (decide (q' = q)); [eauto|]. by apply (Hlive k'). }
  destruct (LinkBlock_total q st3) as [st' Hrun]; [|done|].
  { rewrite Hd3, decide_True by done. eauto. }
  rewrite Hrun. apply LinkBlock_skeleton in Hrun.
  destruct (skeleton_fields _ _ Hrun) as (Hl' & Hr' & _ & Hf & _).
  pose proof (skeleton_nodes _ _ Hrun) as Hn'.
  assert (fast_block_map st' = <[index := q]> (fast_block_map st1)) as Hf'
    by (by rewrite Hf).
  assert (∀ i, i ≠ index → fast_block_map st' !! i = Some q → False) as Hone.
  { intros i Hi Hslot. rewrite Hf', lookup_insert_ne, Hf1 in Hslot by done.
    destruct (decide (fast_block_map st !! fast_block_map_index b = Some q))
      as [Hold|Hold].
    - destruct (decide (i = fast_block_map_index b)) as [->|Hne].
      + by rewrite lookup_delete_eq in Hslot.
      + rewrite lookup_delete_ne in Hslot by done.
        destruct (Hcons i q b Hslot Hq) as [Hidx _]. by destruct Hne.
    - destruct (Hcons i q b Hslot Hq) as [Hidx _]. subst i. done. }
  exists st'. split; [done|]. split; [by rewrite Hf', Hf1|]. split.
  { intros i Hslot. destruct (decide (i = index)); [done|]. by destruct (Hone i). }
  split; [|split; [done|]; split; [|split; [|split]]].
  2: { intros x. rewrite (skeleton_deref _ _ x Hrun), Hd3. by case_decide. }
  2: { unfold key_nodes. rewrite Hn'. subst st3. unfold update_block. simpl.
       rewrite mm_store_nodes. subst st1. by case_decide. }
  2: { rewrite Hl'. change (links_to st3) with (links_to st1). exact Hl1. }
  2: { rewrite Hr'. change (block_range_map st3) with (block_range_map st1).
       subst st1. by case_decide. }
  intros i x bx Hslot Hx.
  pose proof (skeleton_deref _ _ x Hrun) as Hdx. rewrite Hx, Hd3 in Hdx.
  destruct (decide (x = q)) as [->|Hxq].
  - change (Some (unlinked bx) =
            Some (unlinked (set_fast_block_map_index index b))) in Hdx.
    assert (unlinked bx = unlinked (set_fast_block_map_index index b)) as Hun
      by congruence.
    apply unlinked_fields in Hun as (_&_&Hea'&_&_&_&Hidx&_).
    simpl in Hea', Hidx. rewrite Hea', Hidx, Hea.
    destruct (decide (i = index)) as [->|Hi]; [done|]. by destruct (Hone i).
  - destruct (deref x st) as [bx0|] eqn:Hx0; [|done].
    change (Some (unlinked bx) = Some (unlinked bx0)) in Hdx.
    assert (unlinked bx = unlinked bx0) as Hun by congruence.
    apply unlinked_fields in Hun as (_&_&Hea'&_&_&_&Hidx&_).
    rewrite Hea', Hidx. apply (Hcons i x); [|done].
    rewrite Hf' in Hslot.
    destruct (decide (i = index)) as [->|Hi].
    { rewrite lookup_insert_eq in Hslot. congruence. }
    rewrite lookup_insert_ne, Hf1 in Hslot by done.
    destruct (decide (fast_block_map st !! fast_block_map_index b = Some q));
      [|done].
    destruct (decide (i = fast_block_map_index b)) as [->|Hne].
    + by rewrite lookup_delete_eq in Hslot.
    + by rewrite lookup_delete_ne in Hslot.
Qed.

(** X8. On a block that the registry has, [MoveBlockIntoFastCache]
    completes and moves the block: the slot it recorded is emptied if it
    held the block, the slot of the address now holds it, and no other
    slot changes; afterwards the block is in that slot only, and the fast
    map is still consistent. *)
Theorem MoveBlockIntoFastCache_moves addr msr st q b :
  links_live st → slots_in_range st → nodes_distinct st →
  fast_map_consistent st →
  GetBlockFromStartAddress addr msr st = Some (q, b) →
  let index := FastLookupIndexForAddress addr in
  ∃ st',
    MoveBlockIntoFastCache addr msr st = Some st' ∧
    fast_block_map st' =
      <[index := q]>
        (if decide (fast_block_map st !! fast_block_map_index b = Some q)
         then delete (fast_block_map_index b) (fast_block_map st)
         else fast_block_map st) ∧
    (∀ i, fast_block_map st' !! i = Some q → i = index) ∧
    fast_map_consistent st'.
Proof.
  intros Hlive Hslots Hnd Hcons Hget index.
  destruct (MoveBlockIntoFastCache_result addr msr st q b Hlive Hslots Hnd Hcons Hget)
    as (st' & Hrun & Hfast & Hone & Hcons' & _).
  by exists st'.
Qed.
End Moving.

Section Destroyed.
Context `{Platform}.

(** X9. After [DestroyBlock(b)] neither the fast map nor the link graph
    holds a pointer to [b], so that the block can be erased from the
    registry: for a consistent fast map, and a link graph in which [b]
    occurs under the targets of its exits only. *)
Theorem DestroyBlock_leaves_no_pointer p st b :
  deref p st = Some b →
  0 ≤ fast_block_map_index b ≤ FAST_BLOCK_MAP_MASK →
  links_live st → fast_map_consistent st →
  (∀ k, (k, p) ∈ links_to st → k ∈ exitAddress <$> linkData b) →
  ∃ st',
    DestroyBlock p st = Some st' ∧
    (∀ i, fast_block_map st' !! i ≠ Some p) ∧
    (∀ k, (k, p) ∉ links_to st').
Proof.
  intros Hp Hi Hlive Hcons Hgraph.
  destruct (DestroyBlock_spec p st b Hp Hi Hlive) as (st2 & -> & Hsk & _).
  destruct (skeleton_fields _ _ Hsk) as (Hl & _ & _ & Hf & _).
  eexists. split; [done|]. split.
  - intros i Hslot. change (fast_block_map st2 !! i = Some p) in Hslot.
    rewrite Hf in Hslot.
    destruct (decide (fast_block_map st !! fast_block_map_index b = Some p))
      as [Hold|Hold]; simpl in Hslot.
    + destruct (decide (i = fast_block_map_index b)) as [->|Hne].
      * by rewrite lookup_delete_eq in Hslot.
      * rewrite lookup_delete_ne in Hslot by done.
        destruct (Hcons i p b Hslot Hp) as [Hidx _]. by destruct Hne.
    + destruct (Hcons i p b Hslot Hp) as [Hidx _]. subst i. done.
  - intros k Hin. simpl in Hin.
    apply list_elem_of_filter in Hin as [Hnot Hin]. rewrite Hl in Hin.
    apply Hnot. split; [done|]. apply Hgraph.
    by destruct (decide (fast_block_map st !! fast_block_map_index b = Some p)).
Qed.
End Destroyed.

Lemma MoveBlockIntoFastCache_moves_witness :
  is_Some (MoveBlockIntoFastCache (H := Scenario.platform)
             (H0 := Scenario.recompiler 0x30) 0x1000 0x30 Scenario.linked_pair).
Proof.
  destruct (MoveBlockIntoFastCache_moves (H := Scenario.platform)
              (H0 := Scenario.recompiler 0x30) 0x1000 0x30 Scenario.linked_pair 1
              (mkJitBlock 0x7100 0x7110 0x1000 0x30 0x1000 16 1 0
                 [set_linkStatus true Scenario.exit_to_0x2000] 0))
    as (st' & Hrun & _).
  - apply links_live_check. vm_compute. reflexivity.
  - apply slots_in_range_check. vm_compute. reflexivity.
  - apply nodes_distinct_check. vm_compute. reflexivity.
  - apply fast_map_consistent_check. vm_compute. reflexivity.
  - vm_compute. reflexivity.
  - rewrite Hrun. eauto.
Defined.

Lemma DestroyBlock_leaves_no_pointer_witness :
  is_Some (DestroyBlock (H := Scenario.platform) 2 Scenario.linked_pair).
Proof.
  destruct (DestroyBlock_leaves_no_pointer (H := Scenario.platform) 2
              Scenario.linked_pair
              (mkJitBlock 0x7200 0x7210 0x2000 0x30 0x2000 16 1 0 [] 0))
    as (st' & Hrun & _).
  - vm_compute. reflexivity.
  - vm_compute. split; discriminate.
  - apply links_live_check. vm_compute. reflexivity.
  - apply fast_map_consistent_check. vm_compute. reflexivity.
  - intros k Hin. apply list_elem_of_In in Hin. vm_compute in Hin.
    destruct Hin as [Heq|[]]. discriminate Heq.
  - rewrite Hrun. eauto.
Defined.

(** ** Which exits LinkBlockExits links *)

Section Linking_exits.
Context `{Platform}.

Lemma GetBlockFromStartAddress_shape_None addr msr st st' :
  registry_shape st = registry_shape st' →
  GetBlockFromStartAddress addr msr st = None →
  GetBlockFromStartAddress addr msr st' = None.
Proof.
  intros Hsh Hnone.
  pose proof (GetBlockFromStartAddress_shape addr msr _ _ Hsh) as Heq.
  rewrite Hnone in Heq. by destruct (GetBlockFromStartAddress addr msr st').
Qed.

(** The loop of [LinkBlockExits] from exit number [k] on. *)
Lemma link_exits_from p st msr m : ∀ k s bs,
  registry_shape s = registry_shape st →
  deref p s = Some bs → msrBits bs = msr →
  (k + m = length (linkData bs))%nat →
  ∃ s' b',
    for_each (link_exit p) (seq k m) s = Some s' ∧
    deref p s' = Some b' ∧
    unlinked b' = unlinked bs ∧
    (∀ q, q ≠ p → deref q s' = deref q s) ∧
    ∀ j, linkData b' !! j =
         if decide (k ≤ j)%nat
         then (λ e, if linkStatus e then e
                    else match GetBlockFromStartAddress (exitAddress e) msr st with
                         | Some _ => set_linkStatus true e
                         | None => e
                         end) <$> linkData bs !! j
         else linkData bs !! j.
Proof.
  induction m as [|m IH]; intros k s bs Hsh Hp Hmsr Hlen; simpl.
  - exists s, bs. split; [done|]. split; [done|]. split; [done|].
    split; [done|]. intros j. case_decide; [|done].
    rewrite (lookup_ge_None_2 (linkData bs) j) by lia. done.
  - assert (k < length (linkData bs))%nat as Hk by lia.
    destruct (lookup_lt_is_Some_2 _ _ Hk) as [e He].
    set (F := λ e : LinkData,
                if linkStatus e then e
                else match GetBlockFromStartAddress (exitAddress e) msr st with
                     | Some _ => set_linkStatus true e
                     | None => e
                     end).
    assert (∃ s1 b1,
              link_exit p k s = Some s1 ∧ deref p s1 = Some b1 ∧
              unlinked b1 = unlinked bs ∧
              (∀ q, q ≠ p → deref q s1 = deref q s) ∧
              linkData b1 = <[k := F e]> (linkData bs))
      as (s1 & b1 & Hstep & Hp1 & Hun1 & Hother1 & Hl1).
    { unfold link_exit. rewrite Hp. cbn [mbind option_bind]. rewrite He.
      cbn [mbind option_bind]. subst F. simpl.
      destruct (linkStatus e) eqn:Hst.
      { exists s, bs. split; [done|]. split; [done|]. split; [done|].
        split; [done|]. symmetry. by apply list_insert_id. }
      rewrite Hmsr.
      destruct (GetBlockFromStartAddress (exitAddress e) msr s) as [[dq d]|] eqn:Hget.
      - assert (is_Some (GetBlockFromStartAddress (exitAddress e) msr st)) as [r ->].
        { destruct (GetBlockFromStartAddress (exitAddress e) msr st) eqn:Hst0;
            [eauto|].
          rewrite (GetBlockFromStartAddress_shape_None _ _ st s) in Hget; done. }
        eexists _, _. split; [done|]. rewrite deref_update_block.
        rewrite decide_True by done.
        change (deref p (WriteLinkBlock e (Some d) s)) with (deref p s).
        rewrite Hp. split; [done|].
        split; [by apply unlinked_set_linkStatus|]. split; [|done].
        intros q Hq. rewrite deref_update_block, decide_False by done. done.
      - rewrite (GetBlockFromStartAddress_shape_None _ _ s st) by done.
        exists s, bs. split; [done|]. split; [done|]. split; [done|].
        split; [done|]. symmetry. by apply list_insert_id. }
    rewrite Hstep. cbn [mbind option_bind].
    destruct (IH (S k) s1 b1) as (s' & b' & Hrun & Hp' & Hun' & Hother' & Hl').
    { rewrite <- Hsh.
      by apply skeleton_registry_shape, (link_exit_skeleton p k). }
    { done. }
    { apply unlinked_fields in Hun1 as (_&_&_&->&_). done. }
    { rewrite Hl1, length_insert. lia. }
    exists s', b'. split; [done|]. split; [done|].
    split; [congruence|]. split.
    { intros q Hq. rewrite Hother', Hother1 by done. done. }
    intros j. rewrite Hl', Hl1. fold F.
    destruct (decide (j = k)) as [->|Hjk].
    + rewrite decide_False by lia. rewrite decide_True by lia.
      rewrite list_lookup_insert_eq by done. by rewrite He.
    + rewrite list_lookup_insert_ne by done.
      destruct (decide (S k ≤ j)%nat); destruct (decide (k ≤ j)%nat);
        try done; lia.
Qed.

(** X10. [LinkBlockExits] on a registered block completes, and links
    exactly the exits that were not linked and whose target the registry
    has a block for, under the MSR bits of the block; every other exit,
    every other field of the block and every other block is as before. *)
Theorem LinkBlockExits_links_resolvable p st b :
  deref p st = Some b →
  ∃ st' b',
    LinkBlockExits p st = Some st' ∧
    deref p st' = Some b' ∧
    linkData b' =
      (λ e, if linkStatus e then e
            else match GetBlockFromStartAddress (exitAddress e) (msrBits b) st with
                 | Some _ => set_linkStatus true e
                 | None => e
                 end) <$> linkData b ∧
    unlinked b' = unlinked b ∧
    (∀ q, q ≠ p → deref q st' = deref q st).
Proof.
  intros Hp. unfold LinkBlockExits. rewrite Hp. cbn [mbind option_bind].
  destruct (link_exits_from p st (msrBits b) (length (linkData b)) 0%nat st b)
    as (st' & b' & Hrun & Hp' & Hun & Hother & Hl); [done..|].
  exists st', b'. split; [done|]. split; [done|]. split; [|done].
  apply list_eq. intros j. rewrite Hl, list_lookup_fmap.
  rewrite decide_True by lia. done.
Qed.
End Linking_exits.

Lemma LinkBlockExits_links_resolvable_witness :
  is_Some (LinkBlockExits (H := Scenario.platform) 1 Scenario.B_allocated).
Proof.
  destruct (LinkBlockExits_links_resolvable (H := Scenario.platform) 1
              Scenario.B_allocated
              (mkJitBlock 0x7100 0x7110 0x1000 0x30 0x1000 16 1 0
                 [Scenario.exit_to_0x2000] 0))
    as (st' & b' & Hrun & _).
  - vm_compute. reflexivity.
  - rewrite Hrun. eauto.
Defined.

(** ** What UnlinkBlock leaves *)

(** X11. [UnlinkBlock(b)] completes when the link graph has no dangling
    pointer, and afterwards every block that the link graph holds under
    [b]'s effective address, with [b]'s MSR bits, has no linked exit to
    that address left: the link status of each such exit is false. *)
Theorem UnlinkBlock_unlinks_sources p st b q :
  deref p st = Some b → links_live st →
  (effectiveAddress b, q) ∈ links_to st →
  ∃ st',
    UnlinkBlock p st = Some st' ∧
    ∀ bq j e,
      deref q st' = Some bq → msrBits bq = msrBits b →
      linkData bq !! j = Some e → exitAddress e = effectiveAddress b →
      linkStatus e = false.
Proof.
  intros Hp Hlive Hin.
  destruct (UnlinkBlock_total p st) as [st' Hrun]; [eauto|done|].
  exists st'. split; [done|]. intros bq j e Hq Hmsr Hj Hex.
  by destruct (UnlinkBlock_turns_off p st st' b q Hp Hrun Hin bq j e Hq Hmsr Hj Hex).
Qed.

Lemma UnlinkBlock_unlinks_sources_witness :
  is_Some (UnlinkBlock 2 Scenario.linked_pair).
Proof.
  destruct (UnlinkBlock_unlinks_sources 2 Scenario.linked_pair
              (mkJitBlock 0x7200 0x7210 0x2000 0x30 0x2000 16 1 0 [] 0) 1)
    as (st' & Hrun & _).
  - vm_compute. reflexivity.
  - apply links_live_check. vm_compute. reflexivity.
  - vm_compute. left.
  - rewrite Hrun. eauto.
Defined.

(** ** Iterators of the range index *)

Lemma head_merge_sort (l : list Z) :
  match head (merge_sort Z.le l) with
  | Some c => c ∈ l ∧ ∀ x, x ∈ l → c ≤ x
  | None => l = []
  end.
Proof.
  pose proof (merge_sort_Permutation Z.le l) as Hperm.
  pose proof (StronglySorted_merge_sort Z.le l) as Hsorted.
  destruct (merge_sort Z.le l) as [|c l'] eqn:Hl; simpl.
  - symmetry. by apply Permutation_nil_l.
  - split.
    + rewrite <-Hperm. left.
    + intros x Hx. rewrite <-Hperm in Hx.
      apply StronglySorted_inv in Hsorted as [_ Hall].
      apply elem_of_cons in Hx as [->|Hx]; [lia|].
      by apply (proj1 (Forall_forall _ _) Hall).
Qed.

Lemma lower_bound_Some k m c :
  lower_bound k m = Some c →
  c ∈ dom m ∧ k ≤ c ∧ ∀ x, x ∈ dom m → k ≤ x → c ≤ x.
Proof.
  unfold lower_bound. intros Hc.
  pose proof (head_merge_sort (filter (λ x, k ≤ x) (elements (dom m)))) as Hhead.
  rewrite Hc in Hhead. destruct Hhead as [Hin Hmin].
  apply list_elem_of_filter in Hin as [? Hin]. apply elem_of_elements in Hin.
  repeat split; [done..|].
  intros x Hx Hkx. apply Hmin, list_elem_of_filter. split; [done|].
  by apply elem_of_elements.
Qed.

Lemma lower_bound_None k m x :
  lower_bound k m = None → x ∈ dom m → x < k.
Proof.
  unfold lower_bound. intros Hc Hx.
  pose proof (head_merge_sort (filter (λ x, k ≤ x) (elements (dom m)))) as Hhead.
  rewrite Hc in Hhead.
  destruct (decide (k ≤ x)) as [Hkx|]; [|lia].
  assert (x ∈ filter (λ x, k ≤ x) (elements (dom m))) as Hin.
  { apply list_elem_of_filter. split; [done|]. by apply elem_of_elements. }
  rewrite Hhead in Hin. by apply elem_of_nil in Hin.
Qed.

(** An iterator is determined by the keys from its bound on. *)
Lemma lower_bound_ext k m m' :
  (∀ x, k ≤ x → x ∈ dom m ↔ x ∈ dom m') →
  lower_bound k m = lower_bound k m'.
Proof.
  intros Hdom.
  destruct (lower_bound k m) as [c|] eqn:Hc,
           (lower_bound k m') as [c'|] eqn:Hc'; [| | |done].
  - apply lower_bound_Some in Hc as (Hin & Hk & Hmin).
    apply lower_bound_Some in Hc' as (Hin' & Hk' & Hmin').
    f_equal. apply Z.le_antisymm.
    + apply Hmin; [by apply Hdom|done].
    + apply Hmin'; [by apply Hdom|done].
  - apply lower_bound_Some in Hc as (Hin & Hk & _).
    apply Hdom in Hin; [|done].
    pose proof (lower_bound_None _ _ _ Hc' Hin). lia.
  - apply lower_bound_Some in Hc' as (Hin & Hk & _).
    apply Hdom in Hin; [|done].
    pose proof (lower_bound_None _ _ _ Hc Hin). lia.
Qed.

Lemma next_key_lower_bound k m : next_key k m = lower_bound (k + 1) m.
Proof.
  unfold next_key, lower_bound. do 2 f_equal.
  apply list_filter_iff. intros x. lia.
Qed.

(** The least key from [c] on is also the least key from any bound
    between [c] and it. *)
Lemma lower_bound_between c c' m cur :
  lower_bound c m = Some cur → c ≤ c' ≤ cur → lower_bound c' m = Some cur.
Proof.
  intros Hc Hle. apply lower_bound_Some in Hc as (Hin & Hk & Hmin).
  destruct (lower_bound c' m) as [x|] eqn:Hx.
  - apply lower_bound_Some in Hx as (Hin' & Hk' & Hmin').
    f_equal. apply Z.le_antisymm; [apply Hmin'; [done|lia]|].
    apply Hmin; [done|lia].
  - pose proof (lower_bound_None _ _ _ Hx Hin). lia.
Qed.

Lemma lower_bound_None_mono c c' m :
  lower_bound c m = None → c ≤ c' → lower_bound c' m = None.
Proof.
  intros Hc Hle. destruct (lower_bound c' m) as [x|] eqn:Hx; [|done].
  apply lower_bound_Some in Hx as (Hin & Hk & _).
  pose proof (lower_bound_None _ _ _ Hc Hin). lia.
Qed.

Lemma set_order_elem (s : gset Z) q : q ∈ set_order s ↔ q ∈ s.
Proof.
  unfold set_order. rewrite merge_sort_Permutation. apply elem_of_elements.
Qed.

Lemma set_order_NoDup (s : gset Z) : NoDup (set_order s).
Proof.
  unfold set_order. rewrite merge_sort_Permutation. apply NoDup_elements.
Qed.

(** ** Bucket addresses *)

Section Mask.
Context `{Platform}.
Variable j : Z.
Hypothesis Hj : 0 ≤ j < 32.
Hypothesis HB : BLOCK_RANGE_MAP_ELEMENTS = 2 ^ j.

(** [x & ~(BLOCK_RANGE_MAP_ELEMENTS - 1)] rounds [x] down to a bucket
    address. *)
Lemma land_range_mask x :
  0 ≤ x < 2 ^ 32 →
  Z.land x range_mask = x - x mod BLOCK_RANGE_MAP_ELEMENTS.
Proof.
  intros Hx. unfold range_mask, not32, u32. rewrite HB.
  assert (0 < 2 ^ j) by (apply Z.pow_pos_nonneg; lia).
  assert (2 ^ j ≤ 2 ^ 32) by (apply Z.pow_le_mono_r; lia).
  rewrite (Z.mod_small (2 ^ j - 1)) by lia.
  replace (2 ^ j - 1) with (Z.ones j) by (rewrite Z.ones_equiv; lia).
  rewrite <-(Z.land_ones _ 32) by lia.
  rewrite Z.land_assoc, (Z.land_comm x), <-Z.land_assoc.
  rewrite (Z.land_ones x 32), (Z.mod_small x) by lia.
  rewrite Z.land_comm, <-Z.ldiff_land.
  rewrite Z.ldiff_ones_r by lia.
  rewrite Z.shiftr_div_pow2, Z.shiftl_mul_pow2 by lia.
  pose proof (Z.div_mod x (2 ^ j)). lia.
Qed.

End Mask.

(** ** Removing blocks *)

Lemma fmap_deref_Some st st' q b' :
  unlinked <$> deref q st' = unlinked <$> deref q st →
  deref q st' = Some b' →
  ∃ b, deref q st = Some b ∧ unlinked b = unlinked b'.
Proof.
  intros Heq Hq. rewrite Hq in Heq. destruct (deref q st) as [b|]; [|done].
  exists b. split; [done|].
  change (Some (unlinked b') = Some (unlinked b)) in Heq. congruence.
Qed.

Lemma pruned_deref_Some D st st' q b' :
  pruned D st st' → deref q st' = Some b' →
  (q ∉ D) ∧ ∃ b, deref q st = Some b ∧ unlinked b = unlinked b'.
Proof.
  intros Hpr Hq. pose proof (pruned_deref _ _ _ Hpr q) as Heq.
  destruct (decide (q ∈ D)); [by rewrite Hq in Heq|].
  split; [done|]. by apply (fmap_deref_Some st st').
Qed.

Lemma pruned_deref_keep D st st' q b :
  pruned D st st' → q ∉ D → deref q st = Some b →
  ∃ b', deref q st' = Some b' ∧ unlinked b' = unlinked b.
Proof.
  intros Hpr Hq Hb. pose proof (pruned_deref _ _ _ Hpr q) as Heq.
  rewrite decide_False in Heq by done.
  by apply (fmap_deref_Some st' st).
Qed.

Lemma pruned_refl st : pruned ∅ st st.
Proof.
  split; try done.
  intros k. by rewrite difference_empty_L.
Qed.

Lemma pruned_trans D1 D2 s s1 s2 :
  pruned D1 s s1 → pruned D2 s1 s2 → pruned (D1 ∪ D2) s s2.
Proof.
  intros H1 H2. split.
  - intros q. rewrite (pruned_deref _ _ _ H2), (pruned_deref _ _ _ H1).
    destruct (decide (q ∈ D2)) as [H2'|H2'], (decide (q ∈ D1)) as [H1'|H1'],
             (decide (q ∈ D1 ∪ D2)) as [H12|H12]; try done;
      rewrite elem_of_union in H12; tauto.
  - etrans; [apply (pruned_keys _ _ _ H2)|apply (pruned_keys _ _ _ H1)].
  - intros k q Hin. apply (pruned_nodes _ _ _ H2) in Hin as [Hin ?].
    apply (pruned_nodes _ _ _ H1) in Hin as [Hin ?]. split; [done|].
    rewrite not_elem_of_union. tauto.
  - intros k q Hin. apply (pruned_links _ _ _ H2) in Hin as [Hin ?].
    apply (pruned_links _ _ _ H1) in Hin as [Hin ?]. split; [done|].
    rewrite not_elem_of_union. tauto.
  - intros i q Hin. apply (pruned_fast _ _ _ H2) in Hin as [Hin ?].
    apply (pruned_fast _ _ _ H1) in Hin as [Hin ?]. split; [done|].
    rewrite not_elem_of_union. tauto.
  - intros k. rewrite (pruned_buckets _ _ _ H2), (pruned_buckets _ _ _ H1).
    by rewrite difference_difference_l_L.
  - by rewrite (pruned_valid _ _ _ H2), (pruned_valid _ _ _ H1).
  - by rewrite (pruned_fifo _ _ _ H2), (pruned_fifo _ _ _ H1).
  - by rewrite (pruned_paired _ _ _ H2), (pruned_paired _ _ _ H1).
  - intros k q Hin [HD1 HD2]%not_elem_of_union.
    apply (pruned_kept _ _ _ H2); [|done]. by apply (pruned_kept _ _ _ H1).
Qed.

Section Geometry.
Context `{Platform}.

(** What the range index and the overlap test look at in a block is its
    physical address and its size. *)
Lemma unlinked_geometry b b' :
  unlinked b = unlinked b' →
  (∀ addr length, Overlap b addr length = Overlap b' addr length) ∧
  block_buckets b = block_buckets b' ∧
  (block_fits b → block_fits b') ∧
  (buckets_end b → buckets_end b').
Proof.
  intros Hun. apply unlinked_fields in Hun as (_&_&_&_&Hp&Hs&_).
  unfold Overlap, block_buckets, block_fits, buckets_end, block_end.
  by rewrite Hp, Hs.
Qed.

Lemma well_indexed_pruned D st st' :
  well_indexed st → pruned D st st' → well_indexed st'.
Proof.
  intros Hwf Hpr. split.
  - eapply sublist_NoDup; [apply (indexed_keys _ Hwf)|apply (pruned_keys _ _ _ Hpr)].
  - intros k p Hin. apply (pruned_nodes _ _ _ Hpr) in Hin as [Hin HD].
    destruct (indexed_key _ Hwf _ _ Hin) as (b & Hb & Hk).
    destruct (pruned_deref_keep _ _ _ _ _ Hpr HD Hb) as (b' & Hb' & Hun).
    exists b'. split; [done|].
    apply unlinked_fields in Hun as (_&_&_&_&Hp&_). by rewrite Hp.
  - intros p b' Hb'.
    destruct (pruned_deref_Some _ _ _ _ _ Hpr Hb') as (_ & b & Hb & Hun).
    destruct (indexed_fits _ Hwf _ _ Hb) as [Hfit Hend].
    destruct (unlinked_geometry _ _ Hun) as (_ & _ & Hf & He). eauto.
  - intros p b' Hb'.
    destruct (pruned_deref_Some _ _ _ _ _ Hpr Hb') as (_ & b & Hb & Hun).
    apply unlinked_fields in Hun as (_&_&_&_&_&_&Hi&_). rewrite <-Hi.
    by apply (indexed_slots _ Hwf p).
  - intros i q b' Hi Hb'.
    destruct (pruned_deref_Some _ _ _ _ _ Hpr Hb') as (_ & b & Hb & Hun).
    apply (pruned_fast _ _ _ Hpr) in Hi as [Hi _].
    apply unlinked_fields in Hun as (_&_&He&_&_&_&Hidx&_). rewrite <-He, <-Hidx.
    by apply (indexed_fast _ Hwf i q).
  - intros i q Hi. apply (pruned_fast _ _ _ Hpr) in Hi as [Hi HD].
    destruct (indexed_live _ Hwf _ _ Hi) as [b Hb].
    destruct (pruned_deref_keep _ _ _ _ _ Hpr HD Hb) as (b' & -> & _). eauto.
  - intros k q Hin. apply (pruned_links _ _ _ Hpr) in Hin as [Hin HD].
    destruct (indexed_links _ Hwf _ _ Hin) as (b & Hb & Hk).
    destruct (pruned_deref_keep _ _ _ _ _ Hpr HD Hb) as (b' & Hb' & Hun).
    exists b'. split; [done|].
    apply unlinked_fields in Hun as (_&_&_&_&_&_&_&_&He&_). by rewrite He.
  - intros k q. rewrite (pruned_buckets _ _ _ Hpr), elem_of_difference.
    rewrite (indexed_buckets _ Hwf). split.
    + intros [(b & l & Hb & Hl & Hk) HD].
      destruct (pruned_deref_keep _ _ _ _ _ Hpr HD Hb) as (b' & Hb' & Hun).
      destruct (unlinked_geometry _ _ Hun) as (_ & Hbk & _).
      exists b', l. by rewrite Hbk.
    + intros (b' & l & Hb' & Hl & Hk).
      destruct (pruned_deref_Some _ _ _ _ _ Hpr Hb') as (HD & b & Hb & Hun).
      destruct (unlinked_geometry _ _ Hun) as (_ & Hbk & _).
      split; [|done]. exists b, l. by rewrite Hbk.
Qed.

(** A cache with the same registry, link graph, fast map and buckets is
    as well indexed. *)
Lemma well_indexed_ext st st' :
  block_map st' = block_map st → links_to st' = links_to st →
  fast_block_map st' = fast_block_map st →
  (∀ k, bucket_at k (block_range_map st') = bucket_at k (block_range_map st)) →
  well_indexed st → well_indexed st'.
Proof.
  intros Hm Hl Hf Hb Hwf.
  assert (∀ q, deref q st' = deref q st) as Hd
    by (intros q; unfold deref; by rewrite Hm).
  split.
  - rewrite Hm. apply (indexed_keys _ Hwf).
  - intros k p. unfold key_nodes. rewrite Hm, Hd. apply (indexed_key _ Hwf).
  - intros p b. rewrite Hd. apply (indexed_fits _ Hwf).
  - intros p b. rewrite Hd. apply (indexed_slots _ Hwf).
  - intros i q b. rewrite Hf, Hd. apply (indexed_fast _ Hwf).
  - intros i q. rewrite Hf, Hd. apply (indexed_live _ Hwf).
  - intros k q. rewrite Hl, Hd. apply (indexed_links _ Hwf).
  - intros k q. rewrite Hb. setoid_rewrite Hd. apply (indexed_buckets _ Hwf).
Qed.

End Geometry.

Lemma NoDup_fst_unique {A B} (l : list (A * B)) k a b :
  NoDup (l.*1) → (k, a) ∈ l → (k, b) ∈ l → a = b.
Proof.
  induction l as [|[k' c] l IH]; [by intros _ ?%elem_of_nil|].
  rewrite fmap_cons, NoDup_cons. simpl.
  intros [Hnot Hnd] [Ha|Ha]%elem_of_cons [Hb|Hb]%elem_of_cons.
  - congruence.
  - injection Ha as <- <-. destruct Hnot. apply list_elem_of_fmap.
    by exists (k, b).
  - injection Hb as <- <-. destruct Hnot. apply list_elem_of_fmap.
    by exists (k, a).
  - by apply IH.
Qed.

Lemma mm_deref_erase_key key p q m :
  (∀ kv, kv ∈ m → kv.1 = key ↔ kv.2.1 = p) →
  mm_deref q (mm_erase_key key m) =
  if decide (q = p) then None else mm_deref q m.
Proof.
  unfold mm_erase_key. induction m as [|kv m IH]; intros Hkey.
  - by case_decide.
  - assert (∀ kv', kv' ∈ m → kv'.1 = key ↔ kv'.2.1 = p) as Hkey'
      by (intros kv' Hin; apply Hkey; by right).
    specialize (IH Hkey'). pose proof (Hkey kv ltac:(left)) as Hkv.
    destruct (decide (kv.1 = key)) as [Hk|Hk].
    + rewrite filter_cons_False by (intros Hne; by apply Hne).
      rewrite IH. simpl. destruct (decide (q = p)) as [->|Hne]; [done|].
      rewrite decide_False; [done|]. intros Heq. apply Hne.
      rewrite <-Heq. by apply Hkv.
    + rewrite filter_cons_True by done. simpl.
      destruct (decide (kv.2.1 = q)) as [Hq|Hq].
      * rewrite decide_False; [done|]. intros ->. apply Hk. by apply Hkv.
      * exact IH.
Qed.

Lemma bucket_at_dom q k (m : gmap Z (gset Z)) : q ∈ bucket_at k m → k ∈ dom m.
Proof.
  unfold bucket_at. intros Hq. apply elem_of_dom.
  destruct (m !! k); [eauto|]. by apply elem_of_empty in Hq.
Qed.

Lemma bucket_at_insert a k X (m : gmap Z (gset Z)) :
  bucket_at a (<[k := X]> m) = if decide (a = k) then X else bucket_at a m.
Proof.
  unfold bucket_at. destruct (decide (a = k)) as [->|Hne].
  - by rewrite lookup_insert_eq.
  - by rewrite lookup_insert_ne.
Qed.

Lemma foldl_erase_buckets (p cur : Z) (l : list Z) st :
  let st' :=
    foldl (λ s addr,
             if decide (addr ≠ cur)
             then set_block_range_map
                    (λ m, <[addr := bucket_at addr m ∖ {[p]}]> m) s
             else s)
      st l in
  (∀ a, bucket_at a (block_range_map st') =
        if decide (a ∈ l ∧ a ≠ cur) then bucket_at a (block_range_map st) ∖ {[p]}
        else bucket_at a (block_range_map st)) ∧
  (∀ a, a ∈ dom (block_range_map st') ↔
        a ∈ dom (block_range_map st) ∨ (a ∈ l ∧ a ≠ cur)) ∧
  block_map st' = block_map st ∧ links_to st' = links_to st ∧
  valid_block st' = valid_block st ∧
  fast_block_map st' = fast_block_map st ∧
  fifoWriteAddresses st' = fifoWriteAddresses st ∧
  pairedQuantizeAddresses st' = pairedQuantizeAddresses st.
Proof.
  revert st. induction l as [|x l IH]; intros st; cbn [foldl].
  - split; [|split; [|done]].
    + intros a. rewrite decide_False; [done|]. by intros [?%elem_of_nil _].
    + intros a. split; [by left|]. by intros [?|[?%elem_of_nil _]].
  - destruct (decide (x ≠ cur)) as [Hx|Hx].
    + destruct (IH (set_block_range_map
                      (λ m, <[x := bucket_at x m ∖ {[p]}]> m) st))
        as (Hb & Hd & Hm & Hl & Hv & Hf & Hh1 & Hh2).
      split; [|split; [|done]].
      * intros a. rewrite Hb. simpl. rewrite bucket_at_insert.
        destruct (decide (a = x)) as [->|Hne].
        -- rewrite (decide_True (P := x ∈ x :: l ∧ x ≠ cur)) by (split; [left|done]).
           case_decide; [|done]. by rewrite difference_difference_l_L, (idemp_L (∪)).
        -- destruct (decide (a ∈ l ∧ a ≠ cur)) as [[Hin Hc]|Hin].
           ++ rewrite decide_True; [done|]. split; [by right|done].
           ++ rewrite decide_False; [done|].
              intros [[?|?]%elem_of_cons ?]; [done|]. by apply Hin.
      * intros a. rewrite Hd. simpl. rewrite dom_insert_L, elem_of_union,
          elem_of_singleton, elem_of_cons.
        split; [intros [[->|?]|[? ?]]|intros [?|[[->|?] ?]]]; tauto.
    + destruct (IH st) as (Hb & Hd & Hm & Hl & Hv & Hf & Hh1 & Hh2).
      assert (x = cur) as -> by (destruct (decide (x = cur)); [done|by destruct Hx]).
      split; [|split; [|done]].
      * intros a. rewrite Hb.
        destruct (decide (a ∈ l ∧ a ≠ cur)) as [[Hin Hc]|Hin].
        -- rewrite decide_True; [done|]. split; [by right|done].
        -- rewrite decide_False; [done|].
           intros [[?|?]%elem_of_cons ?]; [done|]. by apply Hin.
      * intros a. rewrite Hd, elem_of_cons.
        split; [intros [?|[? ?]]|intros [?|[[->|?] ?]]]; tauto.
Qed.

Section Invalidating.
Context `{Platform}.

Lemma DestroyBlock_registry p st b :
  deref p st = Some b →
  0 ≤ fast_block_map_index b ≤ FAST_BLOCK_MAP_MASK →
  links_live st →
  ∃ st',
    DestroyBlock p st = Some st' ∧
    key_nodes st' = key_nodes st ∧
    (∀ q, unlinked <$> deref q st' = unlinked <$> deref q st) ∧
    block_range_map st' = block_range_map st ∧
    valid_block st' = valid_block st ∧
    fifoWriteAddresses st' = fifoWriteAddresses st ∧
    pairedQuantizeAddresses st' = pairedQuantizeAddresses st ∧
    fast_block_map st' =
      (if decide (fast_block_map st !! fast_block_map_index b = Some p)
       then delete (fast_block_map_index b) (fast_block_map st)
       else fast_block_map st) ∧
    links_to st' =
      filter (λ kv, ¬ (kv.2 = p ∧ kv.1 ∈ exitAddress <$> linkData b)) (links_to st).
Proof.
  intros Hp Hi Hlive.
  destruct (DestroyBlock_spec p st b Hp Hi Hlive) as (st2 & -> & Hsk & Hrev).
  set (st1 := if decide (_ = Some p) then _ else st) in Hsk.
  assert (block_map st1 = block_map st) as Hm1 by (subst st1; by case_decide).
  assert (∀ q, deref q st1 = deref q st) as Hd1
    by (intros q; unfold deref; by rewrite Hm1).
  destruct (skeleton_fields _ _ Hsk) as (Hl & Hr & Hv & Hf & Hh1 & Hh2).
  eexists. split; [done|].
  split; [|split; [|split; [|split; [|split; [|split; [|split]]]]]].
  - unfold key_nodes. rewrite <- Hm1. exact (skeleton_nodes _ _ Hsk).
  - intros q. rewrite <- Hd1. exact (skeleton_deref _ _ q Hsk).
  - simpl. rewrite Hr. subst st1. by case_decide.
  - simpl. rewrite Hv. subst st1. by case_decide.
  - simpl. rewrite Hh1. subst st1. by case_decide.
  - simpl. rewrite Hh2. subst st1. by case_decide.
  - simpl. rewrite Hf. subst st1. by case_decide.
  - simpl. rewrite Hl. subst st1. by case_decide.
Qed.

Lemma well_indexed_links_live st : well_indexed st → links_live st.
Proof.
  intros Hwf k q Hin. destruct (indexed_links _ Hwf _ _ Hin) as (b & -> & _). eauto.
Qed.

Lemma well_indexed_key_node st p b :
  well_indexed st → deref p st = Some b → (physicalAddress b, p) ∈ key_nodes st.
Proof.
  intros Hwf Hp. destruct (mm_deref_elem _ _ _ Hp) as [k Hk].
  assert ((k, p) ∈ key_nodes st) as Hin.
  { apply list_elem_of_fmap. by exists (k, (p, b)). }
  destruct (indexed_key _ Hwf _ _ Hin) as (b0 & Hb0 & Hk0).
  rewrite Hp in Hb0. injection Hb0 as <-. by rewrite Hk0.
Qed.

(** The body of the set loop removes the block it is at when the block
    overlaps the range, and nothing else. *)
Lemma invalidate_block_spec cur pAddr length p st b :
  well_indexed st → deref p st = Some b →
  p ∈ bucket_at cur (block_range_map st) →
  ∃ st',
    invalidate_block cur pAddr length p st = Some st' ∧
    dom (block_range_map st') = dom (block_range_map st) ∧
    pruned (if Overlap b pAddr length then {[p]} else ∅) st st'.
Proof.
  intros Hwf Hp Hcur. unfold invalidate_block. rewrite Hp; simpl.
  destruct (Overlap b pAddr length) eqn:Hov;
    [|exists st; split; [done|split; [done|apply pruned_refl]]].
  destruct (indexed_fits _ Hwf _ _ Hp) as [Hfit Hend].
  destruct (block_buckets_total b Hend) as [l Hl]. rewrite Hl; simpl.
  destruct (foldl_erase_buckets p cur l st)
    as (Hb1 & Hd1 & Hm1 & Hl1 & Hv1 & Hf1 & Hh1 & Hh1').
  set (st1 := foldl _ st l) in *.
  assert (∀ q, deref q st1 = deref q st) as Hderef1
    by (intros q; unfold deref; by rewrite Hm1).
  assert (links_live st1) as Hlive1.
  { intros k q. rewrite Hl1, Hderef1. by apply well_indexed_links_live. }
  destruct (DestroyBlock_registry p st1 b)
    as (st2 & -> & Hn2 & Hd2 & Hr2 & Hv2 & Hh2 & Hh2' & Hf2 & Hl2).
  { by rewrite Hderef1. }
  { by apply (indexed_slots _ Hwf p). }
  { done. }
  simpl.
  destruct (fmap_deref_Some st2 st1 p b) as (b2 & Hb2 & Hun2).
  { by rewrite Hd2. }
  { by rewrite Hderef1. }
  rewrite Hb2; simpl.
  assert (physicalAddress b2 = physicalAddress b) as ->
    by (by apply unlinked_fields in Hun2 as (_&_&_&_&?&_)).
  eexists. split; [done|].
  (* the buckets of the block *)
  assert (∀ a, a ∈ l ↔ p ∈ bucket_at a (block_range_map st)) as Hbuckets.
  { intros a. rewrite (indexed_buckets _ Hwf). split.
    - intros Ha. by exists b, l.
    - intros (b0 & l0 & Hb0 & Hl0 & Ha). congruence. }
  assert (key_nodes st1 = key_nodes st) as Hn1 by (unfold key_nodes; by rewrite Hm1).
  (* the nodes under the key of the block *)
  assert (∀ kv, kv ∈ block_map st2 → kv.1 = physicalAddress b ↔ kv.2.1 = p) as Hkey.
  { intros kv Hkv.
    assert ((kv.1, kv.2.1) ∈ key_nodes st) as Hin.
    { rewrite <-Hn1, <-Hn2. apply list_elem_of_fmap. by exists kv. }
    split.
    - intros Hk. rewrite Hk in Hin.
      refine (NoDup_fst_unique (key_nodes st) _ _ _ _ Hin
                (well_indexed_key_node _ _ _ Hwf Hp)).
      unfold key_nodes. rewrite <-list_fmap_compose. apply (indexed_keys _ Hwf).
    - intros Hq. rewrite Hq in Hin.
      destruct (indexed_key _ Hwf _ _ Hin) as (b0 & Hb0 & Hk0). congruence. }
  split.
  { simpl. rewrite dom_insert_L, Hr2. apply set_eq. intros a.
    rewrite elem_of_union, elem_of_singleton, Hd1. split.
    - intros [->|[?|[Ha _]]]; [|done|].
      + by apply (bucket_at_dom p).
      + apply (bucket_at_dom p). by apply Hbuckets.
    - intros ?. right. by left. }
  split.
  - intros q. unfold deref at 1. simpl. rewrite (mm_deref_erase_key _ p) by done.
    destruct (decide (q = p)) as [->|Hne].
    + by rewrite decide_True by (by apply elem_of_singleton).
    + rewrite decide_False by (by rewrite elem_of_singleton).
      change (mm_deref q (block_map st2)) with (deref q st2).
      by rewrite Hd2, Hderef1.
  - simpl. etrans; [apply fmap_sublist, sublist_filter|].
    apply (f_equal (fmap fst)) in Hn2, Hn1. unfold key_nodes in Hn2, Hn1.
    rewrite <- !list_fmap_compose in Hn2, Hn1.
    change ((λ kv, kv.1) <$> block_map st2 = (λ kv, kv.1) <$> block_map st1) in Hn2.
    change ((λ kv, kv.1) <$> block_map st1 = (λ kv, kv.1) <$> block_map st) in Hn1.
    by rewrite Hn2, Hn1.
  - intros k q Hin. unfold key_nodes in Hin. simpl in Hin.
    apply list_elem_of_fmap in Hin as (kv & Heq & Hkv).
    apply list_elem_of_filter in Hkv as [Hne Hkv]. injection Heq as -> ->.
    split.
    + rewrite <-Hn1, <-Hn2. apply list_elem_of_fmap. by exists kv.
    + rewrite elem_of_singleton. intros Hq. by apply Hne, Hkey.
  - intros k q. simpl. rewrite Hl2, Hl1. intros [Hnot Hin]%list_elem_of_filter.
    split; [done|]. rewrite elem_of_singleton. intros ->. apply Hnot.
    destruct (indexed_links _ Hwf _ _ Hin) as (b0 & Hb0 & Hk).
    split; [done|]. rewrite Hp in Hb0. by injection Hb0 as <-.
  - intros i q. simpl. rewrite Hf2, Hf1. intros Hi.
    assert (fast_block_map st !! i = Some q) as Hi'.
    { case_decide; [|done]. by apply lookup_delete_Some in Hi as [_ ?]. }
    split; [done|]. rewrite elem_of_singleton. intros ->.
    destruct (indexed_fast _ Hwf _ _ _ Hi' Hp) as [Hidx _].
    rewrite Hidx, decide_True in Hi by done.
    by rewrite lookup_delete_eq in Hi.
  - intros k. simpl. rewrite bucket_at_insert, Hr2, !Hb1.
    rewrite (decide_False (P := cur ∈ l ∧ cur ≠ cur)) by (by intros [_ ?]).
    destruct (decide (k = cur)) as [->|Hne]; [done|].
    destruct (decide (k ∈ l ∧ k ≠ cur)) as [?|Hnot]; [done|].
    symmetry. apply difference_disjoint_L, disjoint_singleton_r.
    rewrite <-Hbuckets. tauto.
  - simpl. by rewrite Hv2, Hv1.
  - simpl. by rewrite Hh2, Hh1.
  - simpl. by rewrite Hh2', Hh1'.
  - intros k q Hin HqD. simpl. rewrite Hl2, Hl1. apply list_elem_of_filter.
    split; [|done]. intros [Hq _]. simpl in Hq. apply HqD.
    by apply elem_of_singleton.
Qed.

End Invalidating.

Lemma pruned_ext D st s1 s2 :
  pruned D st s1 →
  block_map s2 = block_map s1 → links_to s2 = links_to s1 →
  fast_block_map s2 = fast_block_map s1 → valid_block s2 = valid_block s1 →
  fifoWriteAddresses s2 = fifoWriteAddresses s1 →
  pairedQuantizeAddresses s2 = pairedQuantizeAddresses s1 →
  (∀ k, bucket_at k (block_range_map s2) = bucket_at k (block_range_map s1)) →
  pruned D st s2.
Proof.
  intros Hpr Hm Hl Hf Hv Hh Hh' Hb. split.
  - intros q. unfold deref at 1. rewrite Hm. apply (pruned_deref _ _ _ Hpr).
  - rewrite Hm. apply (pruned_keys _ _ _ Hpr).
  - unfold key_nodes at 1. rewrite Hm. apply (pruned_nodes _ _ _ Hpr).
  - rewrite Hl. apply (pruned_links _ _ _ Hpr).
  - rewrite Hf. apply (pruned_fast _ _ _ Hpr).
  - intros k. rewrite Hb. apply (pruned_buckets _ _ _ Hpr).
  - rewrite Hv. apply (pruned_valid _ _ _ Hpr).
  - rewrite Hh. apply (pruned_fifo _ _ _ Hpr).
  - rewrite Hh'. apply (pruned_paired _ _ _ Hpr).
  - rewrite Hl. apply (pruned_kept _ _ _ Hpr).
Qed.

Section Walking.
Context `{Platform}.
Variables lo hi pAddr length : Z.

(** The set loop at the bucket [cur] removes the blocks of the bucket
    that overlap the range. *)
Lemma invalidate_bucket cur R : ∀ s,
  NoDup R → well_indexed s →
  (∀ q, q ∈ R → q ∈ bucket_at cur (block_range_map s)) →
  ∃ s' D,
    for_each (invalidate_block cur pAddr length) R s = Some s' ∧
    dom (block_range_map s') = dom (block_range_map s) ∧
    pruned D s s' ∧
    (∀ q, q ∈ D ↔
          q ∈ R ∧ ∃ b, deref q s = Some b ∧ Overlap b pAddr length = true).
Proof.
  induction R as [|p R IH]; intros s Hnd Hwf HR.
  - exists s, ∅. split; [done|]. split; [done|]. split; [apply pruned_refl|].
    intros q. split; [by intros ?%elem_of_empty|by intros [?%elem_of_nil _]].
  - apply NoDup_cons in Hnd as [Hp Hnd].
    destruct (proj1 (indexed_buckets _ Hwf cur p) (HR p ltac:(left)))
      as (b & l & Hb & _).
    destruct (invalidate_block_spec cur pAddr length p s b Hwf Hb (HR p ltac:(left)))
      as (s1 & Hs1 & Hdom1 & Hpr1).
    set (D1 := if Overlap b pAddr length then {[p]} else ∅) in Hpr1.
    assert (∀ q, q ∈ D1 ↔ q = p ∧ Overlap b pAddr length = true) as HD1.
    { intros q. subst D1. destruct (Overlap b pAddr length).
      - rewrite elem_of_singleton. tauto.
      - split; [by intros ?%elem_of_empty|by intros [_ ?]]. }
    pose proof (well_indexed_pruned _ _ _ Hwf Hpr1) as Hwf1.
    destruct (IH s1 Hnd Hwf1) as (s' & D' & Hrun & Hdom & Hpr & HD).
    { intros q Hq. rewrite (pruned_buckets _ _ _ Hpr1), elem_of_difference.
      split; [apply HR; by right|]. rewrite HD1. intros [-> _]. done. }
    exists s', (D1 ∪ D'). split; [simpl; by rewrite Hs1|].
    split; [by rewrite Hdom|]. split; [by apply (pruned_trans _ _ _ s1)|].
    intros q. rewrite elem_of_union, HD1, HD, elem_of_cons. split.
    + intros [[-> Hov]|[Hq (b1 & Hb1 & Hov)]].
      * split; [by left|]. by exists b.
      * split; [by right|].
        destruct (pruned_deref_Some _ _ _ _ _ Hpr1 Hb1) as (_ & b0 & Hb0 & Hun).
        exists b0. split; [done|].
        destruct (unlinked_geometry _ _ Hun) as (Hsame & _). by rewrite Hsame.
    + intros [[->|Hq] (b0 & Hb0 & Hov)].
      * left. split; [done|]. rewrite Hb in Hb0. by injection Hb0 as <-.
      * right. split; [done|].
        assert (q ∉ D1) as HqD by (rewrite HD1; intros [-> _]; done).
        destruct (pruned_deref_keep _ _ _ _ _ Hpr1 HqD Hb0) as (b1 & Hb1 & Hun).
        exists b1. split; [done|].
        destruct (unlinked_geometry _ _ Hun) as (Hsame & _). by rewrite Hsame.
Qed.

(** The walk over the buckets, from the first bucket at or after [c] to
    the first at or after [hi]. *)
Lemma invalidate_walk_spec n : ∀ st c,
  well_indexed st → lo ≤ c ≤ hi →
  (size (filter (λ k, (c ≤ k)%Z) (dom (block_range_map st))) ≤ n)%nat →
  swept lo c pAddr length st →
  ∃ st' D,
    invalidate_walk n (lower_bound c (block_range_map st))
      (lower_bound hi (block_range_map st)) pAddr length st = Some st' ∧
    pruned D st st' ∧
    swept lo hi pAddr length st' ∧
    (∀ q, q ∈ D → ∃ b, deref q st = Some b ∧ Overlap b pAddr length = true).
Proof.
  assert (∀ n st c,
            lower_bound c (block_range_map st) = lower_bound hi (block_range_map st) →
            c ≤ hi → swept lo c pAddr length st →
            ∃ st' D,
              invalidate_walk n (lower_bound c (block_range_map st))
                (lower_bound hi (block_range_map st)) pAddr length st = Some st' ∧
              pruned D st st' ∧ swept lo hi pAddr length st' ∧
              (∀ q, q ∈ D → ∃ b, deref q st = Some b ∧ Overlap b pAddr length = true))
    as Hdone.
  { intros n0 st c Heq Hc Hswept. exists st, ∅.
    split; [destruct n0; simpl; by rewrite decide_True|].
    split; [apply pruned_refl|]. split; [|by intros q ?%elem_of_empty].
    intros q b k Hq Hov Hk Hlo.
    pose proof (Hswept q b k Hq Hov Hk Hlo) as Hck.
    apply bucket_at_dom in Hk.
    destruct (lower_bound hi (block_range_map st)) as [x|] eqn:Hx.
    - apply lower_bound_Some in Hx as (_ & Hhx & _).
      apply lower_bound_Some in Heq as (_ & _ & Hmin).
      specialize (Hmin k Hk Hck). lia.
    - pose proof (lower_bound_None _ _ _ Heq Hk). lia. }
  induction n as [|n IH]; intros st c Hwf Hc Hfuel Hswept;
    (destruct (decide (lower_bound c (block_range_map st) =
                       lower_bound hi (block_range_map st))) as [Heq|Hne];
     [apply Hdone; [done|lia|done]|]).
  all: destruct (lower_bound c (block_range_map st)) as [cur|] eqn:Hcur;
    [|by rewrite (lower_bound_None_mono c hi) in Hne by (done || lia)].
  all: pose proof (lower_bound_Some _ _ _ Hcur) as (Hin & Hccur & Hmin).
  all: assert (cur < hi) as Hcurhi
    by (destruct (decide (cur < hi)); [done|];
        rewrite (lower_bound_between c hi _ cur) in Hne by (done || lia); done).
  all: assert (cur ∈ filter (λ k, c ≤ k) (dom (block_range_map st))) as Hcurin
    by (by apply elem_of_filter).
  { assert (size (filter (λ k, c ≤ k) (dom (block_range_map st))) ≠ 0%nat) as Hsz.
    { intros Hz%size_empty_inv. by apply Hz in Hcurin. }
    lia. }
  simpl. rewrite decide_False by done. simpl.
  apply elem_of_dom in Hin as [bucket Hbucket]. rewrite Hbucket; simpl.
  destruct (invalidate_bucket cur (set_order bucket) st (set_order_NoDup _) Hwf)
    as (s1 & D1 & Hrun1 & Hdom1 & Hpr1 & HD1).
  { intros q Hq%set_order_elem. unfold bucket_at. by rewrite Hbucket. }
  rewrite Hrun1; simpl.
  assert (∀ s2,
            block_map s2 = block_map s1 → links_to s2 = links_to s1 →
            fast_block_map s2 = fast_block_map s1 → valid_block s2 = valid_block s1 →
            fifoWriteAddresses s2 = fifoWriteAddresses s1 →
            pairedQuantizeAddresses s2 = pairedQuantizeAddresses s1 →
            (∀ k, bucket_at k (block_range_map s2) = bucket_at k (block_range_map s1)) →
            (∀ k, k ∈ dom (block_range_map s2) → k ∈ dom (block_range_map s1)) →
            (∀ k, k ≠ cur → k ∈ dom (block_range_map s1) → k ∈ dom (block_range_map s2)) →
            ∃ st' D,
              invalidate_walk n (next_key cur (block_range_map s2))
                (lower_bound hi (block_range_map st)) pAddr length s2 = Some st' ∧
              pruned D st st' ∧ swept lo hi pAddr length st' ∧
              (∀ q, q ∈ D → ∃ b, deref q st = Some b ∧ Overlap b pAddr length = true))
    as Hrest.
  2: { case_decide as Hempty.
       - pose proof (Hrest (set_block_range_map (delete cur) s1)) as Hrest'.
         simpl in Hrest'. apply Hrest'; try done.
         + intros k. simpl. unfold bucket_at.
           destruct (decide (k = cur)) as [->|Hk].
           * rewrite lookup_delete_eq. simpl. symmetry. exact Hempty.
           * by rewrite lookup_delete_ne.
         + intros k. simpl. rewrite dom_delete_L, elem_of_difference. tauto.
         + intros k Hk. simpl.
           rewrite dom_delete_L, elem_of_difference, elem_of_singleton. tauto.
       - by apply (Hrest s1). }
  intros s2 Hm2 Hl2 Hf2 Hv2 Hh2 Hh2' Hb2 Hsub2 Hsup2.
  pose proof (pruned_ext _ _ _ _ Hpr1 Hm2 Hl2 Hf2 Hv2 Hh2 Hh2' Hb2) as Hpr2.
  pose proof (well_indexed_pruned _ _ _ Hwf Hpr2) as Hwf2.
  rewrite next_key_lower_bound.
  rewrite (lower_bound_ext hi (block_range_map st) (block_range_map s2)).
  2: { intros x Hx. rewrite <-Hdom1. split; [apply Hsup2; lia|apply Hsub2]. }
  destruct (IH s2 (cur + 1)) as (st' & D2 & Hrun & Hpr & Hsw & HD2);
    [done|lia| |
     |exists st', (D1 ∪ D2); split; [done|]; split;
        [by apply (pruned_trans _ _ _ s2)|]; split; [done|]].
  - assert (filter (λ k, cur + 1 ≤ k) (dom (block_range_map s2)) ⊂
            filter (λ k, c ≤ k) (dom (block_range_map st))) as Hsubset.
    { split.
      - intros x [Hx Hxin]%elem_of_filter. apply elem_of_filter.
        split; [lia|]. rewrite <-Hdom1. by apply Hsub2.
      - intros Hall. apply Hall, elem_of_filter in Hcurin as [? _]. lia. }
    apply subset_size in Hsubset. lia.
  - intros q b2 k Hq Hov Hk Hlo.
    destruct (pruned_deref_Some _ _ _ _ _ Hpr2 Hq) as (HqD & b0 & Hb0 & Hun).
    destruct (unlinked_geometry _ _ Hun) as (Hsame & _).
    rewrite (pruned_buckets _ _ _ Hpr2), elem_of_difference in Hk.
    destruct Hk as [Hk _].
    pose proof (Hswept q b0 k Hb0 ltac:(by rewrite Hsame) Hk Hlo) as Hck.
    pose proof (Hmin k (bucket_at_dom _ _ _ Hk) Hck) as Hcurk.
    destruct (decide (k = cur)) as [->|Hkne]; [|lia].
    destruct HqD. apply HD1. split.
    + apply set_order_elem. unfold bucket_at in Hk. by rewrite Hbucket in Hk.
    + exists b0. split; [done|]. by rewrite Hsame.
  - intros q [Hq|Hq]%elem_of_union.
    + by apply HD1 in Hq as [_ ?].
    + destruct (HD2 q Hq) as (b2 & Hb2' & Hov).
      destruct (pruned_deref_Some _ _ _ _ _ Hpr2 Hb2') as (_ & b0 & Hb0 & Hun).
      destruct (unlinked_geometry _ _ Hun) as (Hsame & _).
      exists b0. split; [done|]. by rewrite Hsame.
Qed.

End Walking.

(** ** The hint loop *)

Lemma hint_addrs_spec bound n : ∀ i,
  0 ≤ i → bound + 3 < 2 ^ 32 →
  (i < bound → (Z.to_nat ((bound - i + 3) / 4) ≤ n)%nat) →
  ∃ l, hint_addrs n i bound = Some l ∧
       ∀ a, a ∈ l ↔ ∃ k, 0 ≤ k ∧ a = i + 4 * k ∧ a < bound.
Proof.
  assert (∀ i a, bound ≤ i → ¬ ∃ k, 0 ≤ k ∧ a = i + 4 * k ∧ a < bound) as Hnone
    by (intros i a Hi (k & ? & -> & ?); lia).
  assert (∀ i, i < bound → 1 ≤ (bound - i + 3) / 4) as Hturn.
  { intros i Hi. apply Z.div_le_lower_bound; lia. }
  induction n as [|n IH]; intros i Hi Hbound Hfuel; simpl.
  - destruct (Z.leb_spec bound i) as [Hle|Hlt].
    + exists []. split; [done|]. intros a. rewrite elem_of_nil.
      split; [done|]. by apply Hnone.
    + specialize (Hfuel Hlt). specialize (Hturn i Hlt). lia.
  - destruct (Z.leb_spec bound i) as [Hle|Hlt].
    + exists []. split; [done|]. intros a. rewrite elem_of_nil.
      split; [done|]. by apply Hnone.
    + assert (u32 (i + 4) = i + 4) as -> by (apply Z.mod_small; lia).
      destruct (IH (i + 4)) as (l & -> & Hl); [lia|done| |].
      { intros Hlt'. specialize (Hfuel Hlt).
        replace (bound - i + 3) with (bound - (i + 4) + 3 + 1 * 4) in Hfuel by lia.
        rewrite Z.div_add in Hfuel by lia.
        specialize (Hturn (i + 4) Hlt'). lia. }
      exists (i :: l). split; [done|]. intros a. rewrite elem_of_cons, Hl. split.
      * intros [->|(k & Hk & -> & Ha)].
        -- exists 0. lia.
        -- exists (k + 1). lia.
      * intros (k & Hk & -> & Ha). destruct (decide (k = 0)) as [->|Hne].
        -- left. lia.
        -- right. exists (k - 1). lia.
Qed.

Lemma foldl_erase_hints (l : list Z) st :
  let st' := foldl (λ s i, set_hints (λ h, h ∖ {[i]}) s) st l in
  (∀ a, a ∈ fifoWriteAddresses st' ↔ a ∈ fifoWriteAddresses st ∧ a ∉ l) ∧
  (∀ a, a ∈ pairedQuantizeAddresses st' ↔ a ∈ pairedQuantizeAddresses st ∧ a ∉ l) ∧
  block_map st' = block_map st ∧ links_to st' = links_to st ∧
  block_range_map st' = block_range_map st ∧
  valid_block st' = valid_block st ∧
  fast_block_map st' = fast_block_map st.
Proof.
  revert st. induction l as [|x l IH]; intros st; cbn [foldl].
  - split; [|split; [|done]]; intros a; rewrite elem_of_nil; tauto.
  - destruct (IH (set_hints (λ h, h ∖ {[x]}) st)) as (Hf & Hp & Hm & Hl & Hr & Hv & Hfm).
    split; [|split; [|done]]; intros a.
    + rewrite Hf. simpl.
      rewrite elem_of_difference, elem_of_singleton, not_elem_of_cons. tauto.
    + rewrite Hp. simpl.
      rewrite elem_of_difference, elem_of_singleton, not_elem_of_cons. tauto.
Qed.

(** The hint loop of [InvalidateICache] ends when [address + length]
    does not wrap around, and erases the addresses [address + 4k] below
    [address + length] from both hint sets. *)
Lemma erase_hints_spec address length st :
  0 ≤ address → 0 ≤ length → address + length + 3 < 2 ^ 32 →
  ∃ st',
    erase_hints address length st = Some st' ∧
    (∀ a, a ∈ fifoWriteAddresses st' ↔
          a ∈ fifoWriteAddresses st ∧
          ¬ ∃ k, 0 ≤ k ∧ a = address + 4 * k ∧ a < address + length) ∧
    (∀ a, a ∈ pairedQuantizeAddresses st' ↔
          a ∈ pairedQuantizeAddresses st ∧
          ¬ ∃ k, 0 ≤ k ∧ a = address + 4 * k ∧ a < address + length) ∧
    block_map st' = block_map st ∧ links_to st' = links_to st ∧
    block_range_map st' = block_range_map st ∧
    valid_block st' = valid_block st ∧
    fast_block_map st' = fast_block_map st.
Proof.
  intros Ha Hlen Hwrap. unfold erase_hints.
  assert (u32 (address + length) = address + length) as ->
    by (apply Z.mod_small; lia).
  destruct (hint_addrs_spec (address + length)
              (Z.to_nat ((address + length - address + 3) / 4)) address)
    as (l & -> & Hl); [done|lia|done|].
  simpl. eexists. split; [done|].
  destruct (foldl_erase_hints l st) as (Hf & Hp & Hrest).
  split; [|split; [|exact Hrest]]; intros a.
  - by rewrite Hf, Hl.
  - by rewrite Hp, Hl.
Qed.

(** ** The buckets of an overlapping block *)

Section Covered.
Context `{Platform}.
Variable j : Z.
Hypothesis Hj : 0 ≤ j < 32.
Hypothesis HB : BLOCK_RANGE_MAP_ELEMENTS = 2 ^ j.

(** A block that [Overlap] finds in the range has a bucket between the
    bucket address of the start of the range and the end of the range. *)
Lemma overlapping_bucket b pAddr length l :
  block_fits b → buckets_end b → block_buckets b = Some l →
  0 ≤ pAddr → 0 < length → pAddr + length < 2 ^ 32 →
  Overlap b pAddr length = true →
  ∃ k, k ∈ l ∧ Z.land pAddr range_mask ≤ k < pAddr + length.
Proof.
  intros (Hphys & Hsize & Hfit) [HBpos Hend] Hl HpAddr Hlen Hwrap Hov.
  assert (block_end b = physicalAddress b + 4 * (originalSize b - 1)) as He.
  { unfold block_end, u32. rewrite (Z.mod_small ((originalSize b - 1) * 4)) by lia.
    rewrite Z.mod_small by lia. lia. }
  rewrite He in Hend. unfold block_buckets in Hl. rewrite He in Hl.
  set (e := physicalAddress b + 4 * (originalSize b - 1)) in *.
  set (B := BLOCK_RANGE_MAP_ELEMENTS) in *.
  assert (∀ x, 0 ≤ x < 2 ^ 32 → Z.land x range_mask = B * (x / B)) as Hland.
  { intros x Hx. rewrite (land_range_mask j Hj HB x Hx). fold B.
    pose proof (Z.div_mod x B). lia. }
  rewrite (Hland (physicalAddress b)), (Hland e) in Hl by lia.
  rewrite (Hland e) in Hend by lia. rewrite (Hland pAddr) by lia.
  assert (0 ≤ physicalAddress b / B) by (apply Z.div_pos; lia).
  assert (0 ≤ B * (physicalAddress b / B)) as Hfirst
    by (apply Z.mul_nonneg_nonneg; lia).
  pose proof (bucket_addrs_elem _ _ _ _ HBpos Hfirst Hend Hl) as Helem.
  unfold Overlap in Hov.
  destruct (Z.leb_spec (u32 (physicalAddress b + originalSize b)) pAddr) as [|Hlt1];
    [done|].
  destruct (Z.leb_spec (u32 (pAddr + length)) (physicalAddress b)) as [|Hlt2];
    [done|].
  assert (u32 (pAddr + length) = pAddr + length) as Hu by (apply Z.mod_small; lia).
  rewrite Hu in Hlt2.
  assert (u32 (physicalAddress b + originalSize b) ≤ physicalAddress b + originalSize b)
    by (apply Z.mod_le; lia).
  assert (pAddr ≤ e) by (subst e; lia).
  assert (physicalAddress b ≤ e) by (subst e; lia).
  assert (pAddr / B ≤ e / B) by (apply Z.div_le_mono; lia).
  assert (physicalAddress b / B ≤ e / B) by (apply Z.div_le_mono; lia).
  assert (B * (pAddr / B) ≤ pAddr) by (apply Z.mul_div_le; lia).
  assert (B * (physicalAddress b / B) ≤ physicalAddress b) by (apply Z.mul_div_le; lia).
  destruct (decide (pAddr / B ≤ physicalAddress b / B)) as [Hle|Hgt].
  - exists (B * (physicalAddress b / B)). split.
    + apply Helem. exists 0. split; [done|]. split; [lia|].
      apply Z.mul_le_mono_nonneg_l; lia.
    + split; [apply Z.mul_le_mono_nonneg_l; lia|lia].
  - exists (B * (pAddr / B)). split.
    + apply Helem. exists (pAddr / B - physicalAddress b / B).
      split; [lia|]. split; [lia|]. apply Z.mul_le_mono_nonneg_l; lia.
    + lia.
Qed.

Variables address pAddr length : Z.
Variable forced : bool.
Hypothesis HpAddr : 0 ≤ pAddr.
Hypothesis Hlength : 0 < length.
Hypothesis Hwrap : pAddr + length < 2 ^ 32.

(** The destroying part of [InvalidateICache]: the walk ends within as
    many turns as the range index has buckets, and removes the blocks
    that overlap the range. *)
Lemma destroy_blocks_spec n st :
  well_indexed st → (size (block_range_map st) ≤ n)%nat →
  ∃ s1 D,
    destroy_blocks n address pAddr length forced st =
      (if forced then Some s1 else erase_hints address length s1) ∧
    pruned D st s1 ∧
    (∀ q, q ∈ D ↔ ∃ b, deref q st = Some b ∧ Overlap b pAddr length = true) ∧
    (∀ q b, deref q s1 = Some b → Overlap b pAddr length = false).
Proof.
  intros Hwf Hfuel. unfold destroy_blocks.
  assert (u32 (pAddr + length) = pAddr + length) as ->
    by (apply Z.mod_small; lia).
  set (lo := Z.land pAddr range_mask).
  assert (lo ≤ pAddr) as Hlo.
  { subst lo. rewrite (land_range_mask j Hj HB) by lia.
    assert (0 < BLOCK_RANGE_MAP_ELEMENTS) by (rewrite HB; apply Z.pow_pos_nonneg; lia).
    pose proof (Z.mod_pos_bound pAddr BLOCK_RANGE_MAP_ELEMENTS). lia. }
  destruct (invalidate_walk_spec lo (pAddr + length) pAddr length n st lo)
    as (s1 & D & -> & Hpr & Hswept & HD); [done|lia| |by intros q b k _ _ _ ?|].
  { etrans; [|exact Hfuel]. rewrite <-size_dom.
    apply subseteq_size. intros x [_ ?]%elem_of_filter. done. }
  simpl. exists s1, D. split; [done|]. split; [done|].
  pose proof (well_indexed_pruned _ _ _ Hwf Hpr) as Hwf1.
  assert (∀ q b, deref q s1 = Some b → Overlap b pAddr length = false) as Hnone.
  { intros q b Hq. destruct (Overlap b pAddr length) eqn:Hov; [|done].
    destruct (indexed_fits _ Hwf1 _ _ Hq) as [Hfit Hend].
    destruct (block_buckets_total b Hend) as [l Hl].
    destruct (overlapping_bucket b pAddr length l) as (k & Hk & Hklo & Hkhi); try done.
    assert (q ∈ bucket_at k (block_range_map s1)) as Hin.
    { apply (indexed_buckets _ Hwf1). by exists b, l. }
    pose proof (Hswept q b k Hq Hov Hin Hklo). lia. }
  split; [|done]. intros q. split; [apply HD|].
  intros (b & Hb & Hov). destruct (decide (q ∈ D)) as [|HqD]; [done|].
  destruct (pruned_deref_keep _ _ _ _ _ Hpr HqD Hb) as (b1 & Hb1 & Hun).
  destruct (unlinked_geometry _ _ Hun) as (Hsame & _).
  rewrite <-Hsame, (Hnone q b1 Hb1) in Hov. done.
Qed.

End Covered.

(** ** InvalidateICache on a well-indexed cache *)

Section Invalidation.
Context `{Platform}.
Variable j : Z.
Hypothesis Hj : 0 ≤ j < 32.
Hypothesis HB : BLOCK_RANGE_MAP_ELEMENTS = 2 ^ j.

(** What [InvalidateICache] returns when the translation is valid and
    the short circuit of [length == 32] is not taken. *)
Lemma InvalidateICache_result n address length forced st :
  let translated := JitCache_TranslateAddress address in
  let pAddr := TranslateResult.address translated in
  well_indexed st →
  TranslateResult.valid translated = true →
  0 ≤ pAddr → 0 < length → pAddr + length < 2 ^ 32 →
  (length = 32 → ValidBlockBitSet_Test (pAddr / 32) (valid_block st) = true) →
  (forced = false → 0 ≤ address ∧ address + length + 3 < 2 ^ 32) →
  (size (block_range_map st) ≤ n)%nat →
  ∃ st' (D : gset Z),
    InvalidateICache n address length forced st = Some st' ∧
    (∀ q, unlinked <$> deref q st' =
          if decide (q ∈ D) then None else unlinked <$> deref q st) ∧
    (∀ q, q ∈ D ↔ ∃ b, deref q st = Some b ∧ Overlap b pAddr length = true) ∧
    (∀ q b, deref q st' = Some b → Overlap b pAddr length = false) ∧
    well_indexed st' ∧
    (∀ i q, fast_block_map st' !! i = Some q →
            fast_block_map st !! i = Some q ∧ q ∉ D) ∧
    (∀ k q, (k, q) ∈ links_to st → q ∉ D → (k, q) ∈ links_to st') ∧
    (∀ a, a ∈ fifoWriteAddresses st' ↔
          a ∈ fifoWriteAddresses st ∧
          (forced = true ∨
           ¬ ∃ k, 0 ≤ k ∧ a = address + 4 * k ∧ a < address + length)) ∧
    (∀ a, a ∈ pairedQuantizeAddresses st' ↔
          a ∈ pairedQuantizeAddresses st ∧
          (forced = true ∨
           ¬ ∃ k, 0 ≤ k ∧ a = address + 4 * k ∧ a < address + length)) ∧
    (length ≠ 32 → valid_block st' = valid_block st).
Proof.
  intros translated pAddr Hwf Hvalid HpAddr Hlen Hwrap Htest Haddr Hfuel.
  set (st0 := if decide (length = 32)
              then set_valid_block (ValidBlockBitSet_Clear (pAddr / 32)) st
              else st).
  assert (InvalidateICache n address length forced st =
          destroy_blocks n address pAddr length forced st0) as ->.
  { unfold InvalidateICache. fold translated. rewrite Hvalid. simpl. fold pAddr.
    subst st0. destruct (decide (length = 32)) as [H32|]; [|done].
    by rewrite (Htest H32). }
  assert (block_map st0 = block_map st ∧ links_to st0 = links_to st ∧
          fast_block_map st0 = fast_block_map st ∧
          block_range_map st0 = block_range_map st ∧
          fifoWriteAddresses st0 = fifoWriteAddresses st ∧
          pairedQuantizeAddresses st0 = pairedQuantizeAddresses st ∧
          (length ≠ 32 → valid_block st0 = valid_block st))
    as (Hm0 & Hl0 & Hf0 & Hr0 & Hh0 & Hh0' & Hv0)
    by (subst st0; by destruct (decide (length = 32))).
  assert (∀ q, deref q st0 = deref q st) as Hd0
    by (intros q; unfold deref; by rewrite Hm0).
  assert (well_indexed st0) as Hwf0.
  { apply (well_indexed_ext st); try done. intros k. by rewrite Hr0. }
  destruct (destroy_blocks_spec j Hj HB address pAddr length forced
              HpAddr Hlen Hwrap n st0)
    as (s1 & D & -> & Hpr & HD & Hnone); [done|by rewrite Hr0|].
  pose proof (well_indexed_pruned _ _ _ Hwf0 Hpr) as Hwf1.
  assert (∀ st',
            block_map st' = block_map s1 → links_to st' = links_to s1 →
            block_range_map st' = block_range_map s1 →
            valid_block st' = valid_block s1 →
            fast_block_map st' = fast_block_map s1 →
            (∀ q, unlinked <$> deref q st' =
                  if decide (q ∈ D) then None else unlinked <$> deref q st) ∧
            (∀ q, q ∈ D ↔ ∃ b, deref q st = Some b ∧ Overlap b pAddr length = true) ∧
            (∀ q b, deref q st' = Some b → Overlap b pAddr length = false) ∧
            well_indexed st' ∧
            (∀ i q, fast_block_map st' !! i = Some q →
                    fast_block_map st !! i = Some q ∧ q ∉ D) ∧
            (∀ k q, (k, q) ∈ links_to st → q ∉ D → (k, q) ∈ links_to st') ∧
            (length ≠ 32 → valid_block st' = valid_block st)) as Hframe.
  { intros st' Hm Hl Hr Hv Hf.
    assert (∀ q, deref q st' = deref q s1) as Hd
      by (intros q; unfold deref; by rewrite Hm).
    split; [|split; [|split; [|split; [|split; [|split]]]]].
    - intros q. rewrite Hd, <-Hd0. apply (pruned_deref _ _ _ Hpr).
    - intros q. rewrite HD. by setoid_rewrite Hd0.
    - intros q b. rewrite Hd. apply Hnone.
    - apply (well_indexed_ext s1); try done. intros k. by rewrite Hr.
    - intros i q. rewrite Hf, <-Hf0. apply (pruned_fast _ _ _ Hpr).
    - intros k q. rewrite Hl, <-Hl0. apply (pruned_kept _ _ _ Hpr).
    - intros H32. rewrite Hv, (pruned_valid _ _ _ Hpr). by apply Hv0. }
  destruct forced.
  - exists s1, D. split; [done|].
    destruct (Hframe s1) as (?&?&?&?&?&?&?); try done.
    repeat (split; [done|]).
    split; [|split; [|done]]; intros a.
    + rewrite (pruned_fifo _ _ _ Hpr), Hh0. split; [by eauto|by intros [? _]].
    + rewrite (pruned_paired _ _ _ Hpr), Hh0'. split; [by eauto|by intros [? _]].
  - destruct (Haddr eq_refl) as [Ha Hawrap].
    destruct (erase_hints_spec address length s1)
      as (st' & -> & Hfifo & Hpaired & Hm & Hl & Hr & Hv & Hf); [done|lia|done|].
    exists st', D. split; [done|].
    destruct (Hframe st') as (?&?&?&?&?&?&?); try done.
    repeat (split; [done|]).
    split; [|split; [|done]]; intros a.
    + rewrite Hfifo, (pruned_fifo _ _ _ Hpr), Hh0.
      split; [intros [? ?]; eauto|intros [? [?|?]]; done].
    + rewrite Hpaired, (pruned_paired _ _ _ Hpr), Hh0'.
      split; [intros [? ?]; eauto|intros [? [?|?]]; done].
Qed.

(** X12. On a well-indexed cache, with buckets of a power of two bytes,
    [InvalidateICache] completes when the translation of [address] is
    valid, the physical range is not empty and does not wrap around,
    [length] is not 32 or the valid bit of the chunk is set, the hint
    loop does not wrap around when [forced] is false, and the bound is at
    least the number of buckets. Afterwards no registered block overlaps
    the range in the sense of [Overlap]; the blocks that did not overlap
    are still registered, the same up to the link flags of their exits,
    and no other block is registered; the cache is well indexed again. *)
Theorem InvalidateICache_removes_overlapping n address length forced st :
  let translated := JitCache_TranslateAddress address in
  let pAddr := TranslateResult.address translated in
  well_indexed st →
  TranslateResult.valid translated = true →
  0 ≤ pAddr → 0 < length → pAddr + length < 2 ^ 32 →
  (length = 32 → ValidBlockBitSet_Test (pAddr / 32) (valid_block st) = true) →
  (forced = false → 0 ≤ address ∧ address + length + 3 < 2 ^ 32) →
  (size (block_range_map st) ≤ n)%nat →
  ∃ st',
    InvalidateICache n address length forced st = Some st' ∧
    (∀ q b', deref q st' = Some b' →
       Overlap b' pAddr length = false ∧
       ∃ b, deref q st = Some b ∧ unlinked b' = unlinked b) ∧
    (∀ q b, deref q st = Some b → Overlap b pAddr length = false →
       ∃ b', deref q st' = Some b' ∧ unlinked b' = unlinked b) ∧
    well_indexed st'.
Proof.
  intros translated pAddr. subst translated pAddr.
  intros Hwf Hvalid HpAddr Hlen Hwrap Htest Haddr Hfuel.
  destruct (InvalidateICache_result n address length forced st)
    as (st' & D & Hrun & Hderef & HD & Hnone & Hwf' & Hfast & _); try done.
  exists st'. split; [done|].
  split; [|split; [|done]].
  - intros q b' Hq. split; [by apply (Hnone q)|].
    specialize (Hderef q). destruct (decide (q ∈ D)); [by rewrite Hq in Hderef|].
    destruct (fmap_deref_Some st st' q b' Hderef Hq) as (b & Hb & Hun). eauto.
  - intros q b Hq Hov. specialize (Hderef q).
    rewrite decide_False in Hderef.
    + by apply (fmap_deref_Some st' st).
    + intros (b0 & Hb0 & Hov0)%HD. congruence.
Qed.

(** X13. Under the same conditions, [InvalidateICache] with [forced]
    false erases from both hint sets the addresses [address + 4k] below
    [address + length] and no other; with [forced] true it leaves both
    sets as they are. The valid bitmap is as before when [length] is
    not 32. *)
Theorem InvalidateICache_hints n address length forced st :
  let translated := JitCache_TranslateAddress address in
  let pAddr := TranslateResult.address translated in
  well_indexed st →
  TranslateResult.valid translated = true →
  0 ≤ pAddr → 0 < length → pAddr + length < 2 ^ 32 →
  (length = 32 → ValidBlockBitSet_Test (pAddr / 32) (valid_block st) = true) →
  (forced = false → 0 ≤ address ∧ address + length + 3 < 2 ^ 32) →
  (size (block_range_map st) ≤ n)%nat →
  ∃ st',
    InvalidateICache n address length forced st = Some st' ∧
    (∀ a, a ∈ fifoWriteAddresses st' ↔
          a ∈ fifoWriteAddresses st ∧
          (forced = true ∨
           ¬ ∃ k, 0 ≤ k ∧ a = address + 4 * k ∧ a < address + length)) ∧
    (∀ a, a ∈ pairedQuantizeAddresses st' ↔
          a ∈ pairedQuantizeAddresses st ∧
          (forced = true ∨
           ¬ ∃ k, 0 ≤ k ∧ a = address + 4 * k ∧ a < address + length)) ∧
    (length ≠ 32 → valid_block st' = valid_block st).
Proof.
  intros translated pAddr. subst translated pAddr.
  intros Hwf Hvalid HpAddr Hlen Hwrap Htest Haddr Hfuel.
  destruct (InvalidateICache_result n address length forced st)
    as (st' & D & Hrun & _ & _ & _ & _ & _ & _ & Hfifo & Hpaired & Hbits); try done.
  by exists st'.
Qed.

End Invalidation.

(** ** Checking the index of a given state *)

Lemma well_indexed_check `{Platform} st :
  bool_decide (NoDup ((λ kv, kv.1) <$> block_map st)) = true →
  bool_decide (NoDup ((λ kv, kv.2.1) <$> block_map st)) = true →
  slots_in_range st → fast_map_consistent st → fast_live st →
  forallb
    (λ kv,
       (kv.1 =? physicalAddress kv.2.2) &&
       (0 <=? physicalAddress kv.2.2) && (0 <? originalSize kv.2.2) &&
       (physicalAddress kv.2.2 + 4 * (originalSize kv.2.2 - 1) <? 2 ^ 32) &&
       (0 <? BLOCK_RANGE_MAP_ELEMENTS) &&
       (Z.land (block_end kv.2.2) range_mask + BLOCK_RANGE_MAP_ELEMENTS <? 2 ^ 32) &&
       match block_buckets kv.2.2 with
       | Some l =>
           forallb (λ k, bool_decide (kv.2.1 ∈ bucket_at k (block_range_map st))) l
       | None => false
       end)
    (block_map st) = true →
  forallb
    (λ kq, match deref kq.2 st with
           | Some b => bool_decide (kq.1 ∈ exitAddress <$> linkData b)
           | None => false
           end)
    (links_to st) = true →
  forallb
    (λ kb, forallb
             (λ q, match deref q st with
                   | Some b =>
                       match block_buckets b with
                       | Some l => bool_decide (kb.1 ∈ l)
                       | None => false
                       end
                   | None => false
                   end)
             (elements kb.2))
    (map_to_list (block_range_map st)) = true →
  well_indexed st.
Proof.
  intros Hkeys%bool_decide_eq_true Hnodes%bool_decide_eq_true Hslots Hfast Hlive.
  rewrite !forallb_forall. intros Hblocks Hlinks Hbuckets.
  assert (∀ p b, deref p st = Some b → ∃ k, In (k, (p, b)) (block_map st)) as Hentry.
  { intros p b Hp. destruct (mm_deref_elem _ _ _ Hp) as [k Hk].
    exists k. by apply list_elem_of_In. }
  split; try done.
  - intros k p (kv & Heq & Hkv)%list_elem_of_fmap. injection Heq as -> ->.
    exists kv.2.2. split; [by apply mm_deref_NoDup|].
    apply list_elem_of_In, Hblocks in Hkv. lia.
  - intros p b Hp. destruct (Hentry p b Hp) as [k Hk].
    apply Hblocks in Hk. simpl in Hk. unfold block_fits, buckets_end. lia.
  - intros k q Hin. apply list_elem_of_In, Hlinks in Hin. simpl in Hin.
    destruct (deref q st) as [b|]; [|done].
    exists b. split; [done|]. by apply bool_decide_eq_true in Hin.
  - intros k q. split.
    + intros Hq. unfold bucket_at in Hq.
      destruct (block_range_map st !! k) as [bucket|] eqn:Hk;
        [|by apply elem_of_empty in Hq].
      apply elem_of_map_to_list, list_elem_of_In, Hbuckets in Hk.
      rewrite forallb_forall in Hk.
      apply elem_of_elements, list_elem_of_In, Hk in Hq. simpl in Hq.
      destruct (deref q st) as [b|]; [|done].
      destruct (block_buckets b) as [l|] eqn:Hl; [|done].
      exists b, l. split; [done|]. split; [done|]. by apply bool_decide_eq_true in Hq.
    + intros (b & l & Hb & Hl & Hk). destruct (Hentry q b Hb) as [k0 Hk0].
      apply Hblocks in Hk0. simpl in Hk0. rewrite Hl in Hk0.
      apply andb_prop in Hk0 as [_ Hk0]. rewrite forallb_forall in Hk0.
      apply list_elem_of_In, Hk0 in Hk. by apply bool_decide_eq_true in Hk.
Qed.

Lemma linked_pair_indexed : well_indexed (H := Scenario.platform) Scenario.linked_pair.
Proof.
  apply well_indexed_check.
  - vm_compute. reflexivity.
  - vm_compute. reflexivity.
  - apply slots_in_range_check. vm_compute. reflexivity.
  - apply fast_map_consistent_check. vm_compute. reflexivity.
  - apply fast_live_check. vm_compute. reflexivity.
  - vm_compute. reflexivity.
  - vm_compute. reflexivity.
  - vm_compute. reflexivity.
Qed.

Lemma InvalidateICache_removes_overlapping_witness :
  ∃ st',
    InvalidateICache (H := Scenario.platform) 2 0x1000 4 false Scenario.linked_pair =
      Some st' ∧
    deref 1 st' = None ∧ is_Some (deref 2 st').
Proof.
  destruct (InvalidateICache_removes_overlapping (H := Scenario.platform) 8
              ltac:(lia) eq_refl 2 0x1000 4 false Scenario.linked_pair)
    as (st' & Hrun & Hgone & Hkept & _).
  - exact linked_pair_indexed.
  - reflexivity.
  - vm_compute. discriminate.
  - lia.
  - vm_compute. reflexivity.
  - intros Hlen. discriminate Hlen.
  - intros _. vm_compute. split; [discriminate|reflexivity].
  - vm_compute. lia.
  - exists st'. split; [exact Hrun|]. split.
    + destruct (deref 1 st') as [b'|] eqn:Hb'; [|reflexivity].
      destruct (Hgone 1 b' Hb') as (Hov & b & Hb & Hun).
      vm_compute in Hb. injection Hb as <-.
      apply (unlinked_geometry (H := Scenario.platform)) in Hun as (Hsame & _).
      rewrite Hsame in Hov. vm_compute in Hov. discriminate Hov.
    + destruct (Hkept 2 (mkJitBlock 0x7200 0x7210 0x2000 0x30 0x2000 16 1 0 [] 0))
        as (b' & -> & _); [vm_compute; reflexivity..|]. eauto.
Defined.

Lemma well_indexed_set_hints `{Platform} f st :
  well_indexed st → well_indexed (set_hints f st).
Proof. by apply well_indexed_ext. Qed.

Lemma InvalidateICache_hints_witness :
  ∃ st',
    InvalidateICache (H := Scenario.platform) 2 0x1000 4 false
      (set_hints (λ _, {[0x1000; 0x1004]}) Scenario.linked_pair) = Some st' ∧
    (0x1000 ∉ fifoWriteAddresses st') ∧ 0x1004 ∈ fifoWriteAddresses st'.
Proof.
  destruct (InvalidateICache_hints (H := Scenario.platform) 8
              ltac:(lia) eq_refl 2 0x1000 4 false
              (set_hints (λ _, {[0x1000; 0x1004]}) Scenario.linked_pair))
    as (st' & Hrun & Hfifo & _).
  - apply well_indexed_set_hints. exact linked_pair_indexed.
  - reflexivity.
  - vm_compute. discriminate.
  - lia.
  - vm_compute. reflexivity.
  - intros Hlen. discriminate Hlen.
  - intros _. vm_compute. split; [discriminate|reflexivity].
  - vm_compute. lia.
  - exists st'. split; [exact Hrun|]. rewrite !Hfifo. split.
    + intros [_ [Hforced|Hkept]]; [discriminate Hforced|].
      apply Hkept. exists 0. lia.
    + split.
      * simpl. apply elem_of_union. right. by apply elem_of_singleton.
      * right. intros (k & Hk & Heq & Hlt). lia.
Defined.

(** ** Compiling a block keeps the cache well indexed *)

Section Indexing.
Context `{Platform}.
Hypothesis Hmask : 0 ≤ FAST_BLOCK_MAP_MASK.

Lemma FinalizeBlock_links_to p link st b st' :
  deref p st = Some b → buckets_end b → FinalizeBlock p link st = Some st' →
  ∀ x, x ∈ links_to st' ↔
       x ∈ links_to st ∨
       (link = true ∧ ∃ e, e ∈ linkData b ∧ x = (exitAddress e, p)).
Proof.
  intros Hp Hend Hrun.
  destruct (FinalizeBlock_unfold p link st b Hp (block_buckets_total b Hend))
    as (st4 & Heq & _ & Hl4 & _).
  rewrite Heq in Hrun. destruct link.
  - apply LinkBlock_skeleton, skeleton_fields in Hrun as (Hl & _).
    rewrite Hl. simpl. rewrite Hl4. intros x. rewrite foldl_emplace_elem.
    split; [intros [?|?]; eauto|intros [?|[_ ?]]; eauto].
  - injection Hrun as <-. rewrite Hl4. intros x.
    split; [by left|]. by intros [?|[? _]].
Qed.

(** X14. Compiling a block onto a well-indexed cache gives a well-indexed
    cache: [AllocateBlock] at a fresh node for an address whose physical
    address has no block yet, the recompiler filling in a block that
    keeps that physical address, has at least one instruction, fits in
    the address space and has a bucket loop that ends, then
    [FinalizeBlock], with or without linking. [FinalizeBlock] completes.
    The mask of the fast map is not negative. *)
Theorem FinalizeBlock_keeps_index MSR p em f link st0 b :
  let phys := TranslateResult.address (JitCache_TranslateAddress em) in
  let st := update_block p f (AllocateBlock MSR p em st0).2 in
  well_indexed st0 → deref p st0 = None →
  (∀ kv, kv ∈ block_map st0 → kv.1 ≠ phys) →
  deref p st = Some b →
  physicalAddress b = phys → block_fits b → buckets_end b →
  ∃ st', FinalizeBlock p link st = Some st' ∧ well_indexed st'.
Proof.
  intros phys st Hwf Hfresh Hkey Hp Hphys Hfit Hend.
  set (b0 := mkJitBlock 0 0 em (Z.land MSR JIT_CACHE_MSR_MASK) phys 0 0 0 [] 0).
  assert (block_map st = mm_store p f (mm_emplace phys (p, b0) (block_map st0)))
    as Hm by done.
  assert (links_to st = links_to st0) as Hl by done.
  assert (block_range_map st = block_range_map st0) as Hr by done.
  assert (fast_block_map st = fast_block_map st0) as Hf by done.
  assert (∀ q, q ≠ p → deref q st = deref q st0) as Hother.
  { intros q Hq. unfold deref. rewrite Hm, mm_deref_store, decide_False by done.
    by apply mm_deref_emplace_other. }
  assert (∀ q, is_Some (deref q st0) → q ≠ p) as Hold
    by (intros q [? Hq] ->; congruence).
  destruct (mm_emplace_split phys (p, b0) (block_map st0)) as (l1 & l2 & Hsplit & Hemp).
  assert (key_nodes st =
          ((λ kv, (kv.1, kv.2.1)) <$> l1) ++ (phys, p) :: ((λ kv, (kv.1, kv.2.1)) <$> l2))
    as Hnodes.
  { unfold key_nodes. by rewrite Hm, mm_store_nodes, Hemp, fmap_app. }
  assert (key_nodes st0 =
          ((λ kv, (kv.1, kv.2.1)) <$> l1) ++ ((λ kv, (kv.1, kv.2.1)) <$> l2))
    as Hnodes0 by (unfold key_nodes; by rewrite Hsplit, fmap_app).
  assert (links_live st) as Hlive.
  { intros k q. rewrite Hl. intros Hin.
    destruct (indexed_links _ Hwf _ _ Hin) as (bq & Hbq & _).
    rewrite Hother; [eauto|]. apply Hold. eauto. }
  destruct (FinalizeBlock_result p link st b Hp Hend Hlive)
    as (st' & addrs & Hrun & Haddrs & Hf' & Hd' & Hn' & _ & Hb' & _).
  pose proof (FinalizeBlock_links_to p link st b st' Hp Hend Hrun) as Hl'.
  set (index := FastLookupIndexForAddress (effectiveAddress b)) in *.
  assert (0 ≤ index ≤ FAST_BLOCK_MAP_MASK) as Hindex by (by apply land_bounds).
  (* the blocks of the new cache *)
  assert (∃ b', deref p st' = Some b' ∧
                unlinked b' = unlinked (set_fast_block_map_index index b))
    as (bp & Hbp & Hunp).
  { specialize (Hd' p). rewrite decide_True, Hp in Hd' by done.
    destruct (deref p st') as [bp|]; [|done]. exists bp. split; [done|].
    change (Some (unlinked bp) =
            Some (unlinked (set_fast_block_map_index index b))) in Hd'.
    congruence. }
  assert (∀ q, q ≠ p → unlinked <$> deref q st' = unlinked <$> deref q st0) as Hdq.
  { intros q Hq. by rewrite Hd', decide_False, Hother. }
  assert (∀ q b', deref q st' = Some b' →
            (q = p ∧ b' = bp) ∨
            (q ≠ p ∧ ∃ bq, deref q st0 = Some bq ∧ unlinked bq = unlinked b'))
    as Hnew.
  { intros q b' Hq. destruct (decide (q = p)) as [->|Hne].
    - left. split; [done|]. congruence.
    - right. split; [done|]. by apply (fmap_deref_Some _ st' q b' (Hdq q Hne)). }
  assert (∀ q bq, deref q st0 = Some bq →
            ∃ b', deref q st' = Some b' ∧ unlinked b' = unlinked bq) as Hkept.
  { intros q bq Hq. apply (fmap_deref_Some st' st0); [|done].
    symmetry. apply Hdq, Hold. eauto. }
  apply unlinked_fields in Hunp as (_&_&Hea&_&Hpa&Hos&Hidx&_&Hexits&_).
  simpl in Hea, Hpa, Hos, Hidx, Hexits.
  assert (block_buckets bp = Some addrs) as Haddrsp.
  { rewrite <-Haddrs. unfold block_buckets, block_end. by rewrite Hpa, Hos. }
  exists st'. split; [done|]. split.
  - apply (f_equal (fmap fst)) in Hn'. fold (key_nodes st) in Hn'.
    rewrite <- list_fmap_compose in Hn'.
    change ((λ kv, kv.1) <$> block_map st' = fst <$> key_nodes st) in Hn'.
    rewrite Hn', Hnodes, fmap_app, fmap_cons, <-Permutation_middle.
    apply NoDup_cons. split.
    + simpl. rewrite <-fmap_app, <-Hnodes0. unfold key_nodes.
      rewrite <-list_fmap_compose. intros (kv & Hk & Hkv)%list_elem_of_fmap.
      by apply (Hkey kv).
    + rewrite <-fmap_app, <-Hnodes0. unfold key_nodes.
      rewrite <-list_fmap_compose. apply (indexed_keys _ Hwf).
  - intros k q. unfold key_nodes at 1. rewrite Hn'.
    change ((k, q) ∈ key_nodes st → ∃ b1, deref q st' = Some b1 ∧ physicalAddress b1 = k).
    rewrite Hnodes. intros Hin.
    assert ((k, q) = (phys, p) ∨ (k, q) ∈ key_nodes st0) as [Heq|Hin0].
    { rewrite Hnodes0. rewrite elem_of_app, elem_of_cons in Hin.
      rewrite elem_of_app. tauto. }
    + injection Heq as -> ->. exists bp. split; [done|]. congruence.
    + destruct (indexed_key _ Hwf _ _ Hin0) as (bq & Hbq & Hk).
      destruct (Hkept q bq Hbq) as (b' & Hq' & Hun).
      exists b'. split; [done|].
      apply unlinked_fields in Hun as (_&_&_&_&Hpa'&_). congruence.
  - intros q b' Hq. destruct (Hnew q b' Hq) as [[-> ->]|(Hne & bq & Hbq & Hun)].
    + unfold block_fits, buckets_end, block_end in *. by rewrite Hpa, Hos.
    + destruct (indexed_fits _ Hwf _ _ Hbq) as [Hfitq Hendq].
      destruct (unlinked_geometry _ _ Hun) as (_ & _ & Hf1 & Hf2). eauto.
  - intros q b' Hq. destruct (Hnew q b' Hq) as [[-> ->]|(Hne & bq & Hbq & Hun)].
    + by rewrite Hidx.
    + apply unlinked_fields in Hun as (_&_&_&_&_&_&Hi&_). rewrite <-Hi.
      by apply (indexed_slots _ Hwf q).
  - intros i q b' Hi Hq. rewrite Hf', Hf in Hi.
    destruct (decide (i = index)) as [->|Hne].
    + rewrite lookup_insert_eq in Hi. injection Hi as <-.
      rewrite Hbp in Hq. injection Hq as <-. by rewrite Hidx, Hea.
    + rewrite lookup_insert_ne in Hi by done.
      destruct (Hnew q b' Hq) as [[-> ->]|(_ & bq & Hbq & Hun)].
      * destruct (indexed_live _ Hwf _ _ Hi) as [? ?]. congruence.
      * apply unlinked_fields in Hun as (_&_&Hea'&_&_&_&Hi'&_).
        rewrite <-Hea', <-Hi'. by apply (indexed_fast _ Hwf i q).
  - intros i q Hi. rewrite Hf', Hf in Hi.
    destruct (decide (i = index)) as [->|Hne].
    + rewrite lookup_insert_eq in Hi. injection Hi as <-. eauto.
    + rewrite lookup_insert_ne in Hi by done.
      destruct (indexed_live _ Hwf _ _ Hi) as [bq Hbq].
      destruct (Hkept q bq Hbq) as (b' & -> & _). eauto.
  - intros k q [Hin|(_ & e & He & Heq)]%Hl'.
    + rewrite Hl in Hin. destruct (indexed_links _ Hwf _ _ Hin) as (bq & Hbq & Hk).
      destruct (Hkept q bq Hbq) as (b' & Hq' & Hun).
      exists b'. split; [done|].
      apply unlinked_fields in Hun as (_&_&_&_&_&_&_&_&He&_). by rewrite He.
    + injection Heq as -> ->. exists bp. split; [done|].
      rewrite Hexits. apply list_elem_of_fmap. eauto.
  - intros k q. rewrite Hb', Hr.
    assert (p ∉ bucket_at k (block_range_map st0)) as Hpk.
    { intros (bq & _ & Hbq & _)%(indexed_buckets _ Hwf). congruence. }
    split.
    + intros Hq.
      assert (q = p ∧ k ∈ addrs ∨ q ∈ bucket_at k (block_range_map st0)) as [[-> Hk]|Hq0].
      { case_decide; [|by right].
        apply elem_of_union in Hq as [->%elem_of_singleton|?]; [by left|by right]. }
      * by exists bp, addrs.
      * apply (indexed_buckets _ Hwf) in Hq0 as (bq & l & Hbq & Hlq & Hk).
        destruct (Hkept q bq Hbq) as (b' & Hq' & Hun).
        destruct (unlinked_geometry _ _ Hun) as (_ & Hbk & _).
        exists b', l. by rewrite Hbk.
    + intros (b' & l & Hq & Hlq & Hk).
      destruct (Hnew q b' Hq) as [[-> ->]|(Hne & bq & Hbq & Hun)].
      * rewrite Haddrsp in Hlq. injection Hlq as <-.
        rewrite decide_True by done. apply elem_of_union. left.
        by apply elem_of_singleton.
      * assert (q ∈ bucket_at k (block_range_map st0)) as Hq0.
        { apply (indexed_buckets _ Hwf).
          destruct (unlinked_geometry _ _ Hun) as (_ & Hbk & _).
          exists bq, l. by rewrite Hbk. }
        case_decide; [|done]. apply elem_of_union. by right.
Qed.

End Indexing.

Lemma FinalizeBlock_keeps_index_witness :
  ∃ st',
    FinalizeBlock (H := Scenario.platform) 3 true
      (Scenario.allocated 0x30 3 0x3000 2 [Scenario.exit_to_0x2000]
         Scenario.linked_pair) = Some st' ∧
    well_indexed (H := Scenario.platform) st'.
Proof.
  apply (FinalizeBlock_keeps_index (H := Scenario.platform) ltac:(done) 0x30 3 0x3000
           (λ b, mkJitBlock 0x7300 0x7310 (effectiveAddress b) (msrBits b)
                   (physicalAddress b) 16 2 0 [Scenario.exit_to_0x2000]
                   (fast_block_map_index b))
           true Scenario.linked_pair
           (mkJitBlock 0x7300 0x7310 0x3000 0x30 0x3000 16 2 0
              [Scenario.exit_to_0x2000] 0)).
  - exact linked_pair_indexed.
  - vm_compute. reflexivity.
  - intros kv Hkv. apply list_elem_of_In in Hkv. vm_compute in Hkv.
    destruct Hkv as [<-|[<-|[]]]; vm_compute; discriminate.
  - vm_compute. reflexivity.
  - vm_compute. reflexivity.
  - vm_compute. repeat split; discriminate.
  - vm_compute. split; reflexivity.
Defined.

(** ** Dispatching keeps the cache well indexed *)

Section Moving_indexed.
Context `{Platform} `{Recompiler}.
Hypothesis Hmask : 0 ≤ FAST_BLOCK_MAP_MASK.

Lemma well_indexed_nodes_distinct st : well_indexed st → nodes_distinct st.
Proof.
  intros Hwf. unfold nodes_distinct.
  assert ((λ kv : Z * (Z * JitBlock), kv.2.1) <$> block_map st = snd <$> key_nodes st)
    as -> by (unfold key_nodes; by rewrite <-list_fmap_compose).
  apply NoDup_fmap_2_strong.
  - intros [k1 p1] [k2 p2] H1 H2 Heq. simpl in Heq. subst p2.
    destruct (indexed_key _ Hwf _ _ H1) as (b1 & Hb1 & Hk1).
    destruct (indexed_key _ Hwf _ _ H2) as (b2 & Hb2 & Hk2).
    f_equal. congruence.
  - apply (NoDup_fmap_1 fst). unfold key_nodes. rewrite <-list_fmap_compose.
    apply (indexed_keys _ Hwf).
Qed.

(** X15. On a well-indexed cache that has a block for [(addr, msr)],
    [MoveBlockIntoFastCache] completes and leaves the cache well
    indexed, with that block in the slot of [addr]: a miss of [Dispatch]
    on a compiled block keeps the index. The mask of the fast map is not
    negative. *)
Theorem MoveBlockIntoFastCache_keeps_index addr msr st q b :
  well_indexed st →
  GetBlockFromStartAddress addr msr st = Some (q, b) →
  ∃ st',
    MoveBlockIntoFastCache addr msr st = Some st' ∧
    fast_block_map st' !! FastLookupIndexForAddress addr = Some q ∧
    well_indexed st'.
Proof.
  intros Hwf Hget.
  destruct (MoveBlockIntoFastCache_result addr msr st q b)
    as (st' & Hrun & Hfast & Hone & Hcons & Hq & Hd & Hn & Hl & Hr);
    [by apply well_indexed_links_live|apply (indexed_slots _ Hwf)
    |by apply well_indexed_nodes_distinct|apply (indexed_fast _ Hwf)|done|].
  set (index := FastLookupIndexForAddress addr) in *.
  assert (0 ≤ index ≤ FAST_BLOCK_MAP_MASK) as Hindex by (by apply land_bounds).
  assert (∀ x bx', deref x st' = Some bx' →
            ∃ bx, deref x st = Some bx ∧
                  effectiveAddress bx' = effectiveAddress bx ∧
                  physicalAddress bx' = physicalAddress bx ∧
                  originalSize bx' = originalSize bx ∧
                  exitAddress <$> linkData bx' = exitAddress <$> linkData bx ∧
                  fast_block_map_index bx' =
                    (if decide (x = q) then index else fast_block_map_index bx))
    as Hnew.
  { intros x bx' Hx. specialize (Hd x). rewrite Hx in Hd.
    destruct (decide (x = q)) as [->|Hne].
    - exists b. split; [done|].
      change (Some (unlinked bx') =
              Some (unlinked (set_fast_block_map_index index b))) in Hd.
      assert (unlinked bx' = unlinked (set_fast_block_map_index index b)) as Hun
        by congruence.
      by apply unlinked_fields in Hun as (_&_&?&_&?&?&?&_&?&_).
    - destruct (deref x st) as [bx|]; [|done]. exists bx. split; [done|].
      change (Some (unlinked bx') = Some (unlinked bx)) in Hd.
      assert (unlinked bx' = unlinked bx) as Hun by congruence.
      by apply unlinked_fields in Hun as (_&_&?&_&?&?&?&_&?&_). }
  assert (∀ x bx, deref x st = Some bx → is_Some (deref x st')) as Hkept.
  { intros x bx Hx. specialize (Hd x).
    destruct (decide (x = q)); destruct (deref x st'); eauto.
    by rewrite Hx in Hd. }
  exists st'. split; [done|]. split; [by rewrite Hfast, lookup_insert_eq|]. split.
  - apply (f_equal (fmap fst)) in Hn. unfold key_nodes in Hn.
    rewrite <- !list_fmap_compose in Hn.
    change ((λ kv, kv.1) <$> block_map st' = (λ kv, kv.1) <$> block_map st) in Hn.
    rewrite Hn. apply (indexed_keys _ Hwf).
  - intros k p. rewrite Hn. intros Hin.
    destruct (indexed_key _ Hwf _ _ Hin) as (bp & Hbp & Hk).
    destruct (Hkept p bp Hbp) as [bp' Hbp'].
    destruct (Hnew p bp' Hbp') as (bp0 & Hbp0 & _ & Hpa & _).
    exists bp'. split; [done|]. congruence.
  - intros p bp' Hbp'. destruct (Hnew p bp' Hbp') as (bp & Hbp & _ & Hpa & Hos & _).
    destruct (indexed_fits _ Hwf _ _ Hbp) as [Hfit Hend].
    unfold block_fits, buckets_end, block_end in *. by rewrite Hpa, Hos.
  - intros p bp' Hbp'. destruct (Hnew p bp' Hbp') as (bp & Hbp & _ & _ & _ & _ & ->).
    destruct (decide (p = q)); [done|]. by apply (indexed_slots _ Hwf p).
  - done.
  - intros i p Hi. rewrite Hfast in Hi.
    destruct (decide (i = index)) as [->|Hne].
    + rewrite lookup_insert_eq in Hi. injection Hi as <-. by apply (Hkept q b).
    + rewrite lookup_insert_ne in Hi by done.
      assert (fast_block_map st !! i = Some p) as Hi'.
      { destruct (decide (fast_block_map st !! fast_block_map_index b = Some q));
          [|done].
        by apply lookup_delete_Some in Hi as [_ ?]. }
      destruct (indexed_live _ Hwf _ _ Hi') as [bp Hbp]. by apply (Hkept p bp).
  - intros k p. rewrite Hl. intros Hin.
    destruct (indexed_links _ Hwf _ _ Hin) as (bp & Hbp & Hk).
    destruct (Hkept p bp Hbp) as [bp' Hbp'].
    destruct (Hnew p bp' Hbp') as (bp0 & Hbp0 & _ & _ & _ & Hex & _).
    exists bp'. split; [done|]. rewrite Hex. congruence.
  - intros k p. rewrite Hr, (indexed_buckets _ Hwf). split.
    + intros (bp & l & Hbp & Hlp & Hk).
      destruct (Hkept p bp Hbp) as [bp' Hbp'].
      destruct (Hnew p bp' Hbp') as (bp0 & Hbp0 & _ & Hpa & Hos & _).
      exists bp', l. split; [done|]. split; [|done].
      rewrite <-Hlp. unfold block_buckets, block_end. rewrite Hpa, Hos. congruence.
    + intros (bp' & l & Hbp' & Hlp & Hk).
      destruct (Hnew p bp' Hbp') as (bp & Hbp & _ & Hpa & Hos & _).
      exists bp, l. split; [done|]. split; [|done].
      rewrite <-Hlp. unfold block_buckets, block_end. by rewrite Hpa, Hos.
Qed.

End Moving_indexed.

Lemma MoveBlockIntoFastCache_keeps_index_witness :
  ∃ st',
    MoveBlockIntoFastCache (H := Scenario.platform) (H0 := Scenario.recompiler 0x30)
      0x1000 0x30 Scenario.linked_pair = Some st' ∧
    fast_block_map st' !! 0 = Some 1.
Proof.
  destruct (MoveBlockIntoFastCache_keeps_index (H := Scenario.platform)
              (H0 := Scenario.recompiler 0x30) ltac:(done)
              0x1000 0x30 Scenario.linked_pair 1
              (mkJitBlock 0x7100 0x7110 0x1000 0x30 0x1000 16 1 0
                 [mkLinkData 0x7104 0x2000 true false] 0))
    as (st' & Hrun & Hslot & _).
  - exact linked_pair_indexed.
  - vm_compute. reflexivity.
  - exists st'. split; [exact Hrun|exact Hslot].
Defined.

(** ** The link graph across the operations *)




Section Link_graph.
Context `{Platform} `{Recompiler}.




End Link_graph.

